(** * RayMarch: a shallow embedding of [src/Main.cpp]

    The program is a CPU ray marcher: two signed distance functions (an
    infinitely repeated sphere and an axis-aligned box), a fixed-budget
    marching loop, a finite-difference normal, Lambertian shading with an
    ambient floor, a scanline render loop and a PPM byte sink.

    The source computes in C++ [float].  Every function of the source is
    translated once, over an interface [Scalar] of the arithmetic it uses,
    and the interface has two instances:

    - [R_Scalar]: the real numbers, i.e. the program in exact arithmetic.
      Statements about distances, lengths and ranges are proved at this
      instance.
    - [B32_Scalar]: IEEE-754 binary32 as specified by the standard
      library's [SpecFloat] (precision 24, emax 128), i.e. the arithmetic
      the compiled program runs.  It computes, so concrete runs of the
      program are evaluated at this instance, and the statements that
      depend on rounding, on infinities or on NaN are proved at it.

    Statements about the control flow alone (the marching loop, the render
    loop, the sink) are proved for every instance of the interface.

    The recursion of [mod] is not structural (and, on binary32, not even
    terminating), so it carries a fuel argument: [None] means that the
    fuel ran out, and a call of the C++ function returns [r] exactly when
    some amount of fuel yields [Some r]. *)

From Stdlib Require Import ZArith Reals Lra Lia Bool List Permutation.
From Stdlib Require Import Floats.SpecFloat.
From Stdlib Require Ascii String DecimalString.
From stdpp Require Import base list.

(** ** The arithmetic interface *)

Class Scalar (F : Type) := {
  fromZ  : Z -> F;            (* an integer constant converted to float *)
  fadd   : F -> F -> F;
  fsub   : F -> F -> F;
  fmul   : F -> F -> F;
  fdiv   : F -> F -> F;
  fopp   : F -> F;
  fabs   : F -> F;
  fsqrt  : F -> F;            (* std::sqrt *)
  fltb   : F -> F -> bool;    (* operator<  *)
  fleb   : F -> F -> bool;    (* operator<= *)
  feqb   : F -> F -> bool;    (* operator== *)
  ftrunc : F -> Z             (* static_cast<int>: truncation toward zero *)
}.

Declare Scope fl_scope.
Delimit Scope fl_scope with fl.
Notation "x + y" := (fadd x y) : fl_scope.
Notation "x - y" := (fsub x y) : fl_scope.
Notation "x * y" := (fmul x y) : fl_scope.
Notation "x / y" := (fdiv x y) : fl_scope.
Notation "- x" := (fopp x) : fl_scope.
Notation "x <? y" := (fltb x y) : fl_scope.
Notation "x >? y" := (fltb y x) : fl_scope.
Notation "x >=? y" := (fleb y x) : fl_scope.

(** ** The program, over any [Scalar] *)

Section Program.
Context {F : Type} `{Scalar F}.
Local Open Scope fl_scope.

(** A decimal literal [n/d] of the source, e.g. [0.25] is [dec 1 4]. *)
Definition dec (n d : Z) : F := fromZ n / fromZ d.

(** The conversion of a float to [bool] in a condition: [c != 0]. *)
Definition truthy (c : F) : bool := negb (feqb c (fromZ 0)).

(** The conversion of a [bool] to float in an arithmetic expression. *)
Definition of_bool (b : bool) : F := if b then fromZ 1 else fromZ 0.

(** [std::max(a, b)] is [(a < b) ? b : a]. *)
Definition std_max (a b : F) : F := if a <? b then b else a.

(** *** The vector primitive of [geometry.h] *)

Record Vec3f := mkVec3f { vx : F; vy : F; vz : F }.

(** Modelled from the spec: [geometry.h] is not part of the sources; section
    4.1 of the specification lists its operations: componentwise sum and
    difference, product with a scalar, dot product, Euclidean norm
    [sqrt (a . a)] and [normalize a = a / norm a]. *)
Definition vadd (a b : Vec3f) : Vec3f :=
  mkVec3f (vx a + vx b) (vy a + vy b) (vz a + vz b).

Definition vsub (a b : Vec3f) : Vec3f :=
  mkVec3f (vx a - vx b) (vy a - vy b) (vz a - vz b).

Definition vscale (a : Vec3f) (s : F) : Vec3f :=
  mkVec3f (vx a * s) (vy a * s) (vz a * s).

Definition dot (a b : Vec3f) : F :=
  vx a * vx b + vy a * vy b + vz a * vz b.

Definition norm (a : Vec3f) : F := fsqrt (dot a a).

Definition normalize (a : Vec3f) : Vec3f :=
  let n := norm a in mkVec3f (vx a / n) (vy a / n) (vz a / n).

(** [v[j]] for [j = 0, 1, 2]. *)
Definition vget (a : Vec3f) (j : nat) : F :=
  match j with O => vx a | S O => vy a | _ => vz a end.

(** *** Constants (lines 17-21) *)

Definition sphere_radius : F := dec 1 4.
Definition sphere_center : Vec3f := mkVec3f (dec 1 2) (dec 1 2) (fromZ 0).
Definition box_size : Vec3f := mkVec3f (dec 1 4) (dec 1 4) (dec 1 4).
Definition box_center : Vec3f := mkVec3f (dec 1 2) (dec 1 2) (fromZ 0).
Definition ray_steps : nat := 128.

(** *** Helpers (lines 23-63) *)

(** [float mod(float f, float v)] ([mod] is reserved in Rocq, so the two
    overloads are [mod_float] and [mod_vec]): every call costs one unit of
    fuel. *)
Fixpoint mod_float (fuel : nat) (f v : F) : option F :=
  match fuel with
  | O => None
  | S fuel' =>
      if f <? fromZ 0 then mod_float fuel' (f + v) v
      else if f >=? v then mod_float fuel' (f - v) v
      else Some f
  end.

(** [Vec3f mod(Vec3f p, float val)] *)
Definition mod_vec (fuel : nat) (p : Vec3f) (val : F) : option Vec3f :=
  x ← mod_float fuel (vx p) val;
  y ← mod_float fuel (vy p) val;
  z ← mod_float fuel (vz p) val;
  Some (mkVec3f x y z).

(** [abs], [max] and [maxcomp] on vectors ([vabs] and [vmax] here, since the
    scalar functions of the same names are separate operations). *)
Definition vabs (p : Vec3f) : Vec3f :=
  mkVec3f (fabs (vx p)) (fabs (vy p)) (fabs (vz p)).

Definition vmax (p : Vec3f) (v : F) : Vec3f :=
  mkVec3f (if vx p >? v then vx p else v)
          (if vy p >? v then vy p else v)
          (if vz p >? v then vz p else v).

Definition maxcomp (p : Vec3f) : F :=
  let max := vx p in
  let max := if vy p >? max then vy p else max in
  let max := if vz p >? max then vz p else max in
  max.

(** *** The signed distance functions (lines 65-75) *)

Definition sphere_signed_distance (fuel : nat) (p : Vec3f) : option F :=
  m ← mod_vec fuel p (fromZ 1);
  Some (norm (vsub m sphere_center) - sphere_radius).

(** The return line is [max(q,0).norm() + (maxComp < 0) ? maxComp : 0]:
    [+] binds tighter than [?:], so the whole sum is the condition. *)
Definition box_signed_distance (p : Vec3f) : F :=
  let q := vsub (vsub (vabs p) box_center) box_size in
  let maxComp := maxcomp q in
  if truthy (norm (vmax q (fromZ 0)) + of_bool (maxComp <? fromZ 0))
  then maxComp else fromZ 0.

(** *** The marching loop (lines 77-87 and 89-99)

    [sphere_trace] and [box_trace] are the same loop around the two
    distance functions.  The result records the C++ return value [hit], the
    out-parameter [pos] and, as instrumentation, the distances returned by
    the evaluations of the distance function, in order. *)

Record TraceResult := mkTrace { hit : bool; pos : Vec3f; evals : list F }.

Fixpoint march (sdf : Vec3f -> option F) (steps : nat) (dir p : Vec3f)
  : option TraceResult :=
  match steps with
  | O => Some (mkTrace false p [])
  | S steps' =>
      d ← sdf p;
      if d <? fromZ 0 then Some (mkTrace true p [d])
      else
        r ← march sdf steps' dir
              (vadd p (vscale dir (std_max (d * dec 1 10) (dec 1 100))));
        Some (mkTrace (hit r) (pos r) (d :: evals r))
  end.

Definition sphere_trace (fuel : nat) (orig dir : Vec3f) : option TraceResult :=
  march (sphere_signed_distance fuel) ray_steps dir orig.

Definition box_trace (orig dir : Vec3f) : option TraceResult :=
  march (fun p => Some (box_signed_distance p)) ray_steps dir orig.

(** *** The normal estimators (lines 102-120) *)

Definition distance_field_normal_sphere (fuel : nat) (p : Vec3f)
  : option Vec3f :=
  let eps := dec 1 10 in
  d ← sphere_signed_distance fuel p;
  dx ← sphere_signed_distance fuel (vadd p (mkVec3f eps (fromZ 0) (fromZ 0)));
  dy ← sphere_signed_distance fuel (vadd p (mkVec3f (fromZ 0) eps (fromZ 0)));
  dz ← sphere_signed_distance fuel (vadd p (mkVec3f (fromZ 0) (fromZ 0) eps));
  Some (normalize (mkVec3f (dx - d) (dy - d) (dz - d))).

Definition distance_field_normal_box (p : Vec3f) : Vec3f :=
  let eps := dec 1 10 in
  let d := box_signed_distance p in
  let nx := box_signed_distance (vadd p (mkVec3f eps (fromZ 0) (fromZ 0))) - d in
  let ny := box_signed_distance (vadd p (mkVec3f (fromZ 0) eps (fromZ 0))) - d in
  let nz := box_signed_distance (vadd p (mkVec3f (fromZ 0) (fromZ 0) eps)) - d in
  normalize (mkVec3f nx ny nz).

(** *** Shading (lines 144-146 and 151-153) *)

Definition light : Vec3f := mkVec3f (fromZ 10) (fromZ 10) (fromZ 10).
Definition ambient : F := dec 4 10.
Definition background : Vec3f := mkVec3f (dec 2 10) (dec 7 10) (dec 8 10).
Definition white : Vec3f := mkVec3f (fromZ 1) (fromZ 1) (fromZ 1).

(** [std::max(0.4f, light_dir * normal)] *)
Definition light_intensity (light_dir normal : Vec3f) : F :=
  std_max ambient (dot light_dir normal).

Definition shade_sphere (fuel : nat) (h : Vec3f) : option Vec3f :=
  n ← distance_field_normal_sphere fuel h;
  let light_dir := normalize (vsub light h) in
  Some (vscale white (light_intensity light_dir n)).

Definition shade_box (h : Vec3f) : Vec3f :=
  let light_dir := normalize (vsub light h) in
  vscale white (light_intensity light_dir (distance_field_normal_box h)).

(** *** The body of the render loop (lines 136-158)

    [tan_half_fov] stands for the value of [tan (fov / 2.)]: the tangent is
    a library function outside the sources.  The source evaluates the
    three expressions of lines 136-138 in [double] and rounds each once to
    [float]; the model evaluates them in the arithmetic of the instance, so
    that on binary32 every operation rounds and the last bit of a
    direction can differ. *)

Definition calcSphere : bool := false.
Definition calcBox : bool := true.

Definition eye_sphere : Vec3f := mkVec3f (fromZ 1) (fromZ 1) (fromZ 3).
Definition eye_box : Vec3f := mkVec3f (dec 1 2) (dec 1 2) (fromZ 3).

Definition of_nat (n : nat) : F := fromZ (Z.of_nat n).

Definition pixel_dir (tan_half_fov : F) (width height i j : nat) : Vec3f :=
  let dir_x := (of_nat i + dec 1 2) - of_nat width / fromZ 2 in
  let dir_y := - (of_nat j + dec 1 2) + of_nat height / fromZ 2 in
  let dir_z := - of_nat height / (fromZ 2 * tan_half_fov) in
  normalize (mkVec3f dir_x dir_y dir_z).

(** The colour stored for pixel [(i, j)].  [a && f(...)] does not call [f]
    when [a] is false; [h] follows the local variable [hit] of the source,
    which each tracer overwrites when it is called. *)
Definition pixel_color (fuel : nat) (tan_half_fov : F)
    (width height i j : nat) : option Vec3f :=
  let dir := pixel_dir tan_half_fov width height i j in
  let h := mkVec3f (fromZ 0) (fromZ 0) (fromZ 0) in
  s ← (if calcSphere then sphere_trace fuel eye_sphere dir
       else Some (mkTrace false h []));
  if hit s then shade_sphere fuel (pos s)
  else
    b ← (if calcBox then box_trace eye_box dir
         else Some (mkTrace false (pos s) []));
    if hit b then Some (shade_box (pos b)) else Some background.

(** *** The render loop (lines 127-160)

    The state of the loop is the framebuffer (a vector of [width * height]
    colours, written by index) and, as instrumentation, the list of the
    indices written so far. *)

Record Canvas := mkCanvas { framebuffer : list Vec3f; written : list nat }.

Definition blank (width height : nat) : Canvas :=
  mkCanvas (replicate (width * height)%nat
              (mkVec3f (fromZ 0) (fromZ 0) (fromZ 0))) [].

(** [framebuffer[k] = c] *)
Definition put (k : nat) (c : Vec3f) (cv : Canvas) : Canvas :=
  mkCanvas (<[k := c]> (framebuffer cv)) (written cv ++ [k]).

(** [for (size_t i = from; i < from + n; i++) body] *)
Fixpoint for_from {St : Type} (body : nat -> St -> option St)
    (from n : nat) (s : St) : option St :=
  match n with
  | O => Some s
  | S n' => s' ← body from s; for_from body (S from) n' s'
  end.

Definition pixel_step (fuel : nat) (tan_half_fov : F)
    (width height j i : nat) (cv : Canvas) : option Canvas :=
  c ← pixel_color fuel tan_half_fov width height i j;
  Some (put (i + j * width)%nat c cv).

Definition render_row (fuel : nat) (tan_half_fov : F)
    (width height j : nat) (cv : Canvas) : option Canvas :=
  for_from (pixel_step fuel tan_half_fov width height j) 0 width cv.

Definition render (fuel : nat) (tan_half_fov : F) (width height : nat)
  : option Canvas :=
  for_from (render_row fuel tan_half_fov width height) 0 height
    (blank width height).

(** The loop body run in an arbitrary order of the pixels [(i, j)]: the
    effect of distributing the iterations of the [omp parallel for] over
    worker threads. *)
Fixpoint render_in_order (fuel : nat) (tan_half_fov : F)
    (width height : nat) (sched : list (nat * nat)) (cv : Canvas)
  : option Canvas :=
  match sched with
  | [] => Some cv
  | (i, j) :: rest =>
      cv' ← pixel_step fuel tan_half_fov width height j i cv;
      render_in_order fuel tan_half_fov width height rest cv'
  end.

(** *** The PPM sink (lines 168-174) *)

(** [(char)(std::max(0, std::min(255, static_cast<int>(255 * c))))]; the
    cast to [char] keeps the low eight bits.  The cast to [int] is defined
    by C++ only for values whose truncation is in the range of [int];
    [ftrunc] is the truncation into [Z], so the model says what the code
    does for [255 * c] in that range only. *)
Definition sink_byte (c : F) : Z :=
  (Z.max 0 (Z.min 255 (ftrunc (fromZ 255 * c)%fl)) mod 256)%Z.

Definition sink_bytes (fb : list Vec3f) : list Z :=
  flat_map (fun v => [sink_byte (vget v 0); sink_byte (vget v 1);
                      sink_byte (vget v 2)]) fb.

End Program.

Arguments Vec3f F : clear implicits.
Arguments TraceResult F : clear implicits.
Arguments Canvas F : clear implicits.

(** The scene of [main]: 640 x 480 pixels. *)
Definition width : nat := 640.
Definition height : nat := 480.

(** *** The PPM stream (lines 165-175) *)

Section Stream.
Import String.

(** [ofs << n] for an [int] that is not negative: its decimal digits. *)
Definition decimal (n : nat) : string :=
  DecimalString.NilEmpty.string_of_uint (Nat.to_uint n).

Definition newline : string := String (Ascii.ascii_of_nat 10) EmptyString.

(** ["P6\n" << width << " " << height << "\n255\n"] *)
Definition ppm_header (width height : nat) : string :=
  concat EmptyString
    ["P6"%string; newline; decimal width; " "%string; decimal height;
     newline; "255"%string; newline].

Definition bytes_of_string (s : string) : list Z :=
  (fun c => Z.of_nat (Ascii.nat_of_ascii c)) <$> list_ascii_of_string s.

(** The bytes written to [out.ppm]: the header, then the three bytes of
    [framebuffer[i]] for [i < height * width]. *)
Definition ppm_file {F : Type} `{Scalar F} (width height : nat)
    (fb : list (Vec3f F)) : list Z :=
  bytes_of_string (ppm_header width height)
  ++ sink_bytes (take (height * width) fb).

End Stream.
(** ** Instance 1: exact arithmetic *)

Module Exact.

Definition Rltb (x y : R) : bool := if Rlt_dec x y then true else false.
Definition Rleb (x y : R) : bool := if Rle_dec x y then true else false.
Definition Reqb (x y : R) : bool := if Req_dec_T x y then true else false.

(** Truncation toward zero, into [Z]: the value of [static_cast<int>]
    for a real whose truncation is in the range of [int] (beyond it the
    cast is undefined in C++). *)
Definition Rtrunc (x : R) : Z :=
  if Rle_dec 0 x then Int_part x else (- Int_part (- x))%Z.

#[global] Instance R_Scalar : Scalar R := {|
  fromZ := IZR; fadd := Rplus; fsub := Rminus; fmul := Rmult; fdiv := Rdiv;
  fopp := Ropp; fabs := Rabs; fsqrt := sqrt;
  fltb := Rltb; fleb := Rleb; feqb := Reqb; ftrunc := Rtrunc |}.

End Exact.

(** ** Instance 2: IEEE-754 binary32 *)

Module B32.

Definition prec : Z := 24.
Definition emax : Z := 128.

Definition float32 : Type := spec_float.

(** Conversion of an integer, rounding to nearest even. *)
Definition of_Z (z : Z) : float32 := binary_normalize prec emax z 0 false.

(** [static_cast<int>] of a finite float (the cast of a NaN, of an infinity
    or of a value outside the range of [int] is undefined in C++; the
    model returns the mathematical truncation, and 0 for NaN and
    infinities). *)
Definition trunc (x : float32) : Z :=
  match x with
  | S754_finite s m e =>
      cond_Zopp s (match e with
                   | Zneg p => Z.shiftr (Zpos m) (Zpos p)
                   | _ => Z.shiftl (Zpos m) e
                   end)
  | _ => 0%Z
  end.

(** The constants 0, 1 and 2^24. *)
Definition zero : float32 := S754_zero false.
Definition one : float32 := S754_finite false 8388608 (-23).
Definition c24 : float32 := S754_finite false 8388608 1.

(** A finite float: a zero, or a mantissa and an exponent in canonical
    form. *)
Definition finite32 (x : float32) : bool :=
  match x with
  | S754_zero _ => true
  | S754_finite _ m e => bounded prec emax m e
  | _ => false
  end.

(** The magnitude and the value of a finite float, in units of [2^-149]
    (the smallest positive binary32 number). *)
Definition mag (x : float32) : Z :=
  match x with
  | S754_finite _ m e => (Zpos m * 2 ^ (e + 149))%Z
  | _ => 0%Z
  end.

Definition val (x : float32) : Z :=
  match x with
  | S754_finite s m e => cond_Zopp s (Zpos m * 2 ^ (e + 149))%Z
  | _ => 0%Z
  end.

Definition has_sign (s : bool) (x : float32) : Prop :=
  match x with
  | S754_zero s' | S754_finite s' _ _ => s' = s
  | _ => False
  end.

(** The last step of [binary_round_aux]: the renormalization of a rounded
    mantissa. *)
Definition finish (s : bool) (m1 e1 : Z) : float32 :=
  let '(mrs, e) := shr_fexp prec emax m1 e1 loc_Exact in
  match shr_m mrs with
  | Z0 => S754_zero s
  | Zpos m => if (e <=? emax - prec)%Z then S754_finite s m e
              else S754_infinity s
  | Zneg _ => S754_nan
  end.

(** The constants 1/2 and 1/4, the coordinates of [box_center] and
    [box_size]. *)
Definition half : float32 := S754_finite false 8388608 (-24).
Definition quarter : float32 := S754_finite false 8388608 (-25).

(** A float that can be the coordinate of a point: a valid binary32 datum
    that is a number (an infinity included), not NaN. *)
Definition usable (x : float32) : Prop :=
  valid_binary prec emax x = true /\ x <> S754_nan.

(** A positive float: finite or infinite, not zero, not NaN. *)
Definition posf (x : float32) : Prop :=
  match x with
  | S754_finite false _ e => (-149 <= e)%Z
  | S754_infinity false => True
  | _ => False
  end.

(** A float of sign [s] that is neither a zero nor NaN. *)
Definition signed (s : bool) (x : float32) : Prop :=
  match x with
  | S754_finite s' _ e => s' = s /\ (-149 <= e)%Z
  | S754_infinity s' => s' = s
  | _ => False
  end.

(** Zero or positive. *)
Definition nnf (x : float32) : Prop := x = zero \/ posf x.

(** A valid float that is neither NaN nor the negative zero. *)
Definition okt (x : float32) : Prop :=
  match x with
  | S754_zero s => s = false
  | S754_infinity _ => True
  | S754_nan => False
  | S754_finite _ m e => bounded prec emax m e = true
  end.

(** Moreover, if positive and finite, at least [2^-25]. *)
Definition okq (x : float32) : Prop :=
  match x with
  | S754_zero s => s = false
  | S754_infinity _ => True
  | S754_nan => False
  | S754_finite s m e =>
      bounded prec emax m e = true /\
      (s = false -> (2 ^ 124 <= Zpos m * 2 ^ (e + 149))%Z)
  end.

#[global] Instance B32_Scalar : Scalar float32 := {|
  fromZ := of_Z;
  fadd := SFadd prec emax; fsub := SFsub prec emax;
  fmul := SFmul prec emax; fdiv := SFdiv prec emax;
  fopp := SFopp; fabs := SFabs; fsqrt := SFsqrt prec emax;
  fltb := SFltb; fleb := SFleb; feqb := SFeqb; ftrunc := trunc |}.

End B32.


(** ** Vocabulary of the properties *)

(** A fuelled computation returns [a]: every sufficient amount of fuel
    yields [Some a]. *)
Definition returns {A : Type} (run : nat -> option A) (a : A) : Prop :=
  exists n, forall fuel, n <= fuel -> run fuel = Some a.

(** The point [p + (i, j, k)] for an integer triple. *)
Definition translate {F : Type} `{Scalar F} (p : Vec3f F) (i j k : Z)
  : Vec3f F :=
  vadd p (mkVec3f (fromZ i) (fromZ j) (fromZ k)).

(** The vector [q = abs(p) - box_center - box_size] of the box distance. *)
Definition box_offset {F : Type} `{Scalar F} (p : Vec3f F) : Vec3f F :=
  vsub (vsub (vabs p) box_center) box_size.

(** [p] lies strictly inside the box of centre [box_center] and half-size
    [box_size]: [|p_k - box_center_k| < box_size_k] on the three axes. *)
Definition inside_bounding_box {F : Type} `{Scalar F} (p : Vec3f F) : bool :=
  fltb (fabs (fsub (vx p) (vx box_center))) (vx box_size) &&
  fltb (fabs (fsub (vy p) (vy box_center))) (vy box_size) &&
  fltb (fabs (fsub (vz p) (vz box_center))) (vz box_size).

(** The pixels of the image in the order of the sequential loop (row by
    row), and the framebuffer index of a pixel. *)
Definition pixels (width height : nat) : list (nat * nat) :=
  flat_map (fun j => (fun i => (i, j)) <$> seq 0 width) (seq 0 height).

Definition pixel_index (width : nat) (ij : nat * nat) : nat :=
  ij.1 + ij.2 * width.

(** The colour of pixel [(i, j)] when the box is the active scene, as
    [main] has it: the shaded colour on a hit, the background on a miss. *)
Definition box_pixel {F : Type} `{Scalar F} (tan_half_fov : F)
    (width height : nat) (ij : nat * nat) : Vec3f F :=
  match box_trace eye_box (pixel_dir tan_half_fov width height ij.1 ij.2) with
  | Some b => if hit b then shade_box (pos b) else background
  | None => background
  end.

(** The loop body as a function on canvases, and its iteration over a list
    of pixels. *)
Definition paint_pixel {F : Type} `{Scalar F} (tan_half_fov : F)
    (width height : nat) (cv : Canvas F) (ij : nat * nat) : Canvas F :=
  put (pixel_index width ij) (box_pixel tan_half_fov width height ij) cv.

Definition paint {F : Type} `{Scalar F} (tan_half_fov : F)
    (width height : nat) (cv : Canvas F) (sched : list (nat * nat))
  : Canvas F :=
  foldl (paint_pixel tan_half_fov width height) cv sched.

(** *** Exact arithmetic *)

(** The number of calls that [mod (f, 1)] makes on a real [f]. *)
Definition mod_calls (f : R) : nat := S (Z.abs_nat (Int_part f)).

(** The componentwise fractional part, and the distance to the repeated
    sphere written with it. *)
Definition vfrac (p : Vec3f R) : Vec3f R :=
  mkVec3f (frac_part (vx p)) (frac_part (vy p)) (frac_part (vz p)).

Definition sphere_distance (p : Vec3f R) : R :=
  (norm (vsub (vfrac p) sphere_center) - sphere_radius)%R.


(** Modelled from the spec: the quantization of section 4.7,
    [clamp (round (255 * c), 0, 255)], with [round] to the nearest integer
    (halves away from zero, as C's [round]). *)
Definition round_nearest (x : R) : Z :=
  if Rle_dec 0 x then Int_part (x + 1/2) else (- Int_part (- x + 1/2))%Z.

Definition clamp (z lo hi : Z) : Z := Z.max lo (Z.min hi z).

Definition spec_quantize (c : R) : Z := clamp (round_nearest (255 * c)) 0 255.

(** A point just behind the front face of the box, where rays through the
    middle of the image end. *)
Definition front_hit : Vec3f R := mkVec3f (1/2)%R (1/2)%R (1/5)%R.

(** *** binary32 *)

(** The float [2^25 = 33554432.0f]. *)
Definition big : B32.float32 := B32.of_Z (2 ^ 25).

(** The origin, and the direction of the view axis. *)
Definition origin32 : Vec3f B32.float32 :=
  mkVec3f (B32.of_Z 0) (B32.of_Z 0) (B32.of_Z 0).

Definition down32 : Vec3f B32.float32 :=
  mkVec3f (B32.of_Z 0) (B32.of_Z 0) (B32.of_Z (-1)).

(** *** Rays, mirror images and distances between points *)

(** The point [orig + t * dir] of a ray. *)
Definition ray_point {F : Type} `{Scalar F} (orig dir : Vec3f F) (t : F)
  : Vec3f F :=
  vadd orig (vscale dir t).

(** The point at the parameter [t] of the ray that leaves the box camera
    in the direction [(a, b, c)]. *)
Definition camera_ray (a b c t : R) : Vec3f R :=
  ray_point eye_box (mkVec3f a b c) t.

(** The image of [p] under the reflections selected by [sx], [sy], [sz]:
    a selected coordinate changes sign. *)
Definition flip {F : Type} `{Scalar F} (s : bool) (x : F) : F :=
  if s then fopp x else x.

Definition mirror {F : Type} `{Scalar F} (sx sy sz : bool) (p : Vec3f F)
  : Vec3f F :=
  mkVec3f (flip sx (vx p)) (flip sy (vy p)) (flip sz (vz p)).

(** The largest coordinate difference of two points. *)
Definition sup_dist (p p' : Vec3f R) : R :=
  Rmax (Rmax (Rabs (vx p - vx p')) (Rabs (vy p - vy p')))
       (Rabs (vz p - vz p')).

(** The number of calls that [mod (f, v)] makes on reals, [0 < v]. *)
Definition mod_cost (f v : R) : nat := S (Z.abs_nat (Int_part (f / v))).

(** A byte. *)
Definition is_byte (b : Z) : Prop := (0 <= b <= 255)%Z.

(** The reals whose truncation is in the range of [int] (32 bits): the
    values at which [static_cast<int>] is defined. *)
Definition in_int_range (x : R) : Prop :=
  (- 2147483649 < x < 2147483648)%R.

(** *** The evaluations of a marching loop *)

(** [q] is the point of evaluation number [k] (counted from 0) of the
    marching loop started at [p]: the evaluations before it have returned,
    with distances that are not negative. *)
Inductive reaches {F : Type} `{Scalar F} (sdf : nat -> Vec3f F -> option F)
    (dir : Vec3f F) : Vec3f F -> nat -> Vec3f F -> Prop :=
| reaches_here (p : Vec3f F) : reaches sdf dir p 0 p
| reaches_next (p : Vec3f F) (d : F) (k : nat) (q : Vec3f F) :
    returns (fun fuel => sdf fuel p) d ->
    fltb d (fromZ 0) = false ->
    reaches sdf dir
      (vadd p (vscale dir (std_max (fmul d (dec 1 10)) (dec 1 100)))) k q ->
    reaches sdf dir p (S k) q.

(** A point of binary32 whose coordinates are finite and at most [2^24] in
    magnitude. *)
Definition tame (p : Vec3f B32.float32) : bool :=
  B32.finite32 (vx p) && SFleb (SFabs (vx p)) B32.c24 &&
  B32.finite32 (vy p) && SFleb (SFabs (vy p)) B32.c24 &&
  B32.finite32 (vz p) && SFleb (SFabs (vz p)) B32.c24.


(** The float [11836336 * 2^-26], about 0.1764, a value of [tan (fov / 2)],
    and the float [1 + 2^-23], the successor of [1.0f]. *)
Definition steep : B32.float32 := S754_finite false 11836336 (-26).
Definition above_one : B32.float32 := S754_finite false 8388609 (-23).
(** ** Facts that hold in every arithmetic *)

Section Generic.
Context {F : Type} `{Scalar F}.

(** More fuel never changes a result. *)
Lemma mod_float_fuel_mono (n m : nat) (f v r : F) :
  mod_float n f v = Some r -> n <= m -> mod_float m f v = Some r.
Proof.
  revert m f. induction n as [|n IH]; intros m f Hr Hle; [discriminate|].
  destruct m as [|m]; [lia|]. simpl in *.
  destruct (fltb f (fromZ 0)); [apply IH; [assumption|lia]|].
  destruct (fleb v f); [apply IH; [assumption|lia]|assumption].
Qed.

(** A returned value has passed both guards of [mod]. *)
Lemma mod_float_guards (n : nat) (f v r : F) :
  mod_float n f v = Some r ->
  fltb r (fromZ 0) = false /\ fleb v r = false.
Proof.
  revert f. induction n as [|n IH]; intros f Hr; [discriminate|].
  simpl in Hr.
  destruct (fltb f (fromZ 0)) eqn:Hlt; [eauto|].
  destruct (fleb v f) eqn:Hge; [eauto|].
  injection Hr as <-. auto.
Qed.

(** The loop of the tracers: at most [steps] evaluations, and the result is
    a miss exactly when no evaluation was negative. *)
Lemma march_budget (sdf : Vec3f F -> option F) (steps : nat)
    (dir p : Vec3f F) (r : TraceResult F) :
  march sdf steps dir p = Some r ->
  length (evals r) <= steps /\
  (hit r = false <-> Forall (fun d => fltb d (fromZ 0) = false) (evals r)).
Proof.
  revert p r. induction steps as [|k IH]; intros p r Hr; simpl in Hr.
  - injection Hr as <-. simpl. split; [lia|]. split; auto.
  - destruct (sdf p) as [d|]; [simpl in Hr|discriminate].
    destruct (fltb d (fromZ 0)) eqn:Hd.
    + injection Hr as <-. simpl. split; [lia|].
      split; [discriminate|].
      intros Hall. apply Forall_cons_1 in Hall as [Hd' _]. congruence.
    + destruct (march sdf k dir _) as [r'|] eqn:Hk; [simpl in Hr|discriminate].
      injection Hr as <-. simpl. apply IH in Hk as [Hlen Hhit].
      split; [lia|]. rewrite Hhit. split.
      * intros Hall. constructor; assumption.
      * intros Hall. apply Forall_cons_1 in Hall. tauto.
Qed.

(** A miss has used the whole budget. *)
Lemma march_miss_length (sdf : Vec3f F -> option F) (steps : nat)
    (dir p : Vec3f F) (r : TraceResult F) :
  march sdf steps dir p = Some r -> hit r = false ->
  length (evals r) = steps.
Proof.
  revert p r. induction steps as [|k IH]; intros p r Hr Hmiss; simpl in Hr.
  - injection Hr as <-. reflexivity.
  - destruct (sdf p) as [d|]; [simpl in Hr|discriminate].
    destruct (fltb d (fromZ 0)).
    + injection Hr as <-. discriminate.
    + destruct (march sdf k dir _) as [r'|] eqn:Hk; [simpl in Hr|discriminate].
      injection Hr as <-. simpl in *. f_equal. eauto.
Qed.

(** Around a distance function that always returns, the loop returns. *)
Lemma march_total (g : Vec3f F -> F) (steps : nat) (dir p : Vec3f F) :
  exists r, march (fun q => Some (g q)) steps dir p = Some r.
Proof.
  revert p. induction steps as [|k IH]; intros p; simpl; [eauto|].
  destruct (fltb (g p) (fromZ 0)); [eauto|].
  destruct (IH (vadd p (vscale dir
              (std_max (fmul (g p) (dec 1 10)) (dec 1 100))))) as [r ->].
  simpl. eauto.
Qed.

(** Around a fuelled distance function that returns at every point, the
    loop returns. *)
Lemma march_returns (sdf : nat -> Vec3f F -> option F) (g : Vec3f F -> F)
    (steps : nat) (dir : Vec3f F) :
  (forall p, returns (fun fuel => sdf fuel p) (g p)) ->
  forall p, exists r, returns (fun fuel => march (sdf fuel) steps dir p) r.
Proof.
  intros Hsdf. induction steps as [|k IH]; intros p.
  - exists (mkTrace false p []), 0. reflexivity.
  - destruct (Hsdf p) as [n0 Hn0].
    destruct (fltb (g p) (fromZ 0)) eqn:Hd.
    + exists (mkTrace true p [g p]), n0. intros fuel Hfuel.
      simpl. rewrite Hn0 by exact Hfuel. simpl. rewrite Hd. reflexivity.
    + destruct (IH (vadd p (vscale dir
                  (std_max (fmul (g p) (dec 1 10)) (dec 1 100)))))
        as (r & n1 & Hn1).
      exists (mkTrace (hit r) (pos r) (g p :: evals r)), (n0 `max` n1).
      intros fuel Hfuel. simpl. rewrite Hn0 by lia. simpl. rewrite Hd.
      rewrite Hn1 by lia. reflexivity.
Qed.

(** One iteration of the loop of the tracers. *)
Lemma march_S (sdf : Vec3f F -> option F) (k : nat) (dir p : Vec3f F) :
  march sdf (S k) dir p
  = match sdf p with
    | None => None
    | Some d =>
        if fltb d (fromZ 0) then Some (mkTrace true p [d])
        else match march sdf k dir
                     (vadd p (vscale dir
                                (std_max (fmul d (dec 1 10)) (dec 1 100)))) with
             | None => None
             | Some r => Some (mkTrace (hit r) (pos r) (d :: evals r))
             end
    end.
Proof.
  simpl. destruct (sdf p) as [d|]; [simpl|reflexivity].
  destruct (fltb d (fromZ 0)); [reflexivity|].
  destruct (march sdf k dir _); reflexivity.
Qed.

(** More fuel never changes a result of the distance to the repeated
    sphere, nor of a loop around a fuelled distance function. *)
Lemma mod_vec_fuel_mono (n m : nat) (p : Vec3f F) (v : F) (r : Vec3f F) :
  mod_vec n p v = Some r -> n <= m -> mod_vec m p v = Some r.
Proof.
  unfold mod_vec. intros Hr Hle.
  destruct (mod_float n (vx p) v) as [x|] eqn:Hx; [|discriminate].
  destruct (mod_float n (vy p) v) as [y|] eqn:Hy; [|discriminate].
  destruct (mod_float n (vz p) v) as [z|] eqn:Hz; [|discriminate].
  rewrite (mod_float_fuel_mono _ _ _ _ _ Hx Hle),
    (mod_float_fuel_mono _ _ _ _ _ Hy Hle),
    (mod_float_fuel_mono _ _ _ _ _ Hz Hle).
  exact Hr.
Qed.

Lemma sphere_signed_distance_fuel_mono (n m : nat) (p : Vec3f F) (d : F) :
  n <= m -> sphere_signed_distance n p = Some d ->
  sphere_signed_distance m p = Some d.
Proof.
  unfold sphere_signed_distance. intros Hle Hd.
  destruct (mod_vec n p (fromZ 1)) as [q|] eqn:Hq; [|discriminate].
  rewrite (mod_vec_fuel_mono _ _ _ _ _ Hq Hle). exact Hd.
Qed.

Section Fuelled.
Variable sdf : nat -> Vec3f F -> option F.
Hypothesis sdf_mono :
  forall n m p d, n <= m -> sdf n p = Some d -> sdf m p = Some d.

Lemma march_fuel_mono (n m steps : nat) (dir p : Vec3f F)
    (r : TraceResult F) :
  n <= m -> march (sdf n) steps dir p = Some r ->
  march (sdf m) steps dir p = Some r.
Proof.
  intros Hle. revert p r. induction steps as [|k IH]; intros p r Hr.
  - exact Hr.
  - rewrite march_S in *.
    destruct (sdf n p) as [d|] eqn:Hd; [|discriminate].
    rewrite (sdf_mono _ _ _ _ Hle Hd).
    destruct (fltb d (fromZ 0)); [exact Hr|].
    destruct (march (sdf n) k dir _) as [r'|] eqn:Hk; [|discriminate].
    rewrite (IH _ _ Hk). exact Hr.
Qed.

Lemma sdf_returns_of_some (n : nat) (p : Vec3f F) (d : F) :
  sdf n p = Some d -> returns (fun fuel => sdf fuel p) d.
Proof. intros Hd. exists n. intros fuel Hfuel. eauto. Qed.

Lemma march_returns_of_some (n steps : nat) (dir p : Vec3f F)
    (r : TraceResult F) :
  march (sdf n) steps dir p = Some r ->
  returns (fun fuel => march (sdf fuel) steps dir p) r.
Proof.
  intros Hr. exists n. intros fuel Hfuel.
  exact (march_fuel_mono _ _ _ _ _ _ Hfuel Hr).
Qed.

(** The loop returns exactly when every evaluation of the distance
    function that it makes returns. *)
Lemma march_returns_iff (steps : nat) (dir p : Vec3f F) :
  (forall k q, k < steps -> reaches sdf dir p k q ->
               exists d, returns (fun fuel => sdf fuel q) d) <->
  (exists r, returns (fun fuel => march (sdf fuel) steps dir p) r).
Proof.
  split.
  - revert p. induction steps as [|s IH]; intros p Hall.
    + exists (mkTrace false p []), 0. reflexivity.
    + destruct (Hall 0 p ltac:(lia) (reaches_here sdf dir p)) as (d & n0 & Hd).
      destruct (fltb d (fromZ 0)) eqn:Hneg.
      * exists (mkTrace true p [d]), n0. intros fuel Hfuel.
        rewrite march_S, (Hd fuel Hfuel), Hneg. reflexivity.
      * destruct (IH (vadd p (vscale dir
                        (std_max (fmul d (dec 1 10)) (dec 1 100)))))
          as (r & n1 & Hr).
        { intros k q Hk Hq. apply (Hall (S k) q); [lia|].
          apply (reaches_next sdf dir p d k q); [|exact Hneg|exact Hq].
          exists n0. exact Hd. }
        exists (mkTrace (hit r) (pos r) (d :: evals r)), (n0 `max` n1).
        intros fuel Hfuel.
        rewrite march_S, (Hd fuel ltac:(lia)), Hneg, (Hr fuel ltac:(lia)).
        reflexivity.
  - intros (r & n & Hr) k q Hk Hq. revert steps r n Hr Hk.
    induction Hq as [p|p d k q (n1 & Hd) Hneg Hq IH]; intros steps r n Hr Hk;
      (destruct steps as [|s]; [lia|]).
    + specialize (Hr n (le_n n)). rewrite march_S in Hr.
      destruct (sdf n p) as [d|] eqn:Hd; [|discriminate].
      exists d. exact (sdf_returns_of_some _ _ _ Hd).
    + specialize (Hr (n `max` n1) ltac:(lia)). rewrite march_S in Hr.
      rewrite (Hd (n `max` n1) ltac:(lia)), Hneg in Hr.
      destruct (march (sdf (n `max` n1)) s dir _) as [r'|] eqn:Hk';
        [|discriminate].
      apply (IH s r' (n `max` n1)); [|lia].
      intros fuel Hfuel. exact (march_fuel_mono _ _ _ _ _ _ Hfuel Hk').
Qed.

End Fuelled.

(** *** The render loop *)

(** A counted loop whose body always succeeds is a left fold. *)
Lemma for_from_foldl {St : Type} (body : nat -> St -> option St)
    (g : St -> nat -> St) (from n : nat) (s : St) :
  (forall i s', body i s' = Some (g s' i)) ->
  for_from body from n s = Some (foldl g s (seq from n)).
Proof.
  intros Hbody. revert from s. induction n as [|n IH]; intros from s; simpl.
  - reflexivity.
  - rewrite Hbody. simpl. apply IH.
Qed.

Lemma foldl_flat_map {A B C : Type} (f : A -> B -> A) (g : C -> list B)
    (a : A) (l : list C) :
  foldl f a (flat_map g l) = foldl (fun a' c => foldl f a' (g c)) a l.
Proof.
  revert a. induction l as [|c l IH]; intros a; simpl; [reflexivity|].
  rewrite foldl_app. apply IH.
Qed.

Section Render.
Variables (fuel : nat) (tan_half_fov : F) (width height : nat).

(** With [calcSphere = false] and [calcBox = true] the sphere tracer is
    never called and the pixel gets the colour of the box scene. *)
Lemma pixel_color_box (i j : nat) :
  exists b, box_trace eye_box (pixel_dir tan_half_fov width height i j)
            = Some b /\
            pixel_color fuel tan_half_fov width height i j
            = Some (if hit b then shade_box (pos b) else background).
Proof.
  destruct (march_total box_signed_distance ray_steps
              (pixel_dir tan_half_fov width height i j) eye_box) as [b Hb].
  exists b. split; [exact Hb|].
  unfold pixel_color, calcSphere, calcBox. simpl.
  unfold box_trace. rewrite Hb. simpl. destruct (hit b); reflexivity.
Qed.

Lemma pixel_color_box_pixel (i j : nat) :
  pixel_color fuel tan_half_fov width height i j
  = Some (box_pixel tan_half_fov width height (i, j)).
Proof.
  destruct (pixel_color_box i j) as (b & Hb & ->).
  unfold box_pixel. simpl. rewrite Hb. reflexivity.
Qed.

Lemma pixel_step_paint (j i : nat) (cv : Canvas F) :
  pixel_step fuel tan_half_fov width height j i cv
  = Some (paint_pixel tan_half_fov width height cv (i, j)).
Proof.
  unfold pixel_step. rewrite pixel_color_box_pixel. reflexivity.
Qed.

Lemma render_in_order_paint (sched : list (nat * nat)) (cv : Canvas F) :
  render_in_order fuel tan_half_fov width height sched cv
  = Some (paint tan_half_fov width height cv sched).
Proof.
  revert cv. induction sched as [|[i j] rest IH]; intros cv; simpl.
  - reflexivity.
  - rewrite pixel_step_paint. simpl. apply IH.
Qed.

Lemma render_row_paint (j : nat) (cv : Canvas F) :
  render_row fuel tan_half_fov width height j cv
  = Some (paint tan_half_fov width height cv
            ((fun i => (i, j)) <$> seq 0 width)).
Proof.
  unfold render_row.
  rewrite (for_from_foldl _
             (fun cv' i => paint_pixel tan_half_fov width height cv' (i, j)))
    by (intros; apply pixel_step_paint).
  unfold paint. f_equal. generalize (seq 0 width). intros l. revert cv.
  induction l as [|i l IH]; intros cv; simpl; [reflexivity|apply IH].
Qed.

(** The sequential loop nest paints the pixels in row-major order. *)
Lemma render_paint :
  render fuel tan_half_fov width height
  = Some (paint tan_half_fov width height (blank width height)
            (pixels width height)).
Proof.
  unfold render.
  rewrite (for_from_foldl _
             (fun cv j => paint tan_half_fov width height cv
                            ((fun i => (i, j)) <$> seq 0 width)))
    by (intros; apply render_row_paint).
  unfold paint at 2, pixels. rewrite foldl_flat_map. reflexivity.
Qed.

Lemma paint_cons (ij : nat * nat) (rest : list (nat * nat)) (cv : Canvas F) :
  paint tan_half_fov width height cv (ij :: rest)
  = paint tan_half_fov width height
      (paint_pixel tan_half_fov width height cv ij) rest.
Proof. reflexivity. Qed.

(** What [paint] does to the canvas. *)
Lemma paint_written (sched : list (nat * nat)) (cv : Canvas F) :
  written (paint tan_half_fov width height cv sched)
  = written cv ++ (pixel_index width <$> sched).
Proof.
  revert cv. induction sched as [|ij rest IH]; intros cv.
  - simpl. rewrite app_nil_r. reflexivity.
  - rewrite paint_cons, IH. simpl. rewrite <- app_assoc. reflexivity.
Qed.

Lemma paint_length (sched : list (nat * nat)) (cv : Canvas F) :
  length (framebuffer (paint tan_half_fov width height cv sched))
  = length (framebuffer cv).
Proof.
  revert cv. induction sched as [|ij rest IH]; intros cv.
  - reflexivity.
  - rewrite paint_cons, IH. simpl. apply length_insert.
Qed.

Lemma paint_lookup_other (sched : list (nat * nat)) (cv : Canvas F) (k : nat) :
  k ∉ (pixel_index width <$> sched) ->
  framebuffer (paint tan_half_fov width height cv sched) !! k
  = framebuffer cv !! k.
Proof.
  revert cv. induction sched as [|ij rest IH]; intros cv Hk.
  - reflexivity.
  - simpl in Hk. apply not_elem_of_cons in Hk as [Hne Hk].
    rewrite paint_cons, IH by exact Hk. simpl.
    apply list_lookup_insert_ne. congruence.
Qed.

Lemma paint_lookup_in (sched : list (nat * nat)) (cv : Canvas F)
    (ij : nat * nat) :
  NoDup ((pixel_index width <$> sched)) -> ij ∈ sched ->
  pixel_index width ij < length (framebuffer cv) ->
  framebuffer (paint tan_half_fov width height cv sched)
    !! pixel_index width ij
  = Some (box_pixel tan_half_fov width height ij).
Proof.
  revert cv. induction sched as [|x rest IH]; intros cv Hnd Hin Hlen.
  - inversion Hin.
  - simpl in Hnd. apply NoDup_cons in Hnd as [Hx Hnd].
    rewrite paint_cons.
    destruct (decide (pixel_index width ij ∈ (pixel_index width <$> rest)))
      as [Hrest|Hrest].
    + apply elem_of_cons in Hin as [->|Hin]; [contradiction|].
      apply IH; [exact Hnd|exact Hin|].
      simpl. rewrite length_insert. exact Hlen.
    + rewrite paint_lookup_other by exact Hrest.
      apply elem_of_cons in Hin as [->|Hin].
      * simpl. apply list_lookup_insert_eq. exact Hlen.
      * exfalso. apply Hrest. apply list_elem_of_fmap_2. exact Hin.
Qed.

End Render.

(** The indices of the pixels, in loop order, are [0, 1, ..., w * h - 1]. *)
Lemma pixel_index_pixels (w h : nat) :
  pixel_index w <$> pixels w h = seq 0 (w * h).
Proof.
  unfold pixels. induction h as [|h IH].
  - rewrite Nat.mul_0_r. reflexivity.
  - rewrite seq_S, flat_map_app, fmap_app, IH. simpl.
    rewrite app_nil_r, <- list_fmap_compose. unfold pixel_index. simpl.
    replace (w * S h) with (w * h + w) by lia. rewrite seq_app. f_equal.
    rewrite Nat.add_comm, <- (fmap_add_seq (w * h) 0 w). apply list_fmap_ext.
    intros _ i _. simpl. lia.
Qed.

Lemma pixels_in (w h : nat) (ij : nat * nat) :
  ij ∈ pixels w h <-> ij.1 < w /\ ij.2 < h.
Proof.
  unfold pixels. rewrite list_elem_of_In, in_flat_map. split.
  - intros (j & Hj & Hi). apply list_elem_of_In in Hj, Hi.
    apply list_elem_of_fmap in Hi as (i & -> & Hi).
    apply elem_of_seq in Hj, Hi. simpl. lia.
  - intros [Hi Hj]. exists ij.2. split; apply list_elem_of_In.
    + apply elem_of_seq. lia.
    + apply list_elem_of_fmap. exists ij.1. split.
      * destruct ij; reflexivity.
      * apply elem_of_seq. lia.
Qed.

Lemma pixel_index_bound (w h : nat) (ij : nat * nat) :
  ij.1 < w -> ij.2 < h -> pixel_index w ij < w * h.
Proof. unfold pixel_index. nia. Qed.

Lemma blank_length (w h : nat) : length (framebuffer (blank w h)) = w * h.
Proof. simpl. apply length_replicate. Qed.

(** Painting a permutation of the pixels of the image gives, at every
    pixel, the colour of that pixel. *)
Lemma paint_permutation_lookup (tan_half_fov : F) (w h : nat)
    (sched : list (nat * nat)) (ij : nat * nat) :
  sched ≡ₚ pixels w h -> ij.1 < w -> ij.2 < h ->
  framebuffer (paint tan_half_fov w h (blank w h) sched) !! pixel_index w ij
  = Some (box_pixel tan_half_fov w h ij).
Proof.
  intros Hperm Hi Hj. apply paint_lookup_in.
  - rewrite Hperm, pixel_index_pixels. apply NoDup_seq.
  - rewrite Hperm. apply pixels_in. auto.
  - rewrite blank_length. apply pixel_index_bound; assumption.
Qed.

Lemma paint_permutation (tan_half_fov : F) (w h : nat)
    (sched : list (nat * nat)) :
  sched ≡ₚ pixels w h ->
  framebuffer (paint tan_half_fov w h (blank w h) sched)
  = framebuffer (paint tan_half_fov w h (blank w h) (pixels w h)).
Proof.
  intros Hperm. apply list_eq. intros k.
  destruct (decide (k ∈ pixel_index w <$> pixels w h)) as [Hin|Hout].
  - apply list_elem_of_fmap in Hin as (ij & -> & Hin).
    apply pixels_in in Hin as [Hi Hj].
    rewrite !paint_permutation_lookup by auto. reflexivity.
  - rewrite !paint_lookup_other; [reflexivity|exact Hout|].
    rewrite Hperm. exact Hout.
Qed.


(** C8. Totality with fixed background: for every image size the render
    loop returns (no error path), the framebuffer has [width * height]
    entries, the indices written are [0, 1, ..., width * height - 1] in this
    order, so that every pixel [(i, j)] with [i < width] and [j < height],
    whose index is [i + j * width], is written exactly once; and the colour
    stored there is the shaded colour when the box tracer reports a hit and
    the fixed colour [(0.2, 0.7, 0.8)] when it reports a miss. *)
Theorem render_writes_every_pixel_once (fuel : nat) (tan_half_fov : F)
    (w h : nat) :
  exists cv,
    render fuel tan_half_fov w h = Some cv /\
    length (framebuffer cv) = w * h /\
    written cv = seq 0 (w * h) /\
    forall i j, i < w -> j < h ->
      exists b,
        box_trace eye_box (pixel_dir tan_half_fov w h i j) = Some b /\
        framebuffer cv !! (i + j * w)
        = Some (if hit b then shade_box (pos b)
                else mkVec3f (dec 2 10) (dec 7 10) (dec 8 10)).
Proof.
  exists (paint tan_half_fov w h (blank w h) (pixels w h)).
  split; [apply render_paint|]. split; [|split].
  - rewrite paint_length. apply blank_length.
  - rewrite paint_written, pixel_index_pixels. reflexivity.
  - intros i j Hi Hj.
    destruct (pixel_color_box fuel tan_half_fov w h i j) as (b & Hb & Hc).
    exists b. split; [exact Hb|].
    change (i + j * w) with (pixel_index w (i, j)).
    rewrite paint_permutation_lookup by (simpl; auto).
    rewrite pixel_color_box_pixel in Hc. exact Hc.
Qed.

(** C9. Determinism: the framebuffer is a function of the inputs alone,
    each entry being the value of [pixel_color] at its own index [(i, j)];
    and running the loop body over the pixels in any order (any
    distribution of the iterations over worker threads is such an order)
    produces the framebuffer of the sequential loop. *)
Theorem render_schedule_independent (fuel : nat) (tan_half_fov : F)
    (w h : nat) (sched : list (nat * nat)) :
  sched ≡ₚ pixels w h ->
  exists cv cv',
    render fuel tan_half_fov w h = Some cv /\
    render_in_order fuel tan_half_fov w h sched (blank w h) = Some cv' /\
    framebuffer cv' = framebuffer cv /\
    forall i j, i < w -> j < h ->
      framebuffer cv !! (i + j * w) = pixel_color fuel tan_half_fov w h i j.
Proof.
  intros Hperm.
  exists (paint tan_half_fov w h (blank w h) (pixels w h)),
         (paint tan_half_fov w h (blank w h) sched).
  split; [apply render_paint|]. split; [apply render_in_order_paint|].
  split; [apply paint_permutation; exact Hperm|].
  intros i j Hi Hj. rewrite pixel_color_box_pixel.
  change (i + j * w) with (pixel_index w (i, j)).
  apply paint_permutation_lookup; simpl; auto.
Qed.

End Generic.

Lemma render_schedule_independent_witness :
  reverse (pixels 2 2) ≡ₚ pixels 2 2 /\
  exists cv cv' : Canvas B32.float32,
    render 0 (dec 57735 100000) 2 2 = Some cv /\
    render_in_order 0 (dec 57735 100000) 2 2 (reverse (pixels 2 2))
      (blank 2 2) = Some cv' /\
    framebuffer cv' = framebuffer cv /\
    forall i j, i < 2 -> j < 2 ->
      framebuffer cv !! (i + j * 2)
      = pixel_color 0 (dec 57735 100000) 2 2 i j.
Proof.
  split; [apply reverse_Permutation|].
  apply (render_schedule_independent 0 (dec 57735 100000) 2 2
           (reverse (pixels 2 2))).
  apply reverse_Permutation.
Defined.

(** ** binary32 arithmetic

    The standard library specifies the operations of [SpecFloat] but proves
    nothing about them.  This section relates the few operations that [mod]
    uses (comparison with 0 and 1, [f + 1] and [f - 1]) to the integer
    [val f], the value of [f] in units of [2^-149]. *)

Section Binary32.
Import B32.
Local Open Scope Z_scope.

Lemma digits2_pos_bounds (p : positive) :
  2 ^ (Zpos (digits2_pos p) - 1) <= Zpos p < 2 ^ Zpos (digits2_pos p).
Proof.
  induction p as [p IH|p IH|]; simpl digits2_pos; [| |simpl; lia];
    set (D := Zpos (digits2_pos p)) in *;
    assert (E : 2 ^ D = 2 * 2 ^ (D - 1))
      by (rewrite <- Z.pow_succ_r by (unfold D; lia); f_equal; lia);
    rewrite Pos2Z.inj_succ; fold D;
    replace (Z.succ D - 1) with D by lia;
    rewrite Z.pow_succ_r by (unfold D; lia); lia.
Qed.

Lemma digits2_pos_unique (p : positive) (d : Z) :
  2 ^ (d - 1) <= Zpos p < 2 ^ d -> Zpos (digits2_pos p) = d.
Proof.
  intros [Hlo Hhi]. pose proof (digits2_pos_bounds p) as [Hlo' Hhi'].
  assert (0 < d) as Hd.
  { destruct (Z.le_gt_cases d 0) as [Hd|Hd]; [exfalso|lia].
    destruct (Z.eq_dec d 0) as [->|Hne]; [simpl in Hhi; lia|].
    rewrite Z.pow_neg_r in Hhi by lia. lia. }
  destruct (Z.lt_trichotomy (Zpos (digits2_pos p)) d) as [Hlt|[Heq|Hgt]]; [|assumption|].
  - assert (2 ^ Zpos (digits2_pos p) <= 2 ^ (d - 1)) by (apply Z.pow_le_mono_r; lia). lia.
  - assert (2 ^ d <= 2 ^ (Zpos (digits2_pos p) - 1)) by (apply Z.pow_le_mono_r; lia). lia.
Qed.

Lemma iter_xO_pow (m k : positive) : Zpos (Pos.iter xO m k) = Zpos m * 2 ^ Zpos k.
Proof.
  induction k as [|k IH] using Pos.peano_ind.
  - simpl. lia.
  - rewrite Pos.iter_succ, Pos2Z.inj_xO, IH, Pos2Z.inj_succ, Z.pow_succ_r by lia. lia.
Qed.

(** shifting right *)
Lemma shr_1_m (mrs : shr_record) : 0 <= shr_m mrs -> shr_m (shr_1 mrs) = shr_m mrs / 2.
Proof.
  destruct mrs as [m r s]. simpl. intros Hm. rewrite <- Z.div2_div.
  destruct m as [|[p|p|]|p]; try reflexivity; lia.
Qed.

Lemma pow2_xO (n : positive) : 2 ^ Zpos n~0 = 2 ^ Zpos n * 2 ^ Zpos n.
Proof.
  replace (Zpos n~0) with (Zpos n + Zpos n) by lia.
  apply Z.pow_add_r; lia.
Qed.

Lemma pow2_xI (n : positive) : 2 ^ Zpos n~1 = 2 * (2 ^ Zpos n * 2 ^ Zpos n).
Proof.
  replace (Zpos n~1) with (Z.succ (Zpos n + Zpos n)) by lia.
  rewrite Z.pow_succ_r, Z.pow_add_r by lia. reflexivity.
Qed.

Lemma pow2_pos (n : positive) : 0 < 2 ^ Zpos n.
Proof. apply Z.pow_pos_nonneg; lia. Qed.

Lemma iter_pos_shr_m (n : positive) (mrs : shr_record) :
  0 <= shr_m mrs -> shr_m (SpecFloat.iter_pos shr_1 n mrs) = shr_m mrs / 2 ^ Zpos n.
Proof.
  revert mrs. induction n as [n IH|n IH|]; intros mrs Hm; cbn [SpecFloat.iter_pos].
  - pose proof (pow2_pos n) as Hp.
    assert (0 <= shr_m (shr_1 mrs))
      by (rewrite shr_1_m by lia; apply Z.div_pos; lia).
    assert (0 <= shr_m (SpecFloat.iter_pos shr_1 n (shr_1 mrs)))
      by (rewrite IH by lia; apply Z.div_pos; lia).
    rewrite IH, IH, shr_1_m, pow2_xI by lia.
    rewrite !Z.div_div by lia. reflexivity.
  - pose proof (pow2_pos n) as Hp.
    assert (0 <= shr_m (SpecFloat.iter_pos shr_1 n mrs))
      by (rewrite IH by lia; apply Z.div_pos; lia).
    rewrite IH, IH, pow2_xO by lia.
    rewrite !Z.div_div by lia. reflexivity.
  - rewrite shr_1_m by lia. reflexivity.
Qed.

Lemma shr_1_exact (m : Z) : 0 <= m -> m mod 2 = 0 ->
  shr_1 (Build_shr_record m false false) = Build_shr_record (m / 2) false false.
Proof.
  intros Hm Hmod. rewrite <- Z.div2_div.
  destruct m as [|[p|p|]|p]; try reflexivity; try lia.
  - exfalso. rewrite Pos2Z.inj_xI in Hmod.
    rewrite Z.add_comm, Z.mul_comm, Z.mod_add in Hmod by lia. discriminate.
  - discriminate.
Qed.

Lemma iter_pos_shr_exact (n : positive) (m : Z) :
  0 <= m -> m mod 2 ^ Zpos n = 0 ->
  SpecFloat.iter_pos shr_1 n (Build_shr_record m false false)
  = Build_shr_record (m / 2 ^ Zpos n) false false.
Proof.
  revert m. induction n as [n IH|n IH|]; intros m Hm Hmod; cbn [SpecFloat.iter_pos].
  - pose proof (pow2_pos n) as Hp. rewrite pow2_xI in *.
    set (P := 2 ^ Zpos n) in *.
    apply Z.mod_divide in Hmod; [|lia]. destruct Hmod as [c Hc].
    assert (m / 2 = c * P * P) as E1
      by (symmetry; apply Z.div_unique with 0; lia).
    assert (c * P * P / P = c * P) as E2 by (apply Z.div_mul; lia).
    assert (c * P / P = c) as E3 by (apply Z.div_mul; lia).
    assert (m / (2 * (P * P)) = c) as E4
      by (symmetry; apply Z.div_unique with 0; nia).
    rewrite shr_1_exact, E1;
      [|lia|subst m; replace (c * (2 * (P * P))) with (c * P * P * 2) by lia;
            apply Z.mod_mul; lia].
    rewrite IH, E2; [|nia|apply Z.mod_mul; lia].
    rewrite IH, E3, E4; [reflexivity|nia|apply Z.mod_mul; lia].
  - pose proof (pow2_pos n) as Hp. rewrite pow2_xO in *.
    set (P := 2 ^ Zpos n) in *.
    apply Z.mod_divide in Hmod; [|lia]. destruct Hmod as [c Hc].
    assert (m / P = c * P) as E2
      by (subst m; rewrite Z.mul_assoc; apply Z.div_mul; lia).
    assert (c * P / P = c) as E3 by (apply Z.div_mul; lia).
    assert (m / (P * P) = c) as E4 by (subst m; apply Z.div_mul; lia).
    rewrite IH, E2; [|lia|subst m; rewrite Z.mul_assoc; apply Z.mod_mul; lia].
    rewrite IH, E3, E4; [reflexivity|nia|apply Z.mod_mul; lia].
  - apply shr_1_exact; assumption.
Qed.

Lemma fexp_eq (x : Z) : fexp prec emax x = Z.max (x - 24) (-149).
Proof. reflexivity. Qed.

Lemma bounded_inv (m : positive) (e : Z) :
  bounded prec emax m e = true ->
  -149 <= e <= 104 /\ Zpos m < 2 ^ 24 /\ (e = -149 \/ 2 ^ 23 <= Zpos m).
Proof.
  unfold bounded, canonical_mantissa. rewrite andb_true_iff, Z.eqb_eq, Z.leb_le, fexp_eq.
  intros [Hc He]. change (emax - prec) with 104 in He.
  pose proof (digits2_pos_bounds m) as [Hlo Hhi].
  set (d := Zpos (digits2_pos m)) in *.
  assert (d <= 24) by lia.
  split; [lia|]. split.
  - assert (2 ^ d <= 2 ^ 24) by (apply Z.pow_le_mono_r; lia). lia.
  - destruct (Z.eq_dec e (-149)); [left; assumption|right].
    assert (d = 24) as Hd by lia. rewrite Hd in Hlo. exact Hlo.
Qed.

Lemma bounded_intro (m : positive) (e : Z) :
  -149 <= e <= 104 -> Zpos m < 2 ^ 24 -> (e = -149 \/ 2 ^ 23 <= Zpos m) ->
  bounded prec emax m e = true.
Proof.
  intros He Hm Hc. unfold bounded, canonical_mantissa.
  rewrite andb_true_iff, Z.eqb_eq, Z.leb_le, fexp_eq.
  change (emax - prec) with 104. split; [|lia].
  pose proof (digits2_pos_bounds m) as [Hlo Hhi].
  set (d := Zpos (digits2_pos m)) in *.
  assert (d <= 24).
  { destruct (Z.le_gt_cases d 24); [assumption|].
    assert (2 ^ 24 <= 2 ^ (d - 1)) by (apply Z.pow_le_mono_r; lia). lia. }
  destruct Hc as [->|Hc]; [lia|].
  assert (24 <= d).
  { destruct (Z.le_gt_cases 24 d); [assumption|].
    assert (2 ^ d <= 2 ^ 23) by (apply Z.pow_le_mono_r; unfold d; lia). lia. }
  lia.
Qed.

Lemma finish_spec (s : bool) (m1 e1 : Z) :
  0 <= m1 <= 2 ^ 24 -> -149 <= e1 <= 103 -> (e1 = -149 \/ 2 ^ 23 <= m1) ->
  finite32 (finish s m1 e1) = true /\ has_sign s (finish s m1 e1) /\
  mag (finish s m1 e1) = m1 * 2 ^ (e1 + 149).
Proof.
  intros Hm He Hc. unfold finish, shr_fexp.
  destruct m1 as [|p|p]; [| |lia].
  - (* zero *)
    cbn [Zdigits2 shr_record_of_loc]. rewrite fexp_eq.
    replace (Z.max (0 + e1 - 24) (-149) - e1) with (- (e1 + 149)) by lia.
    destruct (e1 + 149) eqn:E; try lia; simpl; auto.
  - cbn [Zdigits2 shr_record_of_loc]. rewrite fexp_eq.
    pose proof (digits2_pos_bounds p) as [Hlo Hhi].
    set (d := Zpos (digits2_pos p)) in *.
    destruct (Z.eq_dec (Zpos p) (2 ^ 24)) as [E|NE].
    + (* carry: 2^24 becomes 2^23 at the next exponent *)
      assert (d = 25) as ->
        by (apply digits2_pos_unique; rewrite E; simpl; lia).
      replace (Z.max (25 + e1 - 24) (-149) - e1) with 1 by lia.
      assert (p = 16777216%positive) as ->
        by (apply Pos2Z.inj; rewrite E; reflexivity).
      cbn [shr SpecFloat.iter_pos shr_1 shr_m].
      replace (e1 + 1 <=? emax - prec) with true
        by (symmetry; apply Z.leb_le; change (emax - prec) with 104; lia).
      split; [|split].
      * apply bounded_intro; simpl; lia.
      * reflexivity.
      * cbn [mag]. replace (e1 + 1 + 149) with (Z.succ (e1 + 149)) by lia.
        rewrite Z.pow_succ_r by lia. lia.
    + assert (d <= 24).
      { destruct (Z.le_gt_cases d 24); [assumption|].
        assert (2 ^ 24 <= 2 ^ (d - 1)) by (apply Z.pow_le_mono_r; lia). lia. }
      assert (Z.max (d + e1 - 24) (-149) - e1 <= 0) by lia.
      destruct (Z.max (d + e1 - 24) (-149) - e1) eqn:E; try lia;
        cbn [shr shr_m];
        (replace (e1 <=? emax - prec) with true
          by (symmetry; apply Z.leb_le; change (emax - prec) with 104; lia));
        (split; [apply bounded_intro; lia|split; reflexivity]).
Qed.

Lemma round_nearest_even_bounds (q : Z) (l : location) :
  q <= round_nearest_even q l <= q + 1.
Proof.
  destruct l as [|[| |]]; simpl; try lia. destruct (Z.even q); lia.
Qed.

Lemma binary_round_aux_spec (s : bool) (m : positive) (e : Z) :
  let d := Zpos (digits2_pos m) in
  let e1 := Z.max (d + e - 24) (-149) in
  e <= e1 ->
  let n := e1 - e in
  let q := Zpos m / 2 ^ n in
  exists m1, q <= m1 <= q + 1 /\ (Zpos m mod 2 ^ n = 0 -> m1 = q) /\
    binary_round_aux prec emax s (Zpos m) e loc_Exact = finish s m1 e1 /\
    0 <= m1 <= 2 ^ 24 /\ (e1 = -149 \/ 2 ^ 23 <= m1).
Proof.
  intros d e1 Hle n q.
  pose proof (digits2_pos_bounds m) as [Hlo Hhi]. fold d in Hlo, Hhi.
  assert (Hn : 0 <= n) by (unfold n; lia).
  assert (Hpn : 0 < 2 ^ n) by (apply Z.pow_pos_nonneg; lia).
  assert (Hq : 0 <= q < 2 ^ 24).
  { split; [apply Z.div_pos; lia|].
    apply Z.div_lt_upper_bound; [lia|].
    rewrite <- Z.pow_add_r by lia.
    assert (2 ^ d <= 2 ^ (n + 24)) by (apply Z.pow_le_mono_r; unfold n, e1; lia).
    lia. }
  assert (Hq23 : e1 = -149 \/ 2 ^ 23 <= q).
  { destruct (Z.eq_dec e1 (-149)); [left; assumption|right].
    apply Z.div_le_lower_bound; [lia|].
    rewrite <- Z.pow_add_r by lia.
    replace (n + 23) with (d - 1) by (unfold n, e1 in *; lia). exact Hlo. }
  unfold binary_round_aux. unfold shr_fexp at 1.
  cbn [Zdigits2 shr_record_of_loc]. rewrite fexp_eq. fold d. fold e1. fold n.
  destruct n as [|pn|pn] eqn:En; [| |lia].
  - (* no shift *)
    exists (Zpos m). cbn [shr loc_of_shr_record shr_m round_nearest_even].
    assert (q = Zpos m) as Eq by (unfold q; simpl; apply Z.div_1_r).
    replace e1 with e by lia.
    split; [lia|]. split; [intros _; symmetry; exact Eq|].
    split; [reflexivity|]. split; [lia|].
    replace e with e1 by lia. rewrite <- Eq. exact Hq23.
  - cbn [shr].
    set (mrs := SpecFloat.iter_pos shr_1 pn (Build_shr_record (Zpos m) false false)).
    assert (Em : shr_m mrs = q)
      by (unfold mrs; rewrite iter_pos_shr_m by (simpl; lia); reflexivity).
    pose proof (round_nearest_even_bounds (shr_m mrs) (loc_of_shr_record mrs))
      as Hr.
    exists (round_nearest_even (shr_m mrs) (loc_of_shr_record mrs)).
    replace (e + Zpos pn) with e1 by lia.
    rewrite Em in *. split; [exact Hr|]. split; [|split; [reflexivity|split]].
    + intros Hmod. unfold mrs.
      rewrite iter_pos_shr_exact by (simpl; try lia; exact Hmod). reflexivity.
    + lia.
    + destruct Hq23; [left; assumption|right; lia].
Qed.

Lemma shl_align_spec (m : positive) (e e' : Z) :
  e' < e ->
  exists mz, shl_align m e e' = (mz, e') /\ Zpos mz = Zpos m * 2 ^ (e - e').
Proof.
  intros Hlt. unfold shl_align. destruct (e' - e) as [|p|p] eqn:E; try lia.
  exists (Pos.iter xO m p). split; [reflexivity|].
  rewrite iter_xO_pow. f_equal. f_equal. lia.
Qed.

Lemma shl_align_id (m : positive) (e e' : Z) :
  e <= e' -> shl_align m e e' = (m, e).
Proof.
  intros Hle. unfold shl_align. destruct (e' - e) as [|p|p] eqn:E; try lia; reflexivity.
Qed.

(** Rounding a positive integer multiple of a power of two. *)
Lemma binary_round_spec (s : bool) (z : positive) (e : Z) :
  let d := Zpos (digits2_pos z) in
  let e1 := Z.max (d + e - 24) (-149) in
  -149 <= e -> e1 <= 103 ->
  let n := Z.max 0 (e1 - e) in
  let q := Zpos z / 2 ^ n in
  let r := binary_round prec emax s z e in
  finite32 r = true /\ has_sign s r /\
  q * 2 ^ n * 2 ^ (e + 149) <= mag r <= (q + 1) * 2 ^ n * 2 ^ (e + 149) /\
  (Zpos z mod 2 ^ n = 0 -> mag r = Zpos z * 2 ^ (e + 149)).
Proof.
  intros d e1 He Hmax n q r. unfold r, binary_round. rewrite fexp_eq.
  fold d. fold e1.
  pose proof (digits2_pos_bounds z) as [Hlo Hhi]. fold d in Hlo, Hhi.
  assert (Hpe : 0 < 2 ^ (e + 149)) by (apply Z.pow_pos_nonneg; lia).
  destruct (Z.lt_ge_cases e1 e) as [Hlt|Hge].
  - (* the mantissa is shifted left: exact *)
    destruct (shl_align_spec z e e1 Hlt) as (mz & -> & Emz).
    assert (Zpos (digits2_pos mz) = d + (e - e1)) as Edz.
    { apply digits2_pos_unique. rewrite Emz.
      replace (d + (e - e1) - 1) with ((d - 1) + (e - e1)) by lia.
      rewrite !Z.pow_add_r by lia.
      assert (0 < 2 ^ (e - e1)) by (apply Z.pow_pos_nonneg; lia). nia. }
    assert (Z.max (Zpos (digits2_pos mz) + e1 - 24) (-149) = e1) as Ee1
      by (rewrite Edz; unfold e1; lia).
    destruct (binary_round_aux_spec s mz e1) as (m1 & Hm1 & Hex & -> & Hb & Hc);
      rewrite ?Ee1; try lia.
    rewrite Ee1 in Hm1, Hex, Hc.
    replace (e1 - e1) with 0 in * by lia.
    assert (m1 = Zpos mz) as -> by (rewrite Hex by apply Z.mod_1_r; apply Z.div_1_r).
    destruct (finish_spec s (Zpos mz) e1) as (Hf & Hs & Hmag); try lia.
    assert (n = 0) as En by (unfold n; lia).
    assert (q = Zpos z) as Eq by (unfold q; rewrite En; apply Z.div_1_r).
    rewrite Eq, En.
    assert (Emag : mag (finish s (Zpos mz) e1) = Zpos z * 2 ^ (e + 149)).
    { rewrite Hmag, Emz, <- Z.mul_assoc, <- Z.pow_add_r by lia.
      f_equal. f_equal. lia. }
    rewrite Emag. simpl (2 ^ 0). repeat split; try assumption; try lia.
  - rewrite shl_align_id by exact Hge.
    destruct (binary_round_aux_spec s z e) as (m1 & Hm1 & Hex & -> & Hb & Hc);
      fold d; fold e1; try lia.
    fold d in Hm1, Hex, Hb, Hc. fold e1 in Hm1, Hex, Hb, Hc.
    assert (n = e1 - e) as En by (unfold n; lia).
    rewrite <- En in Hm1, Hex. fold q in Hm1, Hex.
    destruct (finish_spec s m1 e1) as (Hf & Hs & Hmag); try lia.
    assert (E2 : 2 ^ (e1 + 149) = 2 ^ n * 2 ^ (e + 149))
      by (rewrite <- Z.pow_add_r by lia; f_equal; lia).
    assert (Hpn : 0 < 2 ^ n) by (apply Z.pow_pos_nonneg; lia).
    rewrite Hmag, E2. repeat split; try assumption; try nia.
    intros Hmod. rewrite (Hex Hmod). unfold q.
    apply Z.mod_divide in Hmod; [|lia]. destruct Hmod as [c Hc'].
    rewrite Hc', Z.div_mul by lia. lia.
Qed.

Lemma val_sign (s : bool) (r : spec_float) :
  has_sign s r -> val r = cond_Zopp s (mag r).
Proof.
  destruct r as [s'|s'| |s' m e]; simpl; try tauto; intros ->.
  - destruct s; reflexivity.
  - reflexivity.
Qed.

Lemma mag_pos (m : positive) (e : Z) : -149 <= e -> 0 < Zpos m * 2 ^ (e + 149).
Proof. intros He. assert (0 < 2 ^ (e + 149)) by (apply Z.pow_pos_nonneg; lia). nia. Qed.

Lemma mag_nonneg (x : spec_float) : finite32 x = true -> 0 <= mag x.
Proof.
  destruct x as [s|s| |s m e]; cbn [finite32 mag]; intros Hb;
    first [lia | apply bounded_inv in Hb as (He & _);
                 apply Z.lt_le_incl; apply mag_pos; lia].
Qed.

Lemma ltb_zero (f : spec_float) :
  finite32 f = true -> SFltb f zero = (val f <? 0).
Proof.
  destruct f as [s|s| |s m e]; cbn [finite32]; try discriminate.
  - intros _. reflexivity.
  - intros Hb. apply bounded_inv in Hb as (He & _).
    pose proof (mag_pos m e ltac:(lia)).
    unfold SFltb, zero. cbn [SFcompare val].
    destruct s; cbn [cond_Zopp]; symmetry;
      [apply Z.ltb_lt|apply Z.ltb_ge]; lia.
Qed.

Lemma leb_one (f : spec_float) :
  finite32 f = true -> SFleb one f = (2 ^ 149 <=? val f).
Proof.
  destruct f as [s|s| |s m e]; cbn [finite32]; try discriminate.
  - intros _. reflexivity.
  - intros Hb. apply bounded_inv in Hb as (He & Hm & Hc).
    assert (HP : 0 < 2 ^ (e + 149)) by (apply Z.pow_pos_nonneg; lia).
    unfold SFleb, one. cbn [SFcompare val]. destruct s.
    + cbn [cond_Zopp]. symmetry. apply Z.leb_gt.
      assert (0 < 2 ^ 149) by (apply Z.pow_pos_nonneg; lia).
      set (P := 2 ^ (e + 149)) in *. nia.
    + cbn [cond_Zopp]. destruct (Z.compare_spec (-23) e) as [E|E|E].
      * subst e. destruct Hc as [Hc|Hc]; [discriminate|].
        change (Zpos m * 2 ^ (-23 + 149)) with (Zpos m * 2 ^ 126).
        change (2 ^ 149) with (2 ^ 23 * 2 ^ 126).
        rewrite Pos.compare_cont_spec. simpl Pos.switch_Eq.
        change (2 ^ 23) with (Zpos 8388608) in *.
        replace (Zpos 8388608 * 2 ^ 126 <=? Zpos m * 2 ^ 126) with true.
        -- change ((8388608 ?= m)%positive <> Gt) in Hc.
           destruct (8388608 ?= m)%positive; try reflexivity.
           exfalso. apply Hc. reflexivity.
        -- symmetry. apply Z.leb_le. apply Z.mul_le_mono_nonneg_r.
           ++ apply Z.pow_nonneg. clear. lia.
           ++ exact Hc.
      * symmetry. apply Z.leb_le.
        destruct Hc as [Hc|Hc]; [lia|].
        assert (2 ^ 127 <= 2 ^ (e + 149)) by (apply Z.pow_le_mono_r; lia).
        change (2 ^ 149) with (2 ^ 22 * 2 ^ 127).
        assert (0 < 2 ^ 127) by (apply Z.pow_pos_nonneg; lia).
        change (2 ^ 23) with (2 * 2 ^ 22) in Hc.
        assert (0 < 2 ^ 22) by (apply Z.pow_pos_nonneg; lia).
        set (P := 2 ^ (e + 149)) in *. set (Q := 2 ^ 127) in *.
        set (T := 2 ^ 22) in *. nia.
      * symmetry. apply Z.leb_gt.
        assert (2 ^ (e + 149) <= 2 ^ 125) by (apply Z.pow_le_mono_r; lia).
        change (2 ^ 149) with (2 ^ 24 * 2 ^ 125).
        set (P := 2 ^ (e + 149)) in *. set (Q := 2 ^ 125) in *.
        set (T := 2 ^ 24) in *. nia.
Qed.

Lemma shl_align_fst (m : positive) (e e' : Z) :
  e' <= e -> Zpos (fst (shl_align m e e')) = Zpos m * 2 ^ (e - e').
Proof.
  intros Hle. destruct (Z.eq_dec e e') as [->|Hne].
  - rewrite shl_align_id by lia. rewrite Z.sub_diag. simpl. lia.
  - destruct (shl_align_spec m e e') as (mz & -> & Emz); [lia|]. exact Emz.
Qed.

Lemma digits2_pos_le (p : positive) (k : Z) :
  Zpos p < 2 ^ k -> Zpos (digits2_pos p) <= k.
Proof.
  intros Hlt. pose proof (digits2_pos_bounds p) as [Hlo _].
  destruct (Z.le_gt_cases (Zpos (digits2_pos p)) k) as [|Hgt]; [assumption|].
  assert (2 ^ k <= 2 ^ (Zpos (digits2_pos p) - 1))
    by (apply Z.pow_le_mono_r; lia).
  lia.
Qed.

(** The difference between a float in [[1, 2^24]] and 1 is a float. *)
Lemma minus_one_round (s : bool) (m pz : positive) (e : Z) :
  bounded prec emax m e = true -> -23 <= e ->
  Zpos m * 2 ^ (e + 149) <= 2 ^ 173 ->
  Zpos pz = Zpos m * 2 ^ (e + 23) - 2 ^ 23 ->
  let r := binary_round prec emax s pz (-23) in
  finite32 r = true /\ has_sign s r /\ mag r = Zpos pz * 2 ^ 126.
Proof.
  intros Hb He Hmax Hpz r.
  apply bounded_inv in Hb as (Hbe & Hm & Hc).
  destruct Hc as [Hc|Hc]; [lia|].
  assert (He1 : e <= 1).
  { destruct (Z.le_gt_cases e 1) as [|Hgt]; [assumption|exfalso].
    assert (2 ^ 151 <= 2 ^ (e + 149)) by (apply Z.pow_le_mono_r; lia).
    change (2 ^ 173) with (2 ^ 22 * 2 ^ 151) in Hmax.
    change (2 ^ 23) with (2 * 2 ^ 22) in Hc.
    assert (0 < 2 ^ 151) by (apply Z.pow_pos_nonneg; lia).
    assert (0 < 2 ^ 22) by (apply Z.pow_pos_nonneg; lia).
    set (P := 2 ^ (e + 149)) in *. set (Q := 2 ^ 151) in *.
    set (T := 2 ^ 22) in *. nia. }
  destruct (Z.eq_dec e 1) as [->|Hne].
  - (* the float 2^24 itself *)
    assert (Zpos m = 2 ^ 23) as Em.
    { change (2 ^ (1 + 149)) with (2 ^ 150) in Hmax.
      change (2 ^ 173) with (2 ^ 23 * 2 ^ 150) in Hmax.
      assert (0 < 2 ^ 150) by (apply Z.pow_pos_nonneg; lia).
      set (Q := 2 ^ 150) in *. set (T := 2 ^ 23) in *. nia. }
    rewrite Em in Hpz. assert (pz = 140737479966720%positive) as ->
      by (apply Pos2Z.inj; rewrite Hpz; reflexivity).
    unfold r. destruct s; vm_compute; auto.
  - assert (He0 : e <= 0) by lia.
    pose proof (binary_round_spec s pz (-23)) as Hspec.
    cbv zeta in Hspec.
    set (d := Zpos (digits2_pos pz)) in *.
    assert (Hd : d <= 47 + e).
    { apply digits2_pos_le. rewrite Hpz.
      replace (47 + e) with (24 + (e + 23)) by lia.
      rewrite (Z.pow_add_r 2 24 (e + 23)) by lia.
      assert (0 < 2 ^ (e + 23)) by (apply Z.pow_pos_nonneg; lia).
      assert (0 < 2 ^ 23) by (apply Z.pow_pos_nonneg; lia).
      set (P := 2 ^ (e + 23)) in *. set (T := 2 ^ 24) in *.
      set (U := 2 ^ 23) in *. nia. }
    assert (Hd0 : 0 < d) by (unfold d; lia).
    replace (Z.max (d + -23 - 24) (-149)) with (d - 47) in Hspec by lia.
    destruct Hspec as (Hf & Hs & _ & Hex); [lia|lia|].
    split; [exact Hf|]. split; [exact Hs|].
    change (-23 + 149) with 126 in Hex. apply Hex.
    destruct (Z.le_gt_cases d 24) as [Hle|Hgt].
    + replace (Z.max 0 (d - 47 - -23)) with 0 by lia. apply Z.mod_1_r.
    + replace (Z.max 0 (d - 47 - -23)) with (d - 24) by lia.
      rewrite Hpz.
      assert (E1 : 2 ^ (e + 23) = 2 ^ (e + 47 - d) * 2 ^ (d - 24))
        by (rewrite <- Z.pow_add_r by lia; f_equal; lia).
      assert (E2 : 2 ^ 23 = 2 ^ (47 - d) * 2 ^ (d - 24))
        by (rewrite <- Z.pow_add_r by lia; f_equal; lia).
      rewrite E1, E2.
      replace (Zpos m * (2 ^ (e + 47 - d) * 2 ^ (d - 24))
               - 2 ^ (47 - d) * 2 ^ (d - 24))
        with ((Zpos m * 2 ^ (e + 47 - d) - 2 ^ (47 - d)) * 2 ^ (d - 24))
        by ring.
      apply Z.mod_mul. apply Z.pow_nonzero; lia.
Qed.

Lemma ge_one_exponent (m : positive) (e : Z) :
  bounded prec emax m e = true -> 2 ^ 149 <= Zpos m * 2 ^ (e + 149) -> -23 <= e.
Proof.
  intros Hb Hge. apply bounded_inv in Hb as (Hbe & Hm & _).
  destruct (Z.le_gt_cases (-23) e) as [|Hlt]; [assumption|exfalso].
  assert (2 ^ (e + 149) <= 2 ^ 125) by (apply Z.pow_le_mono_r; lia).
  assert (0 < 2 ^ (e + 149)) by (apply Z.pow_pos_nonneg; lia).
  change (2 ^ 149) with (2 ^ 24 * 2 ^ 125) in Hge.
  set (P := 2 ^ (e + 149)) in *. set (Q := 2 ^ 125) in *.
  set (T := 2 ^ 24) in *. nia.
Qed.

Lemma lt_one_exponent (m : positive) (e : Z) :
  bounded prec emax m e = true -> Zpos m * 2 ^ (e + 149) < 2 ^ 149 -> e <= -24.
Proof.
  intros Hb Hlt. apply bounded_inv in Hb as (Hbe & Hm & Hc).
  destruct (Z.le_gt_cases e (-24)) as [|Hgt]; [assumption|exfalso].
  destruct Hc as [Hc|Hc]; [lia|].
  assert (2 ^ 126 <= 2 ^ (e + 149)) by (apply Z.pow_le_mono_r; lia).
  change (2 ^ 149) with (2 ^ 23 * 2 ^ 126) in Hlt.
  assert (0 < 2 ^ 126) by (apply Z.pow_pos_nonneg; lia).
  assert (0 < 2 ^ 23) by (apply Z.pow_pos_nonneg; lia).
  set (P := 2 ^ (e + 149)) in *. set (Q := 2 ^ 126) in *.
  set (T := 2 ^ 23) in *. nia.
Qed.

Lemma scale_126 (m : positive) (e : Z) :
  -23 <= e -> Zpos m * 2 ^ (e + 149) = Zpos m * 2 ^ (e + 23) * 2 ^ 126.
Proof.
  intros He. rewrite <- Z.mul_assoc, <- Z.pow_add_r by lia.
  f_equal. f_equal. lia.
Qed.

(** [f - 1] for a float [f] with [1 <= f <= 2^24] is exact. *)
Lemma sub_one_exact (m : positive) (e : Z) :
  bounded prec emax m e = true ->
  2 ^ 149 <= Zpos m * 2 ^ (e + 149) <= 2 ^ 173 ->
  let r := SFsub prec emax (S754_finite false m e) one in
  finite32 r = true /\ val r = Zpos m * 2 ^ (e + 149) - 2 ^ 149.
Proof.
  intros Hb [Hge Hle] r.
  pose proof (ge_one_exponent m e Hb Hge) as He.
  unfold r, SFsub, one. rewrite Z.min_r by lia.
  rewrite (shl_align_id 8388608 (-23) (-23)) by lia.
  cbn [cond_Zopp fst]. unfold binary_normalize.
  pose proof (shl_align_fst m e (-23) He) as Ez.
  replace (e - -23) with (e + 23) in Ez by lia.
  rewrite (scale_126 m e He) in *.
  change (2 ^ 149) with (2 ^ 23 * 2 ^ 126) in *.
  change (Zpos 8388608) with (2 ^ 23).
  assert (H126 : 0 < 2 ^ 126) by (apply Z.pow_pos_nonneg; lia).
  destruct (Zpos (fst (shl_align m e (-23))) - 2 ^ 23) as [|pz|pz] eqn:Ediff.
  - split; [reflexivity|]. simpl val. rewrite <- Ez. 
    replace (Zpos (fst (shl_align m e (-23)))) with (2 ^ 23) by lia. lia.
  - destruct (minus_one_round false m pz e Hb He) as (Hf & Hs & Hmag).
    + rewrite scale_126 by exact He. change (2 ^ 173) with (2 ^ 47 * 2 ^ 126). 
      change (2 ^ 173) with (2 ^ 47 * 2 ^ 126) in Hle. exact Hle.
    + rewrite <- Ez. lia.
    + split; [exact Hf|]. rewrite (val_sign false _ Hs), Hmag. cbn [cond_Zopp].
      rewrite <- Ez. set (X := Zpos (fst (shl_align m e (-23)))) in *.
      set (Q := 2 ^ 126) in *. nia.
  - exfalso. rewrite <- Ez in Hge.
    set (X := Zpos (fst (shl_align m e (-23)))) in *.
    set (Q := 2 ^ 126) in *. nia.
Qed.

(** [f + 1] for a float [f] with [-2^24 <= f <= -1] is exact. *)
Lemma add_one_exact (m : positive) (e : Z) :
  bounded prec emax m e = true ->
  2 ^ 149 <= Zpos m * 2 ^ (e + 149) <= 2 ^ 173 ->
  let r := SFadd prec emax (S754_finite true m e) one in
  finite32 r = true /\ val r = - (Zpos m * 2 ^ (e + 149)) + 2 ^ 149.
Proof.
  intros Hb [Hge Hle] r.
  pose proof (ge_one_exponent m e Hb Hge) as He.
  unfold r, SFadd, one. rewrite Z.min_r by lia.
  rewrite (shl_align_id 8388608 (-23) (-23)) by lia.
  cbn [cond_Zopp fst]. unfold binary_normalize.
  pose proof (shl_align_fst m e (-23) He) as Ez.
  replace (e - -23) with (e + 23) in Ez by lia.
  rewrite (scale_126 m e He) in *.
  change (2 ^ 149) with (2 ^ 23 * 2 ^ 126) in *.
  change (Zpos 8388608) with (2 ^ 23).
  assert (H126 : 0 < 2 ^ 126) by (apply Z.pow_pos_nonneg; lia).
  destruct (- Zpos (fst (shl_align m e (-23))) + 2 ^ 23) as [|pz|pz] eqn:Ediff.
  - split; [reflexivity|]. simpl val. rewrite <- Ez.
    replace (Zpos (fst (shl_align m e (-23)))) with (2 ^ 23) by lia. lia.
  - exfalso. rewrite <- Ez in Hge.
    set (X := Zpos (fst (shl_align m e (-23)))) in *.
    set (Q := 2 ^ 126) in *. nia.
  - destruct (minus_one_round true m pz e Hb He) as (Hf & Hs & Hmag).
    + rewrite scale_126 by exact He. change (2 ^ 173) with (2 ^ 47 * 2 ^ 126).
      change (2 ^ 173) with (2 ^ 47 * 2 ^ 126) in Hle. exact Hle.
    + rewrite <- Ez. lia.
    + split; [exact Hf|]. rewrite (val_sign true _ Hs), Hmag. cbn [cond_Zopp].
      rewrite <- Ez. set (X := Zpos (fst (shl_align m e (-23)))) in *.
      set (Q := 2 ^ 126) in *. nia.
Qed.

(** [f + 1] for a float [f] with [-1 < f < 0] is a float in [[0, 1]]. *)
Lemma add_one_round (m : positive) (e : Z) :
  bounded prec emax m e = true ->
  Zpos m * 2 ^ (e + 149) < 2 ^ 149 ->
  let r := SFadd prec emax (S754_finite true m e) one in
  finite32 r = true /\ 0 <= val r <= 2 ^ 149.
Proof.
  intros Hb Hlt r.
  pose proof (lt_one_exponent m e Hb Hlt) as He.
  pose proof (bounded_inv m e Hb) as (Hbe & Hm & Hc).
  unfold r, SFadd, one. rewrite Z.min_l by lia.
  rewrite (shl_align_id m e e) by lia.
  cbn [cond_Zopp fst]. unfold binary_normalize.
  pose proof (shl_align_fst 8388608 (-23) e ltac:(lia)) as Ez.
  change (Zpos 8388608) with (2 ^ 23) in Ez.
  rewrite <- Z.pow_add_r in Ez by lia.
  replace (23 + (-23 - e)) with (- e) in Ez by lia.
  assert (Hme : Zpos m < 2 ^ (- e)).
  { assert (E : 2 ^ 149 = 2 ^ (- e) * 2 ^ (e + 149))
      by (rewrite <- Z.pow_add_r by lia; f_equal; lia).
    rewrite E in Hlt.
    assert (0 < 2 ^ (e + 149)) by (apply Z.pow_pos_nonneg; lia).
    set (P := 2 ^ (e + 149)) in *. set (Q := 2 ^ (- e)) in *. nia. }
  rewrite Ez.
  destruct (- Zpos m + 2 ^ (- e)) as [|pz|pz] eqn:Ediff; [lia| |lia].
  pose proof (binary_round_spec false pz e) as Hspec. cbv zeta in Hspec.
  set (d := Zpos (digits2_pos pz)) in *.
  assert (Hd : d <= - e) by (apply digits2_pos_le; lia).
  assert (Hd0 : 0 < d) by (unfold d; lia).
  set (e1 := Z.max (d + e - 24) (-149)) in *.
  set (n := Z.max 0 (e1 - e)) in *.
  destruct Hspec as (Hf & Hs & [_ Hup] & _); [lia|unfold e1; lia|].
  split; [exact Hf|]. rewrite (val_sign false _ Hs). cbn [cond_Zopp].
  split.
  - apply mag_nonneg. exact Hf.
  - eapply Z.le_trans; [exact Hup|].
    assert (Hn : 0 <= n <= - e) by (unfold n, e1; lia).
    assert (Hpn : 0 < 2 ^ n) by (apply Z.pow_pos_nonneg; lia).
    assert (E1 : 2 ^ (- e) = 2 ^ n * 2 ^ (- e - n))
      by (rewrite <- Z.pow_add_r by lia; f_equal; lia).
    assert (E2 : 2 ^ 149 = 2 ^ (- e) * 2 ^ (e + 149))
      by (rewrite <- Z.pow_add_r by lia; f_equal; lia).
    assert (Hq : Zpos pz / 2 ^ n < 2 ^ (- e - n))
      by (apply Z.div_lt_upper_bound; [lia|rewrite <- E1; lia]).
    rewrite E2, E1.
    assert (0 < 2 ^ (e + 149)) by (apply Z.pow_pos_nonneg; lia).
    set (P := 2 ^ (e + 149)) in *. set (Q := 2 ^ n) in *.
    set (T := 2 ^ (- e - n)) in *. set (q := Zpos pz / Q) in *.
    assert ((q + 1) * Q <= Q * T) by nia. nia.
Qed.

Lemma of_Z_0 : of_Z 0 = zero. Proof. reflexivity. Qed.
Lemma of_Z_1 : of_Z 1 = one. Proof. vm_compute. reflexivity. Qed.

Lemma mod_float_B32_step (n : nat) (f : spec_float) :
  mod_float (S n) f one
  = if SFltb f zero then mod_float n (SFadd prec emax f one) one
    else if SFleb one f then mod_float n (SFsub prec emax f one) one
    else Some f.
Proof. reflexivity. Qed.

Lemma val_pos_inv (f : spec_float) :
  finite32 f = true -> 0 < val f ->
  exists m e, f = S754_finite false m e /\ bounded prec emax m e = true /\
              val f = Zpos m * 2 ^ (e + 149).
Proof.
  destruct f as [s|s| |s m e]; cbn [finite32 val]; try discriminate; try lia.
  intros Hb Hpos. pose proof (bounded_inv m e Hb) as (He & _).
  pose proof (mag_pos m e ltac:(lia)).
  destruct s; cbn [cond_Zopp] in *; [lia|]. eauto.
Qed.

Lemma val_neg_inv (f : spec_float) :
  finite32 f = true -> val f < 0 ->
  exists m e, f = S754_finite true m e /\ bounded prec emax m e = true /\
              val f = - (Zpos m * 2 ^ (e + 149)).
Proof.
  destruct f as [s|s| |s m e]; cbn [finite32 val]; try discriminate; try lia.
  intros Hb Hneg. pose proof (bounded_inv m e Hb) as (He & _).
  pose proof (mag_pos m e ltac:(lia)).
  destruct s; cbn [cond_Zopp] in *; [|lia]. eauto.
Qed.

(** From a float in [[0, 2^24]] the recursion subtracts 1 until the value is
    below 1. *)
Lemma mod_float_nonneg (k : nat) (f : spec_float) :
  finite32 f = true -> 0 <= val f < (Z.of_nat k + 1) * 2 ^ 149 ->
  val f <= 2 ^ 173 ->
  exists r, mod_float (S k) f one = Some r /\
            finite32 r = true /\ 0 <= val r < 2 ^ 149.
Proof.
  revert f. induction k as [|k IH]; intros f Hf Hv Hmax;
    rewrite mod_float_B32_step, ltb_zero, leb_one by exact Hf;
    (replace (val f <? 0) with false by (symmetry; apply Z.ltb_ge; lia)).
  - replace (2 ^ 149 <=? val f) with false by (symmetry; apply Z.leb_gt; lia).
    exists f. repeat split; try assumption; lia.
  - destruct (Z.leb_spec (2 ^ 149) (val f)) as [Hge|Hlt].
    + destruct (val_pos_inv f Hf) as (m & e & -> & Hb & Ev).
      { assert (0 < 2 ^ 149) by (apply Z.pow_pos_nonneg; lia). lia. }
      rewrite Ev in *.
      destruct (sub_one_exact m e Hb) as (Hf' & Ev'); [lia|].
      apply IH; [exact Hf'| |]; rewrite Ev'.
      * assert (0 < 2 ^ 149) by (apply Z.pow_pos_nonneg; lia).
        set (P := 2 ^ 149) in *. set (X := Zpos m * 2 ^ (e + 149)) in *. nia.
      * assert (0 < 2 ^ 149) by (apply Z.pow_pos_nonneg; lia). lia.
    + exists f. repeat split; try assumption; lia.
Qed.

(** From a float in [[-2^24, 0)] the recursion adds 1 until the value is
    not negative, and continues as above. *)
Lemma mod_float_neg (k : nat) (f : spec_float) :
  finite32 f = true -> - (Z.of_nat k * 2 ^ 149) <= val f < 0 ->
  - 2 ^ 173 <= val f ->
  exists r, mod_float (k + 3) f one = Some r /\
            finite32 r = true /\ 0 <= val r < 2 ^ 149.
Proof.
  assert (H149 : 0 < 2 ^ 149) by (apply Z.pow_pos_nonneg; lia).
  assert (H173 : 2 ^ 149 <= 2 ^ 173) by (apply Z.pow_le_mono_r; lia).
  revert f. induction k as [|k IH]; intros f Hf Hv Hmin; [lia|].
  change (S k + 3)%nat with (S (k + 3)).
  rewrite mod_float_B32_step, ltb_zero by exact Hf.
  replace (val f <? 0) with true by (symmetry; apply Z.ltb_lt; lia).
  destruct (val_neg_inv f Hf) as (m & e & -> & Hb & Ev); [lia|].
  rewrite Ev in *.
  destruct (Z.le_gt_cases (2 ^ 149) (Zpos m * 2 ^ (e + 149))) as [Hge|Hlt].
  - destruct (add_one_exact m e Hb) as (Hf' & Ev'); [lia|].
    destruct (Z.eq_dec (Zpos m * 2 ^ (e + 149)) (2 ^ 149)) as [E|NE].
    + destruct (mod_float_nonneg (k + 2) _ Hf') as (r & Hr & Hfr & Hvr);
        [rewrite Ev'; lia..|].
      exists r. replace (k + 3)%nat with (S (k + 2)) by lia. auto.
    + apply IH; [exact Hf'| |]; rewrite Ev'; [|lia].
      set (P := 2 ^ 149) in *. set (X := Zpos m * 2 ^ (e + 149)) in *. nia.
  - destruct (add_one_round m e Hb Hlt) as (Hf' & Hv').
    destruct (mod_float_nonneg (k + 2) _ Hf') as (r & Hr & Hfr & Hvr);
      [nia|lia|].
    exists r. replace (k + 3)%nat with (S (k + 2)) by lia. auto.
Qed.

Lemma of_Z_2p24 : of_Z (2 ^ 24) = c24. Proof. vm_compute. reflexivity. Qed.

Lemma leb_c24 (f : spec_float) :
  finite32 f = true -> SFleb (SFabs f) c24 = true ->
  - 2 ^ 173 <= val f <= 2 ^ 173.
Proof.
  assert (H173 : 0 < 2 ^ 173) by (apply Z.pow_pos_nonneg; lia).
  destruct f as [s|s| |s m e]; cbn [finite32 val SFabs]; try discriminate.
  - intros _ _. lia.
  - intros Hb Hle. pose proof (bounded_inv m e Hb) as (He & Hm & Hc).
    assert (Zpos m * 2 ^ (e + 149) <= 2 ^ 173) as Hmag.
    { unfold SFleb, c24 in Hle. cbn [SFcompare] in Hle.
      assert (HP : 0 < 2 ^ (e + 149)) by (apply Z.pow_pos_nonneg; lia).
      destruct (Z.compare_spec e 1) as [E|E|E].
      - subst e. rewrite Pos.compare_cont_spec in Hle. simpl Pos.switch_Eq in Hle.
        change (2 ^ (1 + 149)) with (2 ^ 150).
        change (2 ^ 173) with (2 ^ 23 * 2 ^ 150).
        apply Z.mul_le_mono_nonneg_r; [apply Z.pow_nonneg; lia|].
        change (2 ^ 23) with (Zpos 8388608).
        change ((m ?= 8388608)%positive <> Gt).
        destruct (m ?= 8388608)%positive; discriminate.
      - assert (2 ^ (e + 149) <= 2 ^ 149) by (apply Z.pow_le_mono_r; lia).
        change (2 ^ 173) with (2 ^ 24 * 2 ^ 149).
        assert (0 < 2 ^ 149) by (apply Z.pow_pos_nonneg; lia).
        set (P := 2 ^ (e + 149)) in *. set (Q := 2 ^ 149) in *.
        set (T := 2 ^ 24) in *. nia.
      - discriminate. }
    pose proof (mag_pos m e ltac:(lia)).
    destruct s; cbn [cond_Zopp]; lia.
Qed.

Lemma leb_zero (r : spec_float) :
  finite32 r = true -> 0 <= val r -> SFleb zero r = true.
Proof.
  destruct r as [s|s| |s m e]; cbn [finite32 val]; try discriminate.
  - reflexivity.
  - intros Hb Hv. pose proof (bounded_inv m e Hb) as (He & _).
    pose proof (mag_pos m e ltac:(lia)).
    destruct s; cbn [cond_Zopp] in Hv; [lia|reflexivity].
Qed.

Lemma ltb_one (r : spec_float) :
  finite32 r = true -> 0 <= val r < 2 ^ 149 -> SFltb r one = true.
Proof.
  destruct r as [s|s| |s m e]; cbn [finite32 val]; try discriminate.
  - reflexivity.
  - intros Hb Hv. pose proof (bounded_inv m e Hb) as (He & _).
    pose proof (mag_pos m e ltac:(lia)).
    destruct s; cbn [cond_Zopp] in Hv; [lia|].
    pose proof (lt_one_exponent m e Hb ltac:(lia)) as Hexp.
    unfold SFltb, one. cbn [SFcompare].
    replace (e ?= -23) with Lt by (symmetry; apply Z.compare_lt_iff; lia).
    reflexivity.
Qed.


End Binary32.

(** ** binary32 arithmetic of the box distance

    [box_signed_distance] subtracts the constants 1/2 and 1/4 from the
    absolute values of the coordinates, squares the positive components,
    adds the squares and takes a square root.  This section follows the
    signs of these results through the rounding of [SpecFloat], overflow
    to infinity included: a positive component is at least [2^-25], so
    its square does not underflow to zero. *)

Section Binary32Box.
Import B32.
Local Open Scope Z_scope.

Lemma digits2_pos_pos (p : positive) : 0 < Zpos (digits2_pos p).
Proof. lia. Qed.

Lemma digits2_div (p : positive) (n : Z) :
  0 <= n < Zpos (digits2_pos p) ->
  2 ^ (Zpos (digits2_pos p) - 1 - n) <= Zpos p / 2 ^ n.
Proof.
  intros Hn. pose proof (digits2_pos_bounds p) as [Hlo _].
  apply Z.div_le_lower_bound; [apply Z.pow_pos_nonneg; lia|].
  rewrite <- Z.pow_add_r by lia.
  replace (n + (Zpos (digits2_pos p) - 1 - n)) with (Zpos (digits2_pos p) - 1)
    by lia.
  exact Hlo.
Qed.

Lemma finish_shape (s : bool) (m1 : positive) (e1 : Z) :
  -149 < Zpos (digits2_pos m1) + e1 -> signed s (finish s (Zpos m1) e1).
Proof.
  intros Hd. unfold finish, shr_fexp. cbn [Zdigits2 shr_record_of_loc].
  rewrite fexp_eq. set (d := Zpos (digits2_pos m1)) in *.
  assert (Hd0 : 0 < d) by (unfold d; lia).
  destruct (Z.max (d + e1 - 24) (-149) - e1) as [|pn|pn] eqn:En.
  - cbn [shr shr_m].
    destruct (e1 <=? emax - prec); simpl; [split|]; try reflexivity; lia.
  - cbn [shr].
    set (mrs := SpecFloat.iter_pos shr_1 pn
                  (Build_shr_record (Zpos m1) false false)).
    assert (Em : shr_m mrs = Zpos m1 / 2 ^ Zpos pn)
      by (unfold mrs; rewrite iter_pos_shr_m by (simpl; lia); reflexivity).
    assert (Hq : 1 <= shr_m mrs).
    { rewrite Em.
      assert (2 ^ (d - 1 - Zpos pn) <= Zpos m1 / 2 ^ Zpos pn)
        by (apply digits2_div; fold d; lia).
      assert (0 < 2 ^ (d - 1 - Zpos pn)) by (apply Z.pow_pos_nonneg; lia).
      lia. }
    destruct (shr_m mrs) as [|q|q]; [lia| |lia].
    destruct (e1 + Zpos pn <=? emax - prec); simpl; [split|];
      try reflexivity; lia.
  - cbn [shr shr_m].
    destruct (e1 <=? emax - prec); simpl; [split|]; try reflexivity; lia.
Qed.

(** [binary_round_aux] from any location: the mantissa is shifted right if
    it is too long, rounded, and renormalized. *)
Lemma binary_round_aux_finish (s : bool) (m : positive) (e : Z) (l : location) :
  let d := Zpos (digits2_pos m) in
  let n := Z.max 0 (Z.max (d + e - 24) (-149) - e) in
  exists m1, Zpos m / 2 ^ n <= m1 /\
    binary_round_aux prec emax s (Zpos m) e l = finish s m1 (e + n).
Proof.
  intros d n. unfold binary_round_aux. unfold shr_fexp at 1.
  cbn [Zdigits2]. rewrite fexp_eq. fold d.
  destruct (Z.max (d + e - 24) (-149) - e) as [|pn|pn] eqn:En.
  - exists (round_nearest_even (Zpos m) l).
    replace n with 0 by (unfold n; rewrite ?En; reflexivity).
    rewrite Z.add_0_r, Z.div_1_r. cbn [shr].
    assert (El : loc_of_shr_record (shr_record_of_loc (Zpos m) l) = l)
      by (destruct l as [|[| |]]; reflexivity).
    assert (Em : shr_m (shr_record_of_loc (Zpos m) l) = Zpos m)
      by (destruct l as [|[| |]]; reflexivity).
    rewrite El, Em. split; [apply round_nearest_even_bounds|reflexivity].
  - cbn [shr].
    set (mrs := SpecFloat.iter_pos shr_1 pn (shr_record_of_loc (Zpos m) l)).
    assert (Em : shr_m mrs = Zpos m / 2 ^ Zpos pn).
    { unfold mrs. rewrite iter_pos_shr_m.
      - destruct l as [|[| |]]; reflexivity.
      - destruct l as [|[| |]]; simpl; lia. }
    exists (round_nearest_even (shr_m mrs) (loc_of_shr_record mrs)).
    replace n with (Zpos pn) by (unfold n; rewrite ?En; reflexivity).
    rewrite <- Em. split; [apply round_nearest_even_bounds|reflexivity].
  - exists (round_nearest_even (Zpos m) l).
    replace n with 0 by (unfold n; rewrite ?En; reflexivity).
    rewrite Z.add_0_r, Z.div_1_r. cbn [shr].
    assert (El : loc_of_shr_record (shr_record_of_loc (Zpos m) l) = l)
      by (destruct l as [|[| |]]; reflexivity).
    assert (Em : shr_m (shr_record_of_loc (Zpos m) l) = Zpos m)
      by (destruct l as [|[| |]]; reflexivity).
    rewrite El, Em. split; [apply round_nearest_even_bounds|reflexivity].
Qed.

Lemma digits2_pos_ge (p : positive) (k : Z) :
  2 ^ k <= Zpos p -> k < Zpos (digits2_pos p).
Proof.
  intros Hle. pose proof (digits2_pos_bounds p) as [_ Hhi].
  destruct (Z.lt_ge_cases k (Zpos (digits2_pos p))) as [|Hge]; [assumption|].
  assert (2 ^ Zpos (digits2_pos p) <= 2 ^ k) by (apply Z.pow_le_mono_r; lia).
  lia.
Qed.

(** Rounding a mantissa whose leading bit lies above [2^-149] gives a
    float of the same sign that is neither zero nor NaN. *)
Lemma binary_round_aux_signed (s : bool) (m : positive) (e : Z) (l : location) :
  -149 < Zpos (digits2_pos m) + e ->
  signed s (binary_round_aux prec emax s (Zpos m) e l).
Proof.
  intros Hd.
  destruct (binary_round_aux_finish s m e l) as (m1 & Hm1 & ->).
  set (d := Zpos (digits2_pos m)) in *.
  set (n := Z.max 0 (Z.max (d + e - 24) (-149) - e)) in *.
  assert (Hd0 : 0 < d) by (unfold d; lia).
  assert (Hn : 0 <= n < d) by (unfold n; lia).
  assert (Hq : 2 ^ (d - 1 - n) <= Zpos m / 2 ^ n)
    by (apply digits2_div; fold d; lia).
  assert (0 < 2 ^ (d - 1 - n)) by (apply Z.pow_pos_nonneg; lia).
  destruct m1 as [|p1|p1]; [lia| |lia].
  apply finish_shape.
  assert (d - 1 - n < Zpos (digits2_pos p1)) by (apply digits2_pos_ge; lia).
  lia.
Qed.

(** The renormalization of a rounded mantissa, overflow included. *)
Lemma finish_valid (s : bool) (m1 : positive) (e1 : Z) :
  Zpos m1 <= 2 ^ 24 -> -149 <= e1 -> (e1 = -149 \/ 2 ^ 23 <= Zpos m1) ->
  finish s (Zpos m1) e1 = S754_infinity s \/
  exists m e, finish s (Zpos m1) e1 = S754_finite s m e /\
              bounded prec emax m e = true /\
              Zpos m * 2 ^ (e + 149) = Zpos m1 * 2 ^ (e1 + 149).
Proof.
  intros Hm He Hc. unfold finish, shr_fexp.
  cbn [Zdigits2 shr_record_of_loc]. rewrite fexp_eq.
  pose proof (digits2_pos_bounds m1) as [Hlo Hhi].
  set (d := Zpos (digits2_pos m1)) in *.
  destruct (Z.eq_dec (Zpos m1) (2 ^ 24)) as [E|NE].
  - assert (d = 25) as ->
      by (apply digits2_pos_unique; rewrite E; simpl; lia).
    replace (Z.max (25 + e1 - 24) (-149) - e1) with 1 by lia.
    assert (m1 = 16777216%positive) as ->
      by (apply Pos2Z.inj; rewrite E; reflexivity).
    cbn [shr SpecFloat.iter_pos shr_1 shr_m].
    destruct (Z.leb_spec (e1 + 1) (emax - prec)) as [Hle|Hgt];
      [right|left; reflexivity].
    change (emax - prec) with 104 in Hle.
    eexists _, _. split; [reflexivity|]. split.
    + apply bounded_intro; simpl; lia.
    + replace (e1 + 1 + 149) with (Z.succ (e1 + 149)) by lia.
      rewrite Z.pow_succ_r by lia.
      set (P := 2 ^ (e1 + 149)). clear. lia.
  - assert (d <= 24).
    { destruct (Z.le_gt_cases d 24); [assumption|].
      assert (2 ^ 24 <= 2 ^ (d - 1)) by (apply Z.pow_le_mono_r; lia). lia. }
    assert (Z.max (d + e1 - 24) (-149) - e1 <= 0) by lia.
    assert (shr (Build_shr_record (Zpos m1) false false) e1
              (Z.max (d + e1 - 24) (-149) - e1)
            = (Build_shr_record (Zpos m1) false false, e1)) as ->
      by (destruct (Z.max (d + e1 - 24) (-149) - e1); try lia; reflexivity).
    cbn [shr_m].
    destruct (Z.leb_spec e1 (emax - prec)) as [Hle|Hgt];
      [right|left; reflexivity].
    change (emax - prec) with 104 in Hle.
    eexists _, _. split; [reflexivity|]. split; [|reflexivity].
    apply bounded_intro; lia.
Qed.

(** Rounding a positive integer multiple of a power of two, overflow
    included: the result is valid, has the sign asked for, and is at least
    the leading bit of the argument. *)
Lemma binary_round_valid (s : bool) (z : positive) (e : Z) :
  -149 <= e ->
  binary_round prec emax s z e = S754_infinity s \/
  exists m' e', binary_round prec emax s z e = S754_finite s m' e' /\
                bounded prec emax m' e' = true /\
                2 ^ (Zpos (digits2_pos z) - 1) * 2 ^ (e + 149)
                <= Zpos m' * 2 ^ (e' + 149).
Proof.
  intros He. unfold binary_round. rewrite fexp_eq.
  pose proof (digits2_pos_bounds z) as [Hlo Hhi].
  set (d := Zpos (digits2_pos z)) in *.
  set (e1 := Z.max (d + e - 24) (-149)).
  assert (Hd0 : 0 < d) by (unfold d; lia).
  assert (Hpe : 0 < 2 ^ (e + 149)) by (apply Z.pow_pos_nonneg; lia).
  destruct (Z.lt_ge_cases e1 e) as [Hlt|Hge].
  - destruct (shl_align_spec z e e1 Hlt) as (mz & -> & Emz).
    assert (Zpos (digits2_pos mz) = d + (e - e1)) as Edz.
    { apply digits2_pos_unique. rewrite Emz.
      replace (d + (e - e1) - 1) with ((d - 1) + (e - e1)) by lia.
      rewrite !Z.pow_add_r by lia.
      assert (0 < 2 ^ (e - e1)) by (apply Z.pow_pos_nonneg; lia).
      set (P := 2 ^ (e - e1)) in *. set (Q := 2 ^ d) in *.
      set (R := 2 ^ (d - 1)) in *. nia. }
    assert (Z.max (Zpos (digits2_pos mz) + e1 - 24) (-149) = e1) as Ee1
      by (rewrite Edz; unfold e1; lia).
    destruct (binary_round_aux_spec s mz e1) as (m1 & Hm1 & Hex & -> & Hb & Hc);
      rewrite ?Ee1; try lia.
    rewrite Ee1 in Hm1, Hex, Hc.
    replace (e1 - e1) with 0 in * by lia.
    assert (m1 = Zpos mz) as ->
      by (rewrite Hex by apply Z.mod_1_r; apply Z.div_1_r).
    destruct (finish_valid s mz e1) as [Hinf|(m' & e' & Hr & Hbd & Hmag)];
      [lia|unfold e1; lia|exact Hc|left; exact Hinf|right].
    exists m', e'. split; [exact Hr|]. split; [exact Hbd|].
    assert (E : 2 ^ (e - e1) * 2 ^ (e1 + 149) = 2 ^ (e + 149))
      by (rewrite <- Z.pow_add_r by (unfold e1; lia); f_equal; lia).
    rewrite Hmag, Emz, <- Z.mul_assoc, E.
    apply Z.mul_le_mono_nonneg_r; [lia|exact Hlo].
  - rewrite shl_align_id by exact Hge.
    destruct (binary_round_aux_spec s z e) as (m1 & Hm1 & Hex & -> & Hb & Hc);
      fold d; fold e1; try lia.
    fold d in Hm1, Hex, Hb, Hc. fold e1 in Hm1, Hex, Hb, Hc.
    set (n := e1 - e) in *.
    assert (Hn : 0 <= n < d) by (unfold n, e1; lia).
    assert (Hq : 2 ^ (d - 1 - n) <= Zpos z / 2 ^ n)
      by (apply digits2_div; fold d; lia).
    assert (0 < 2 ^ (d - 1 - n)) by (apply Z.pow_pos_nonneg; lia).
    destruct m1 as [|p1|p1]; [lia| |lia].
    destruct (finish_valid s p1 e1) as [Hinf|(m' & e' & Hr & Hbd & Hmag)];
      [lia|unfold e1; lia|exact Hc|left; exact Hinf|right].
    exists m', e'. split; [exact Hr|]. split; [exact Hbd|].
    rewrite Hmag.
    assert (E2 : 2 ^ (e1 + 149) = 2 ^ n * 2 ^ (e + 149))
      by (rewrite <- Z.pow_add_r by lia; f_equal; unfold n; lia).
    assert (E3 : 2 ^ (d - 1) = 2 ^ (d - 1 - n) * 2 ^ n)
      by (rewrite <- Z.pow_add_r by lia; f_equal; lia).
    rewrite E2, E3.
    assert (0 < 2 ^ n) by (apply Z.pow_pos_nonneg; lia).
    set (P := 2 ^ (e + 149)) in *. set (Q := 2 ^ n) in *.
    set (R := 2 ^ (d - 1 - n)) in *. set (X := Zpos z / Q) in *. 
    assert (R * Q <= Zpos p1 * Q) by nia. nia.
Qed.

Lemma binary_normalize_okt (z e : Z) :
  -149 <= e -> okt (binary_normalize prec emax z e false).
Proof.
  intros He. unfold binary_normalize. destruct z as [|pz|pz].
  - reflexivity.
  - destruct (binary_round_valid false pz e He) as [->|(m' & e' & -> & Hb & _)];
      [exact I|exact Hb].
  - destruct (binary_round_valid true pz e He) as [->|(m' & e' & -> & Hb & _)];
      [exact I|exact Hb].
Qed.

Lemma sub_finite_okt (x : float32) (sy : bool) (my : positive) (ey : Z) :
  okt x -> bounded prec emax my ey = true ->
  okt (SFsub prec emax x (S754_finite sy my ey)).
Proof.
  intros Hx Hy. pose proof (bounded_inv my ey Hy) as (Hey & _).
  destruct x as [s|s| |s m e]; cbn [okt] in Hx; try contradiction.
  - exact Hy.
  - exact I.
  - pose proof (bounded_inv m e Hx) as (He & _).
    unfold SFsub. apply binary_normalize_okt. lia.
Qed.

Lemma sub_zero_okt (x : float32) : okt x -> SFsub prec emax x zero = x.
Proof.
  destruct x as [s|s| |s m e]; cbn [okt]; try contradiction; try reflexivity.
  intros ->. reflexivity.
Qed.

Lemma sub_quarter_okq (t : float32) : okt t -> okq (SFsub prec emax t quarter).
Proof.
  intros Ht. destruct t as [s|s| |s m e]; cbn [okt] in Ht; try contradiction.
  - subst s. cbn. split; [reflexivity|discriminate].
  - exact I.
  - pose proof (bounded_inv m e Ht) as (He & Hm & _).
    unfold SFsub, quarter.
    destruct (Z.le_gt_cases (-25) e) as [Hge|Hlt].
    + rewrite Z.min_r by lia.
      unfold binary_normalize.
      destruct (cond_Zopp s (Zpos (fst (shl_align m e (-25))))
                - cond_Zopp false (Zpos (fst (shl_align 8388608 (-25) (-25)))))
        as [|pz|pz].
      * reflexivity.
      * destruct (binary_round_valid false pz (-25))
          as [->|(m' & e' & -> & Hb & Hlo)]; [lia|exact I|].
        split; [exact Hb|]. intros _.
        change (-25 + 149) with 124 in Hlo.
        eapply Z.le_trans; [|exact Hlo].
        assert (0 < 2 ^ (Zpos (digits2_pos pz) - 1))
          by (apply Z.pow_pos_nonneg; lia).
        assert (0 < 2 ^ 124) by (apply Z.pow_pos_nonneg; lia).
        set (P := 2 ^ 124) in *.
        set (Q := 2 ^ (Zpos (digits2_pos pz) - 1)) in *. nia.
      * destruct (binary_round_valid true pz (-25))
          as [->|(m' & e' & -> & Hb & Hlo)]; [lia|exact I|].
        split; [exact Hb|discriminate].
    + rewrite Z.min_l by lia.
      rewrite (shl_align_fst m e e) by lia.
      rewrite (shl_align_fst 8388608 (-25) e) by lia.
      rewrite Z.sub_diag, Z.mul_1_r.
      change (Zpos 8388608) with (2 ^ 23).
      assert (2 ^ 24 <= 2 ^ 23 * 2 ^ (-25 - e)).
      { rewrite <- Z.pow_add_r by lia. apply Z.pow_le_mono_r; lia. }
      cbn [cond_Zopp].
      set (Q := 2 ^ 23 * 2 ^ (-25 - e)) in *. set (T := 2 ^ 24) in *.
      assert (Hneg : cond_Zopp s (Zpos m) - Q < 0)
        by (destruct s; cbn [cond_Zopp]; lia).
      unfold binary_normalize.
      destruct (cond_Zopp s (Zpos m) - Q) as [|pz|pz]; [lia|lia|].
      destruct (binary_round_valid true pz e)
        as [->|(m' & e' & -> & Hb & Hlo)]; [lia|exact I|].
      split; [exact Hb|discriminate].
Qed.

Lemma mul_self_posf (m : positive) (e : Z) :
  bounded prec emax m e = true -> 2 ^ 124 <= Zpos m * 2 ^ (e + 149) ->
  posf (SFmul prec emax (S754_finite false m e) (S754_finite false m e)).
Proof.
  intros Hb Hlo. pose proof (bounded_inv m e Hb) as (He & Hm & _).
  assert (-49 < e).
  { destruct (Z.lt_ge_cases (-49) e) as [|Hge]; [assumption|exfalso].
    assert (2 ^ (e + 149) <= 2 ^ 100) by (apply Z.pow_le_mono_r; lia).
    assert (0 < 2 ^ (e + 149)) by (apply Z.pow_pos_nonneg; lia).
    change (2 ^ 124) with (2 ^ 24 * 2 ^ 100) in Hlo.
    set (P := 2 ^ (e + 149)) in *. set (Q := 2 ^ 100) in *.
    set (T := 2 ^ 24) in *. nia. }
  unfold SFmul. cbn [xorb].
  pose proof (binary_round_aux_signed false (m * m) (e + e) loc_Exact) as Hs.
  cbv beta in Hs. 
  assert (Hgoal : signed false
            (binary_round_aux prec emax false (Zpos (m * m)) (e + e) loc_Exact))
    by (apply Hs; pose proof (digits2_pos_pos (m * m)); lia).
  destruct (binary_round_aux prec emax false (Zpos (m * m)) (e + e) loc_Exact)
    as [s|s| |s m' e']; cbn [signed posf] in *; try contradiction.
  - subst s. exact I.
  - destruct Hgoal as [-> He']. exact He'.
Qed.

Lemma signed_posf (x : float32) : signed false x -> posf x.
Proof.
  destruct x as [s|s| |s m e]; cbn [signed posf]; try contradiction.
  - intros ->. exact I.
  - intros [-> He]. exact He.
Qed.

Lemma binary_round_posf (z : positive) (e : Z) :
  -149 <= e -> posf (binary_round prec emax false z e).
Proof.
  intros He.
  destruct (binary_round_valid false z e He) as [->|(m' & e' & -> & Hb & _)].
  - exact I.
  - apply bounded_inv in Hb. cbn [posf]. lia.
Qed.

(** Sums of floats that are zero or positive. *)
Lemma add_nnf (x y : float32) :
  nnf x -> nnf y ->
  (x = zero /\ y = zero /\ SFadd prec emax x y = zero) \/
  ((posf x \/ posf y) /\ posf (SFadd prec emax x y)).
Proof.
  intros [->|Hx] [->|Hy].
  - left. auto.
  - right. split; [auto|].
    destruct y as [s|s| |s m e]; cbn [posf] in Hy; try contradiction;
      destruct s; try contradiction; exact Hy.
  - right. split; [auto|].
    destruct x as [s|s| |s m e]; cbn [posf] in Hx; try contradiction;
      destruct s; try contradiction; exact Hx.
  - right. split; [auto|].
    destruct x as [sx|sx| |sx mx ex]; cbn [posf] in Hx; try contradiction;
      destruct sx; try contradiction;
      destruct y as [sy|sy| |sy my ey]; cbn [posf] in Hy; try contradiction;
      destruct sy; try contradiction; try exact I.
    unfold SFadd. cbn [cond_Zopp]. unfold binary_normalize.
    destruct (Zpos (fst (shl_align mx ex (Z.min ex ey)))
              + Zpos (fst (shl_align my ey (Z.min ex ey)))) as [|pz|pz] eqn:E;
      [lia| |lia].
    apply binary_round_posf. lia.
Qed.

Lemma sqrt_posf (x : float32) : posf x -> posf (SFsqrt prec emax x).
Proof.
  destruct x as [s|s| |s m e]; cbn [posf]; try contradiction;
    destruct s; try contradiction; intros He; [exact I|].
  unfold SFsqrt, SFsqrt_core_binary.
  set (e' := Z.min (fexp prec emax (Z.div2 (Zdigits2 (Zpos m) + e + 1)))
                   (Z.div2 e)).
  assert (He' : -149 <= e').
  { unfold e'. rewrite fexp_eq.
    assert (-75 <= Z.div2 e)
      by (rewrite Z.div2_div; apply Z.div_le_lower_bound; lia).
    lia. }
  assert (Hs : 0 <= e - 2 * e').
  { unfold e'.
    assert (2 * Z.div2 e <= e) by (rewrite Z.div2_div; apply Z.mul_div_le; lia).
    lia. }
  set (m' := match e - 2 * e' with
             | 0 => Zpos m
             | Zpos _ => Z.shiftl (Zpos m) (e - 2 * e')
             | Zneg _ => 0
             end).
  assert (Hm' : 1 <= m').
  { unfold m'. destruct (e - 2 * e') as [|ps|ps] eqn:Es; [lia| |lia].
    rewrite Z.shiftl_mul_pow2 by lia.
    assert (0 < 2 ^ Zpos ps) by (apply Z.pow_pos_nonneg; lia). nia. }
  pose proof (Z.sqrtrem_spec m' ltac:(lia)) as Hsq.
  destruct (Z.sqrtrem m') as [q r]. destruct Hsq as [Hq Hr].
  assert (1 <= q) by nia.
  destruct q as [|pq|pq]; [lia| |lia].
  apply signed_posf. apply binary_round_aux_signed.
  pose proof (digits2_pos_pos pq). lia.
Qed.

Lemma eqb_zero_posf (x : float32) : posf x -> SFeqb x zero = false.
Proof.
  destruct x as [s|s| |s m e]; cbn [posf]; try contradiction;
    destruct s; try contradiction; reflexivity.
Qed.

Lemma maxcomp_cases (q : Vec3f float32) :
  maxcomp q = vx q \/ maxcomp q = vy q \/ maxcomp q = vz q.
Proof.
  unfold maxcomp. cbn [fltb B32_Scalar].
  destruct (SFltb (vx q) (vy q)); destruct (SFltb _ (vz q)); auto.
Qed.

Lemma okq_ltb_pos (x : float32) :
  okq x -> SFltb zero x = true ->
  x = S754_infinity false \/
  exists m e, x = S754_finite false m e /\ bounded prec emax m e = true /\
              2 ^ 124 <= Zpos m * 2 ^ (e + 149).
Proof.
  destruct x as [s|s| |s m e]; cbn [okq]; try contradiction.
  - intros _ H. discriminate H.
  - intros _ H. destruct s; [discriminate H|]. left. reflexivity.
  - intros [Hb Hlo] H. destruct s; [discriminate H|]. right.
    exists m, e. split; [reflexivity|]. split; [exact Hb|].
    apply Hlo. reflexivity.
Qed.

Lemma okq_zero (x : float32) :
  okq x -> SFltb zero x = false -> SFltb x zero = false -> x = zero.
Proof.
  destruct x as [s|s| |s m e]; cbn [okq]; try contradiction.
  - intros -> _ _. reflexivity.
  - intros _ H1 H2. destruct s; [discriminate H2|discriminate H1].
  - intros _ H1 H2. destruct s; [discriminate H2|discriminate H1].
Qed.

(** The square of a component of [max (q, 0)]. *)
Lemma square_vmax (x : float32) :
  okq x ->
  let v := if SFltb zero x then x else zero in
  (SFltb zero x = false /\ SFmul prec emax v v = zero) \/
  (SFltb zero x = true /\ posf (SFmul prec emax v v)).
Proof.
  intros Hx v. unfold v. destruct (SFltb zero x) eqn:Hlt.
  - right. split; [reflexivity|].
    destruct (okq_ltb_pos x Hx Hlt) as [->|(m & e & -> & Hb & Hlo)].
    + exact I.
    + apply mul_self_posf; assumption.
  - left. split; reflexivity.
Qed.

Lemma abs_okt (x : float32) : usable x -> okt (SFabs x).
Proof.
  intros [Hv Hn]. destruct x as [s|s| |s m e]; cbn [SFabs okt];
    try exact I; try reflexivity; [contradiction|exact Hv].
Qed.

Lemma dec_half : (dec 1 2 : float32) = half.
Proof. vm_compute. reflexivity. Qed.

Lemma dec_quarter : (dec 1 4 : float32) = quarter.
Proof. vm_compute. reflexivity. Qed.

Lemma box_offset_okq (p : Vec3f float32) :
  usable (vx p) -> usable (vy p) -> usable (vz p) ->
  okq (vx (box_offset p)) /\ okq (vy (box_offset p)) /\ okq (vz (box_offset p)).
Proof.
  intros Hx Hy Hz. unfold box_offset, vsub, vabs, box_center, box_size.
  cbn [vx vy vz fsub fabs fromZ B32_Scalar]. rewrite !dec_half, !dec_quarter.
  change (of_Z 0) with zero.
  repeat split; apply sub_quarter_okq.
  - apply sub_finite_okt; [apply abs_okt; exact Hx|reflexivity].
  - apply sub_finite_okt; [apply abs_okt; exact Hy|reflexivity].
  - rewrite sub_zero_okt; apply abs_okt; exact Hz.
Qed.

Lemma posf_not_zero (x : float32) : posf x -> x <> zero.
Proof. intros Hx ->. exact Hx. Qed.

(** *** The product by [1.0f] *)




End Binary32Box.


(** ** The program in exact arithmetic *)

Section ExactFacts.
Import Exact.
Local Open Scope R_scope.

Lemma Rltb_true (x y : R) : Rltb x y = true <-> x < y.
Proof. unfold Rltb. destruct (Rlt_dec x y); split; intros; congruence || assumption. Qed.

Lemma Rltb_false (x y : R) : Rltb x y = false <-> y <= x.
Proof.
  unfold Rltb. destruct (Rlt_dec x y); split; intros; try lra; congruence.
Qed.

Lemma Rleb_true (x y : R) : Rleb x y = true <-> x <= y.
Proof. unfold Rleb. destruct (Rle_dec x y); split; intros; congruence || assumption. Qed.

Lemma Rleb_false (x y : R) : Rleb x y = false <-> y < x.
Proof.
  unfold Rleb. destruct (Rle_dec x y); split; intros; try lra; congruence.
Qed.

Lemma Reqb_true (x y : R) : Reqb x y = true <-> x = y.
Proof. unfold Reqb. destruct (Req_dec_T x y); split; intros; congruence || assumption. Qed.

(** *** [mod (f, 1)] is the fractional part *)

Lemma Int_part_bounds (f : R) : IZR (Int_part f) <= f < IZR (Int_part f) + 1.
Proof. destruct (base_Int_part f). lra. Qed.

Lemma Int_part_shift (f : R) (z : Z) : Int_part (f + IZR z) = (Int_part f + z)%Z.
Proof.
  symmetry. apply Int_part_spec. rewrite plus_IZR.
  pose proof (Int_part_bounds f). lra.
Qed.

Lemma frac_part_shift (f : R) (z : Z) : frac_part (f + IZR z) = frac_part f.
Proof. unfold frac_part. rewrite Int_part_shift, plus_IZR. lra. Qed.

Lemma frac_part_range (f : R) : 0 <= frac_part f < 1.
Proof. unfold frac_part. pose proof (Int_part_bounds f). lra. Qed.

Lemma mod_float_frac (n : nat) (f : R) :
  (mod_calls f <= n)%nat -> mod_float n f 1 = Some (frac_part f).
Proof.
  unfold mod_calls. revert f. induction n as [|n IH]; intros f Hn; [lia|].
  pose proof (Int_part_bounds f) as Hf. cbn [mod_float fltb fleb R_Scalar fromZ fadd fsub].
  destruct (Rltb f 0) eqn:Hneg.
  - apply Rltb_true in Hneg.
    assert (Int_part f < 0)%Z by (apply lt_IZR; lra).
    rewrite <- (frac_part_shift f 1). apply IH.
    rewrite Int_part_shift. lia.
  - apply Rltb_false in Hneg. destruct (Rleb 1 f) eqn:Hbig.
    + apply Rleb_true in Hbig.
      assert (0 < Int_part f)%Z by (apply lt_IZR; lra).
      replace (f - 1) with (f + IZR (-1)) by lra.
      rewrite <- (frac_part_shift f (-1)). apply IH.
      rewrite Int_part_shift. lia.
    + apply Rleb_false in Hbig. f_equal. unfold frac_part.
      assert (Int_part f = 0%Z) as ->; [|lra].
      symmetry. apply Int_part_spec. lra.
Qed.

Lemma mod_float_returns (f : R) :
  returns (fun fuel => mod_float fuel f 1) (frac_part f).
Proof. exists (mod_calls f). intros fuel. apply mod_float_frac. Qed.

(** In exact arithmetic [mod (f, 1)] returns for every [f], with a result in
    [[0, 1)]. *)
Lemma mod_float_exact_range (f : R) :
  exists r, returns (fun fuel => mod_float fuel f 1) r /\ 0 <= r < 1.
Proof.
  exists (frac_part f).
  split; [apply mod_float_returns|apply frac_part_range].
Qed.

Lemma mod_vec_returns (p : Vec3f R) :
  returns (fun fuel => mod_vec fuel p 1) (vfrac p).
Proof.
  exists (mod_calls (vx p) + mod_calls (vy p) + mod_calls (vz p))%nat.
  intros fuel Hfuel. unfold mod_vec.
  rewrite !mod_float_frac by lia. reflexivity.
Qed.

Lemma sphere_signed_distance_returns (p : Vec3f R) :
  returns (fun fuel => sphere_signed_distance fuel p) (sphere_distance p).
Proof.
  destruct (mod_vec_returns p) as [n Hn]. exists n. intros fuel Hfuel.
  unfold sphere_signed_distance. cbn [fromZ R_Scalar]. rewrite Hn by exact Hfuel.
  reflexivity.
Qed.

Lemma vfrac_translate (p : Vec3f R) (i j k : Z) :
  vfrac (translate p i j k) = vfrac p.
Proof.
  unfold vfrac, translate, vadd. cbn [vx vy vz fadd fromZ R_Scalar].
  rewrite !frac_part_shift. reflexivity.
Qed.

(** *** The box distance *)

Lemma maxcomp_Rmax (q : Vec3f R) :
  maxcomp q = Rmax (Rmax (vx q) (vy q)) (vz q).
Proof.
  unfold maxcomp. cbn [fltb R_Scalar].
  destruct (Rltb (vx q) (vy q)) eqn:Hxy;
    [apply Rltb_true in Hxy | apply Rltb_false in Hxy].
  - rewrite (Rmax_right (vx q)) by lra.
    destruct (Rltb (vy q) (vz q)) eqn:Hz;
      [apply Rltb_true in Hz; rewrite Rmax_right by lra
      |apply Rltb_false in Hz; rewrite Rmax_left by lra]; reflexivity.
  - rewrite (Rmax_left (vx q)) by lra.
    destruct (Rltb (vx q) (vz q)) eqn:Hz;
      [apply Rltb_true in Hz; rewrite Rmax_right by lra
      |apply Rltb_false in Hz; rewrite Rmax_left by lra]; reflexivity.
Qed.

Lemma dot_self_nonneg (a : Vec3f R) : 0 <= dot a a.
Proof. unfold dot. cbn [fadd fmul R_Scalar]. nra. Qed.

Lemma norm_nonneg (a : Vec3f R) : 0 <= norm a.
Proof. apply sqrt_pos. Qed.

Lemma norm_zero_inv (a : Vec3f R) :
  norm a = 0 -> vx a = 0 /\ vy a = 0 /\ vz a = 0.
Proof.
  intros Hn. apply sqrt_eq_0 in Hn; [|apply dot_self_nonneg].
  unfold dot in Hn. cbn [fadd fmul R_Scalar] in Hn. repeat split; nra.
Qed.

Lemma vmax_zero_inv (k : R) :
  (if Rltb 0 k then k else 0) = 0 -> k <= 0.
Proof.
  destruct (Rltb 0 k) eqn:Hk; [apply Rltb_true in Hk|apply Rltb_false in Hk];
    lra.
Qed.

(** The value returned by [box_signed_distance] is always [maxComp]. *)
Lemma box_signed_distance_maxcomp (p : Vec3f R) :
  box_signed_distance p = maxcomp (box_offset p).
Proof.
  unfold box_signed_distance, box_offset.
  set (q := vsub (vsub (vabs p) box_center) box_size).
  unfold truthy, of_bool. cbn [fltb feqb fadd fromZ R_Scalar].
  destruct (Reqb _ 0) eqn:Hc; [|reflexivity]. simpl.
  apply Reqb_true in Hc. pose proof (norm_nonneg (vmax q 0)) as Hn.
  destruct (Rltb (maxcomp q) 0) eqn:Hneg;
    [lra | apply Rltb_false in Hneg].
  assert (norm (vmax q 0) = 0) as H0 by lra.
  apply norm_zero_inv in H0 as (Hx & Hy & Hz).
  unfold vmax in Hx, Hy, Hz. cbn [vx vy vz fltb R_Scalar] in Hx, Hy, Hz.
  apply vmax_zero_inv in Hx, Hy, Hz.
  rewrite maxcomp_Rmax in *.
  apply Rle_antisym; [exact Hneg|].
  repeat apply Rmax_lub; assumption.
Qed.

Lemma dec_R (n d : Z) : dec n d = IZR n / IZR d.
Proof. reflexivity. Qed.

Lemma inside_bounding_box_spec (p : Vec3f R) :
  inside_bounding_box p = true <->
  Rabs (vx p - 1/2) < 1/4 /\ Rabs (vy p - 1/2) < 1/4 /\ Rabs (vz p - 0) < 1/4.
Proof.
  unfold inside_bounding_box, box_center, box_size.
  cbn [vx vy vz fltb fabs fsub fromZ R_Scalar]. rewrite !dec_R.
  rewrite !andb_true_iff, !Rltb_true. tauto.
Qed.

Lemma box_offset_R (p : Vec3f R) :
  box_offset p = mkVec3f (Rabs (vx p) - 1/2 - 1/4) (Rabs (vy p) - 1/2 - 1/4)
                         (Rabs (vz p) - 0 - 1/4).
Proof. reflexivity. Qed.

(** Inside the bounding box the distance is negative. *)
Lemma box_signed_distance_inside (p : Vec3f R) :
  inside_bounding_box p = true -> box_signed_distance p < 0.
Proof.
  rewrite inside_bounding_box_spec. intros (Hx & Hy & Hz).
  rewrite box_signed_distance_maxcomp, maxcomp_Rmax, box_offset_R.
  cbn [vx vy vz].
  apply Rabs_def2 in Hx, Hy, Hz.
  repeat apply Rmax_lub_lt; unfold Rabs; repeat destruct Rcase_abs; lra.
Qed.

(** The sign of the distance is decided by the box of half-size
    [box_center + box_size] around the origin. *)
Lemma box_signed_distance_positive (p : Vec3f R) :
  0 < box_signed_distance p <->
  3/4 < Rabs (vx p) \/ 3/4 < Rabs (vy p) \/ 1/4 < Rabs (vz p).
Proof.
  rewrite box_signed_distance_maxcomp, maxcomp_Rmax, box_offset_R.
  cbn [vx vy vz]. unfold Rmax. repeat destruct Rle_dec; lra.
Qed.

(** *** Unit vectors and the dot product *)


(** Cauchy-Schwarz for vectors of length at most one. *)
Lemma dot_le_1 (a b : Vec3f R) : dot a a <= 1 -> dot b b <= 1 -> dot a b <= 1.
Proof.
  unfold dot. cbn [fadd fmul R_Scalar]. intros Ha Hb.
  pose proof (Rle_0_sqr (vx a - vx b)). pose proof (Rle_0_sqr (vy a - vy b)).
  pose proof (Rle_0_sqr (vz a - vz b)). unfold Rsqr in *. lra.
Qed.

Lemma std_max_R (a b : R) : std_max a b = Rmax a b.
Proof.
  unfold std_max, Rmax. cbn [fltb R_Scalar].
  destruct (Rltb a b) eqn:Hab;
    [apply Rltb_true in Hab|apply Rltb_false in Hab];
    destruct (Rle_dec a b); lra.
Qed.

Lemma light_intensity_range (l n : Vec3f R) :
  dot l l <= 1 -> dot n n <= 1 -> 4/10 <= light_intensity l n <= 1.
Proof.
  intros Hl Hn. unfold light_intensity, ambient. rewrite std_max_R, dec_R.
  pose proof (dot_le_1 l n Hl Hn). split.
  - apply Rmax_l.
  - apply Rmax_lub; lra.
Qed.

(** [normalize] produces a vector of length one, or the zero vector from
    the zero vector (division by zero is zero in [R]). *)
Lemma dot_normalize (a : Vec3f R) : dot (normalize a) (normalize a) <= 1.
Proof.
  unfold normalize. cbn [dot vx vy vz fadd fmul fdiv R_Scalar].
  pose proof (dot_self_nonneg a) as Hs.
  destruct (Req_dec (dot a a) 0) as [H0|Hpos].
  - unfold norm. cbn [fsqrt R_Scalar]. rewrite H0, sqrt_0.
    unfold Rdiv. rewrite Rinv_0. lra.
  - assert (0 < norm a) as Hn by (apply sqrt_lt_R0; lra).
    assert (norm a * norm a = dot a a) as Hsq by (apply sqrt_def; lra).
    apply Req_le.
    replace (vx a / norm a * (vx a / norm a) + vy a / norm a * (vy a / norm a)
             + vz a / norm a * (vz a / norm a))
      with (dot a a / (norm a * norm a))
      by (unfold dot; cbn [fadd fmul R_Scalar]; field; lra).
    rewrite Hsq. field. lra.
Qed.

Lemma norm_normalize (a : Vec3f R) : dot a a <> 0 -> norm (normalize a) = 1.
Proof.
  intros Hne. pose proof (dot_self_nonneg a) as Hs.
  assert (0 < norm a) as Hn by (apply sqrt_lt_R0; lra).
  assert (norm a * norm a = dot a a) as Hsq by (apply sqrt_def; lra).
  unfold norm at 1. cbn [fsqrt R_Scalar].
  replace (dot (normalize a) (normalize a)) with 1; [apply sqrt_1|].
  unfold normalize. cbn [dot vx vy vz fadd fmul fdiv R_Scalar].
  replace (vx a / norm a * (vx a / norm a) + vy a / norm a * (vy a / norm a)
           + vz a / norm a * (vz a / norm a))
    with (dot a a / (norm a * norm a))
    by (unfold dot; cbn [fadd fmul R_Scalar]; field; lra).
  rewrite Hsq. field. lra.
Qed.


Lemma box_signed_distance_Rmax (p : Vec3f R) :
  box_signed_distance p
  = Rmax (Rmax (Rabs (vx p) - 3/4) (Rabs (vy p) - 3/4)) (Rabs (vz p) - 1/4).
Proof.
  rewrite box_signed_distance_maxcomp, maxcomp_Rmax, box_offset_R.
  cbn [vx vy vz]. f_equal; [f_equal|]; lra.
Qed.


(** *** Colours *)




(** *** The sink *)

Lemma Rtrunc_nonneg (x : R) : 0 <= x -> Rtrunc x = Int_part x.
Proof. intros Hx. unfold Rtrunc. destruct (Rle_dec 0 x); [reflexivity|lra]. Qed.

Lemma Rtrunc_neg (x : R) : x < 0 -> (Rtrunc x <= 0)%Z.
Proof.
  intros Hx. unfold Rtrunc. destruct (Rle_dec 0 x); [lra|].
  pose proof (Int_part_bounds (- x)).
  assert (-1 < Int_part (- x))%Z by (apply lt_IZR; lra). lia.
Qed.

Lemma sink_byte_R (c : R) :
  sink_byte c = Z.max 0 (Z.min 255 (Rtrunc (255 * c))).
Proof. unfold sink_byte. apply Z.mod_small. lia. Qed.

End ExactFacts.

(** ** The program on binary32 *)

Section B32Facts.
Import B32.
Local Open Scope nat_scope.

(** [2^25] is a binary32 number, and subtracting one from it gives it back
    (the difference [2^25 - 1] needs 25 bits and rounds to even). *)
Lemma big_finite : big = S754_finite false 8388608 2.
Proof. vm_compute. reflexivity. Qed.

Lemma big_not_negative : fltb big (fromZ 0) = false.
Proof. vm_compute. reflexivity. Qed.

Lemma big_at_least_one : fleb (fromZ 1) big = true.
Proof. vm_compute. reflexivity. Qed.

Lemma big_minus_one : fsub big (fromZ 1) = big.
Proof. vm_compute. reflexivity. Qed.

Lemma mod_float_big (fuel : nat) : mod_float fuel big (fromZ 1) = None.
Proof.
  induction fuel as [|fuel IH]; [reflexivity|].
  cbn [mod_float]. rewrite big_not_negative, big_at_least_one, big_minus_one.
  exact IH.
Qed.

Lemma sphere_signed_distance_big (fuel : nat) (y z : float32) :
  sphere_signed_distance fuel (mkVec3f big y z) = None.
Proof.
  unfold sphere_signed_distance, mod_vec. cbn [vx].
  rewrite mod_float_big. reflexivity.
Qed.

Lemma sphere_trace_big (fuel : nat) (y z : float32) (dir : Vec3f float32) :
  sphere_trace fuel (mkVec3f big y z) dir = None.
Proof.
  unfold sphere_trace, ray_steps. cbn [march].
  rewrite sphere_signed_distance_big. reflexivity.
Qed.

(** On binary32 the distance to the repeated sphere returns at every point
    whose coordinates are finite and at most [2^24] in magnitude. *)
Lemma mod_float_returns_binary32 (f : float32) :
  finite32 f = true -> SFleb (SFabs f) c24 = true ->
  exists r, returns (fun fuel => mod_float fuel f (fromZ 1)) r.
Proof.
  intros Hf Hle. pose proof (leb_c24 f Hf Hle) as Hv.
  change (fromZ 1 : float32) with (of_Z 1). rewrite of_Z_1.
  assert (exists n r, mod_float n f one = Some r) as (n & r & Hr).
  { destruct (Z.lt_ge_cases (val f) 0) as [Hneg|Hpos].
    - destruct (mod_float_neg (Z.to_nat (2 ^ 24)) f Hf) as (r & Hr & _);
        [|lia|eauto].
      rewrite Z2Nat.id by (apply Z.pow_nonneg; lia).
      change (2 ^ 24 * 2 ^ 149)%Z with (2 ^ 173)%Z. lia.
    - destruct (mod_float_nonneg (Z.to_nat (2 ^ 24)) f Hf) as (r & Hr & _);
        [|lia|eauto].
      rewrite Z2Nat.id by (apply Z.pow_nonneg; lia).
      change (2 ^ 173)%Z with (2 ^ 24 * 2 ^ 149)%Z in Hv. lia. }
  exists r, n. intros fuel Hfuel. eapply mod_float_fuel_mono; eassumption.
Qed.

Lemma sphere_signed_distance_returns_binary32 (p : Vec3f float32) :
  finite32 (vx p) = true -> SFleb (SFabs (vx p)) c24 = true ->
  finite32 (vy p) = true -> SFleb (SFabs (vy p)) c24 = true ->
  finite32 (vz p) = true -> SFleb (SFabs (vz p)) c24 = true ->
  exists d, returns (fun fuel => sphere_signed_distance fuel p) d.
Proof.
  intros Hx Hx' Hy Hy' Hz Hz'.
  destruct (mod_float_returns_binary32 _ Hx Hx') as (x & nx & Hnx).
  destruct (mod_float_returns_binary32 _ Hy Hy') as (y & ny & Hny).
  destruct (mod_float_returns_binary32 _ Hz Hz') as (z & nz & Hnz).
  eexists. exists (nx + ny + nz)%nat. intros fuel Hfuel.
  unfold sphere_signed_distance, mod_vec.
  rewrite Hnx, Hny, Hnz by lia. reflexivity.
Qed.

(** [trunc] is the truncation toward zero of the value. *)
Lemma trunc_val (x : float32) :
  finite32 x = true -> trunc x = (val x ÷ 2 ^ 149)%Z.
Proof.
  assert (H149 : (0 < 2 ^ 149)%Z) by (apply Z.pow_pos_nonneg; lia).
  destruct x as [s|s| |s m e]; cbn [finite32 trunc val]; try discriminate.
  - intros _. reflexivity.
  - intros Hb. apply bounded_inv in Hb as (He & _).
    assert (Hq : ((Zpos m * 2 ^ (e + 149)) ÷ 2 ^ 149
                  = match e with
                    | Zneg p => Z.shiftr (Zpos m) (Zpos p)
                    | _ => Z.shiftl (Zpos m) e
                    end)%Z).
    { rewrite Z.quot_div_nonneg
        by (try apply Z.mul_nonneg_nonneg; try apply Z.pow_nonneg; lia).
      destruct e as [|p|p].
      - simpl Z.shiftl. apply Z.div_mul. lia.
      - rewrite Z.shiftl_mul_pow2, Z.pow_add_r, Z.mul_assoc by lia.
        apply Z.div_mul. lia.
      - rewrite Z.shiftr_div_pow2 by lia.
        replace (2 ^ 149)%Z with (2 ^ Zpos p * 2 ^ (Zneg p + 149))%Z
          by (rewrite <- Z.pow_add_r by lia; f_equal; lia).
        rewrite Z.div_mul_cancel_r by (apply Z.pow_nonzero; lia).
        reflexivity. }
    destruct s; cbn [cond_Zopp].
    + rewrite Z.quot_opp_l by lia. rewrite Hq. reflexivity.
    + symmetry. exact Hq.
Qed.

(** *** Shading and the sphere tracer *)

Lemma SFltb_SFleb (x y : float32) : SFltb x y = true -> SFleb x y = true.
Proof.
  unfold SFltb, SFleb. destruct (SFcompare x y) as [[| |]|]; congruence.
Qed.

Lemma SFltb_not_nan (x y : float32) : SFltb x y = true -> y <> S754_nan.
Proof.
  intros Hlt ->. destruct x as [s|s| |s m e]; discriminate Hlt.
Qed.






Lemma tame_returns (p : Vec3f float32) :
  tame p = true ->
  exists d, returns (fun fuel => sphere_signed_distance fuel p) d.
Proof.
  unfold tame. rewrite !andb_true_iff.
  intros (((((Hx & Hx') & Hy) & Hy') & Hz) & Hz').
  apply sphere_signed_distance_returns_binary32; assumption.
Qed.

Lemma sphere_trace_tame (orig dir : Vec3f float32) :
  (forall k q, k < 128 ->
               reaches sphere_signed_distance dir orig k q ->
               tame q = true) ->
  exists r, returns (fun fuel => sphere_trace fuel orig dir) r.
Proof.
  intros Htame. unfold sphere_trace.
  apply (march_returns_iff sphere_signed_distance).
  - intros n m p d Hle. apply sphere_signed_distance_fuel_mono. exact Hle.
  - intros k q Hk Hq. apply tame_returns. exact (Htame k q Hk Hq).
Qed.

Lemma sphere_trace_returns_of_some (n : nat) (orig dir : Vec3f float32)
    (r : TraceResult float32) :
  sphere_trace n orig dir = Some r ->
  returns (fun fuel => sphere_trace fuel orig dir) r.
Proof.
  unfold sphere_trace. apply (march_returns_of_some sphere_signed_distance).
  intros n' m p d Hle. apply sphere_signed_distance_fuel_mono. exact Hle.
Qed.

Lemma sphere_trace_eye :
  exists r, returns (fun fuel => sphere_trace fuel eye_sphere down32) r /\
            hit r = false.
Proof.
  assert (Hh : hit <$> sphere_trace 40 eye_sphere down32 = Some false)
    by (vm_compute; reflexivity).
  destruct (sphere_trace 40 eye_sphere down32) as [r|] eqn:Hr;
    [|discriminate].
  exists r. split; [|simpl in Hh; congruence].
  apply (sphere_trace_returns_of_some 40). exact Hr.
Qed.

Lemma pixel_above_one :
  pixel_color 0 steep 2 2 1 0 = Some (mkVec3f above_one above_one above_one)
  /\ SFltb one above_one = true.
Proof. split; vm_compute; reflexivity. Qed.

End B32Facts.

(** ** The properties of the specification *)

Section Claims.
Import Exact B32.
Local Open Scope R_scope.

(** C1. Box SDF sign agreement, evaluated at the origin.  The origin is not
    inside the bounding box of centre [box_center = (0.5, 0.5, 0)] and
    half-size [box_size = (0.25, 0.25, 0.25)] (on the x axis
    [|0 - 0.5| = 0.5 >= 0.25]), so the property asks for a positive distance
    there; [box_signed_distance] returns [-0.25], in exact arithmetic and on
    binary32 alike. *)
Theorem box_signed_distance_origin :
  inside_bounding_box (mkVec3f 0 0 0 : Vec3f R) = false /\
  box_signed_distance (mkVec3f 0 0 0 : Vec3f R) = - (1/4) /\
  inside_bounding_box (mkVec3f (of_Z 0) (of_Z 0) (of_Z 0)) = false /\
  box_signed_distance (mkVec3f (of_Z 0) (of_Z 0) (of_Z 0))
  = S754_finite true 8388608 (-25).
Proof.
  split; [|split; [|split; vm_compute; reflexivity]].
  - apply not_true_is_false. rewrite inside_bounding_box_spec.
    cbn [vx vy vz]. intros (Hx & _). apply Rabs_def2 in Hx. lra.
  - rewrite box_signed_distance_maxcomp, maxcomp_Rmax, box_offset_R.
    cbn [vx vy vz]. rewrite Rabs_R0. unfold Rmax.
    repeat destruct Rle_dec; lra.
Qed.

(** C2. For every point [p], [box_signed_distance p] is exactly
    [maxcomp (abs p - box_center - box_size)]: the conditional of the return
    line always selects [maxComp], because whenever its condition
    [norm (max (q, 0)) + (maxComp < 0)] is zero, [maxComp] is zero too.  The
    norm of the exterior part never reaches the result. *)
Theorem box_signed_distance_is_maxcomp (p : Vec3f R) :
  let q := vsub (vsub (vabs p) box_center) box_size in
  box_signed_distance p = maxcomp q /\
  (norm (vmax q 0) + of_bool (fltb (maxcomp q) 0) = 0 -> maxcomp q = 0).
Proof.
  intros q. pose proof (box_signed_distance_maxcomp p) as Hbox.
  split; [exact Hbox|]. intros Hc.
  assert (truthy (fadd (norm (vmax q (fromZ 0)))
                       (of_bool (fltb (maxcomp q) (fromZ 0)))) = false) as Ht.
  { unfold truthy. apply negb_false_iff. apply Reqb_true. exact Hc. }
  unfold box_signed_distance in Hbox. fold q in Hbox. rewrite Ht in Hbox.
  symmetry. exact Hbox.
Qed.

(** C3, on binary32, for the call [sphere_trace ((2^25, 0, 0), (0, 0, -1))]:
    its first evaluation of the distance function never returns, so the
    call does not terminate. *)
Lemma sphere_trace_diverges_on_binary32 :
  ~ exists fuel r,
      sphere_trace fuel (mkVec3f big (of_Z 0) (of_Z 0)) down32 = Some r.
Proof.
  intros (fuel & r & Hr). rewrite sphere_trace_big in Hr. discriminate.
Qed.

(** C3, as the code has it.  In every arithmetic a call of [box_trace]
    returns, after at most 128 evaluations of the distance function, and
    its result is a miss exactly when no evaluation was negative; a call of
    [sphere_trace] that returns obeys the same budget and the same miss
    rule; and a call of [sphere_trace] returns exactly when every
    evaluation of [sphere_signed_distance] that its loop makes returns.
    In exact arithmetic every call of [sphere_trace] returns.  On binary32
    a call returns whenever the points that its loop evaluates have
    finite coordinates of magnitude at most [2^24]; the call from the
    sphere camera [(1, 1, 3)] along [(0, 0, -1)] is one that returns. *)
Theorem trace_step_budget :
  (forall (F : Type) (SF : Scalar F) (orig dir : Vec3f F),
      (exists r, box_trace orig dir = Some r /\
         (length (evals r) <= 128)%nat /\
         (hit r = false <->
          Forall (fun d => fltb d (fromZ 0) = false) (evals r))) /\
      (forall fuel r, sphere_trace fuel orig dir = Some r ->
         (length (evals r) <= 128)%nat /\
         (hit r = false <->
          Forall (fun d => fltb d (fromZ 0) = false) (evals r))) /\
      ((forall k q, (k < 128)%nat ->
          reaches sphere_signed_distance dir orig k q ->
          exists d, returns (fun fuel => sphere_signed_distance fuel q) d)
       <-> exists r, returns (fun fuel => sphere_trace fuel orig dir) r)) /\
  (forall orig dir : Vec3f R,
      exists r, returns (fun fuel => sphere_trace fuel orig dir) r) /\
  (forall orig dir : Vec3f float32,
      (forall k q, (k < 128)%nat ->
         reaches sphere_signed_distance dir orig k q -> tame q = true) ->
      exists r, returns (fun fuel => sphere_trace fuel orig dir) r) /\
  (exists r, returns (fun fuel => sphere_trace fuel eye_sphere down32) r).
Proof.
  split; [|split; [|split]].
  - intros F SF orig dir. split; [|split].
    + destruct (march_total box_signed_distance ray_steps dir orig)
        as [r Hr].
      exists r. split; [exact Hr|]. apply march_budget in Hr. exact Hr.
    + intros fuel r Hr. apply march_budget in Hr. exact Hr.
    + unfold sphere_trace.
      apply (march_returns_iff sphere_signed_distance).
      intros n m p d Hle. apply sphere_signed_distance_fuel_mono. exact Hle.
  - intros orig dir. unfold sphere_trace.
    apply (march_returns sphere_signed_distance sphere_distance
             ray_steps dir sphere_signed_distance_returns).
  - intros orig dir. apply sphere_trace_tame.
  - destruct sphere_trace_eye as (r & Hr & _). exists r. exact Hr.
Qed.

(** C4, on binary32, for the point [p = (0, 0, 0)] and the triple
    [(2^25, 0, 0)]: the distance function returns at [p] and does not
    return at [p + (2^25, 0, 0)]. *)
Lemma sphere_signed_distance_not_periodic_on_binary32 :
  (exists d, returns (fun fuel => sphere_signed_distance fuel origin32) d) /\
  ~ exists fuel d,
      sphere_signed_distance fuel (translate origin32 (2 ^ 25) 0 0) = Some d.
Proof.
  split.
  - exists (S754_finite false 15337958 (-25)), 1%nat. intros fuel Hfuel.
    destruct fuel as [|fuel]; [lia|]. vm_compute. reflexivity.
  - intros (fuel & d & Hd).
    change (translate origin32 (2 ^ 25) 0 0)
      with (mkVec3f (fadd (of_Z 0) big) (fadd (of_Z 0) (of_Z 0))
              (fadd (of_Z 0) (of_Z 0))) in Hd.
    replace (fadd (of_Z 0) big) with big in Hd by (vm_compute; reflexivity).
    rewrite sphere_signed_distance_big in Hd. discriminate.
Qed.

(** C4, as the code has it: in exact arithmetic, for every point [p] and
    every integer triple [(i, j, k)], [sphere_signed_distance] returns the
    same distance at [p] and at [p + (i, j, k)]. *)
Theorem sphere_signed_distance_periodic (p : Vec3f R) (i j k : Z) :
  exists d,
    returns (fun fuel => sphere_signed_distance fuel p) d /\
    returns (fun fuel => sphere_signed_distance fuel (translate p i j k)) d.
Proof.
  exists (sphere_distance p). split.
  - apply sphere_signed_distance_returns.
  - replace (sphere_distance p) with (sphere_distance (translate p i j k)).
    + apply sphere_signed_distance_returns.
    + unfold sphere_distance. rewrite vfrac_translate. reflexivity.
Qed.

(** C5, for the finite binary32 number [2^25]: the call [mod (2^25, 1)]
    returns for no amount of fuel, i.e. the recursion of the source never
    ends. *)
Lemma mod_float_diverges_on_binary32 :
  big = S754_finite false 8388608 2 /\
  ~ exists fuel r, mod_float fuel big (fromZ 1) = Some r.
Proof.
  split; [apply big_finite|].
  intros (fuel & r & Hr). rewrite mod_float_big in Hr. discriminate.
Qed.

(** C5, as the code has it: for every finite binary32 number [f] with
    [|f| <= 2^24], negative or not, the call [mod (f, 1)] returns, and its
    result [r] is a finite float with [0 <= r] and [r < 1]. *)
Theorem mod_float_binary32_range (f : float32) :
  finite32 f = true ->
  SFleb (SFabs f) (of_Z (2 ^ 24)) = true ->
  exists r, returns (fun fuel => mod_float fuel f (fromZ 1)) r /\
            finite32 r = true /\
            SFleb (fromZ 0) r = true /\ SFltb r (fromZ 1) = true.
Proof.
  intros Hf Hle. rewrite of_Z_2p24 in Hle.
  change (fromZ 1 : float32) with (of_Z 1).
  change (fromZ 0 : float32) with (of_Z 0). rewrite of_Z_0, of_Z_1.
  pose proof (leb_c24 f Hf Hle) as Hv.
  assert (H149 : (0 < 2 ^ 149)%Z) by (apply Z.pow_pos_nonneg; lia).
  assert (exists n r, mod_float n f one = Some r /\
                      finite32 r = true /\ (0 <= val r < 2 ^ 149)%Z)
    as (n & r & Hr & Hfr & Hvr).
  { destruct (Z.lt_ge_cases (val f) 0) as [Hneg|Hpos].
    - destruct (mod_float_neg (Z.to_nat (2 ^ 24)) f Hf) as (r & Hr);
        [|lia|eauto].
      rewrite Z2Nat.id by (apply Z.pow_nonneg; lia).
      change (2 ^ 24 * 2 ^ 149)%Z with (2 ^ 173)%Z. lia.
    - destruct (mod_float_nonneg (Z.to_nat (2 ^ 24)) f Hf) as (r & Hr);
        [|lia|eauto].
      rewrite Z2Nat.id by (apply Z.pow_nonneg; lia).
      change (2 ^ 173)%Z with (2 ^ 24 * 2 ^ 149)%Z in Hv. lia. }
  exists r. split; [|split; [exact Hfr|split]].
  - exists n. intros fuel Hfuel. eapply mod_float_fuel_mono; eassumption.
  - apply leb_zero; [exact Hfr|lia].
  - apply ltb_one; assumption.
Qed.

Lemma mod_float_binary32_range_witness :
  finite32 (dec (-37) 10) = true /\
  SFleb (SFabs (dec (-37) 10)) (of_Z (2 ^ 24)) = true /\
  exists r, returns (fun fuel => mod_float fuel (dec (-37) 10) (fromZ 1)) r /\
            finite32 r = true /\
            SFleb (fromZ 0) r = true /\ SFltb r (fromZ 1) = true.
Proof.
  split; [vm_compute; reflexivity|]. split; [vm_compute; reflexivity|].
  apply (mod_float_binary32_range (dec (-37) 10)); vm_compute; reflexivity.
Defined.






(** C10, at the component [c = 7/16]: [255 * c = 111.5625]; the byte
    written is 111, the quantization of the specification is 112. *)
Lemma sink_byte_is_not_rounded :
  sink_byte (7/16 : R) = 111%Z /\ spec_quantize (7/16) = 112%Z /\
  sink_byte (dec 7 16 : float32) = 111%Z.
Proof.
  split; [|split].
  - rewrite sink_byte_R, Rtrunc_nonneg by lra.
    rewrite <- (Int_part_spec (255 * (7/16)) 111) by lra. reflexivity.
  - unfold spec_quantize, round_nearest.
    destruct (Rle_dec 0 (255 * (7/16))); [|lra].
    rewrite <- (Int_part_spec (255 * (7/16) + 1/2) 112) by lra. reflexivity.
  - vm_compute. reflexivity.
Qed.

(** C10, as the code has it: the conversion truncates [255 * c] toward
    zero before clamping.  A negative component gives 0; a component with
    [0 <= 255 * c < 256] gives the integer part of [255 * c], the one byte
    [b] with [b <= 255 * c < b + 1]; a larger component gives 255. *)
Theorem sink_byte_truncates (c : R) :
  (c < 0 -> sink_byte c = 0%Z) /\
  (0 <= c -> 255 * c < 256 ->
   IZR (sink_byte c) <= 255 * c < IZR (sink_byte c) + 1) /\
  (256 <= 255 * c -> sink_byte c = 255%Z).
Proof.
  rewrite sink_byte_R. split; [|split].
  - intros Hc. assert (255 * c < 0) as Hn by lra.
    apply Rtrunc_neg in Hn. lia.
  - intros Hc Hlt. rewrite Rtrunc_nonneg by lra.
    pose proof (Int_part_bounds (255 * c)) as Hb.
    assert (-1 < Int_part (255 * c) < 256)%Z
      by (split; apply lt_IZR; lra).
    replace (Z.max 0 (Z.min 255 (Int_part (255 * c))))
      with (Int_part (255 * c)) by lia.
    exact Hb.
  - intros Hc. rewrite Rtrunc_nonneg by lra.
    pose proof (Int_part_bounds (255 * c)) as Hb.
    assert (255 < Int_part (255 * c) + 1)%Z by (apply lt_IZR; rewrite plus_IZR; lra).
    lia.
Qed.

End Claims.
(** ** Further properties of the program

    The properties below are read off the code; each is stated for the
    arithmetic it is proved in. *)

(** *** The loops, in every arithmetic *)

Section Loops.
Context {F : Type} `{Scalar F}.

(** A hit ends at a point where the distance function returned a negative
    value, the last one evaluated. *)
Lemma march_hit (sdf : Vec3f F -> option F) (steps : nat)
    (dir p : Vec3f F) (r : TraceResult F) :
  march sdf steps dir p = Some r -> hit r = true ->
  exists d, sdf (pos r) = Some d /\ fltb d (fromZ 0) = true /\
            last (evals r) = Some d.
Proof.
  revert p r. induction steps as [|k IH]; intros p r Hr Hhit; simpl in Hr.
  - injection Hr as <-. discriminate.
  - destruct (sdf p) as [d|] eqn:Hd; [simpl in Hr|discriminate].
    destruct (fltb d (fromZ 0)) eqn:Hneg.
    + injection Hr as <-. simpl. eauto.
    + destruct (march sdf k dir _) as [r'|] eqn:Hk; [simpl in Hr|discriminate].
      injection Hr as <-. simpl in *.
      destruct (IH _ _ Hk Hhit) as (d' & Hd' & Hneg' & Hlast).
      exists d'. split; [exact Hd'|]. split; [exact Hneg'|].
      destruct (evals r') as [|e es]; [discriminate|exact Hlast].
Qed.

(** X1. What the tracers return, in every arithmetic.  [box_trace] always
    returns; when it reports a hit, the position handed back is the point
    of the last evaluation and the distance there is negative; when it
    reports a miss, the distance function has been evaluated exactly 128
    times.  A call of [sphere_trace] that returns obeys the same two
    rules. *)
Theorem trace_postcondition (fuel : nat) (orig dir : Vec3f F) :
  (exists r, box_trace orig dir = Some r /\
     (hit r = true ->
        fltb (box_signed_distance (pos r)) (fromZ 0) = true /\
        last (evals r) = Some (box_signed_distance (pos r))) /\
     (hit r = false -> length (evals r) = 128)) /\
  (forall r, sphere_trace fuel orig dir = Some r ->
     (hit r = true ->
        exists d, sphere_signed_distance fuel (pos r) = Some d /\
                  fltb d (fromZ 0) = true /\ last (evals r) = Some d) /\
     (hit r = false -> length (evals r) = 128)).
Proof.
  split.
  - destruct (march_total box_signed_distance ray_steps dir orig) as [r Hr].
    exists r. split; [exact Hr|]. split.
    + intros Hhit.
      destruct (march_hit _ _ _ _ _ Hr Hhit) as (d & Hd & Hneg & Hlast).
      injection Hd as <-. auto.
    + intros Hmiss. exact (march_miss_length _ _ _ _ _ Hr Hmiss).
  - intros r Hr. split.
    + intros Hhit. exact (march_hit _ _ _ _ _ Hr Hhit).
    + intros Hmiss. exact (march_miss_length _ _ _ _ _ Hr Hmiss).
Qed.

(** X2. [mod] is idempotent, in every arithmetic: a value [r] returned by
    [mod (f, v)] is returned unchanged, by the first call, when
    [mod (r, v)] is evaluated. *)
Theorem mod_float_idempotent (n : nat) (f v r : F) :
  mod_float n f v = Some r -> forall m, mod_float (S m) r v = Some r.
Proof.
  intros Hr m. apply mod_float_guards in Hr as [Hlt Hge].
  simpl. rewrite Hlt, Hge. reflexivity.
Qed.

Lemma sink_byte_is_byte (c : F) : is_byte (sink_byte c).
Proof.
  unfold is_byte, sink_byte.
  rewrite Z.mod_small by lia. lia.
Qed.

Lemma sink_bytes_length (fb : list (Vec3f F)) :
  length (sink_bytes fb) = 3 * length fb.
Proof.
  induction fb as [|v fb IH]; [reflexivity|].
  change (sink_bytes (v :: fb))
    with (sink_byte (vget v 0) :: sink_byte (vget v 1) :: sink_byte (vget v 2)
          :: sink_bytes fb).
  cbn [length]. rewrite IH. simpl. lia.
Qed.

Lemma sink_bytes_are_bytes (fb : list (Vec3f F)) :
  Forall is_byte (sink_bytes fb).
Proof.
  induction fb as [|v fb IH]; [constructor|].
  change (sink_bytes (v :: fb))
    with (sink_byte (vget v 0) :: sink_byte (vget v 1) :: sink_byte (vget v 2)
          :: sink_bytes fb).
  repeat (constructor; [apply sink_byte_is_byte|]). exact IH.
Qed.

End Loops.

Section StreamFacts.
Context {F : Type} `{Scalar F}.

Lemma bytes_of_string_are_bytes (s : String.string) :
  Forall is_byte (bytes_of_string s).
Proof.
  unfold bytes_of_string. apply Forall_fmap, Forall_forall. intros c _.
  unfold is_byte. simpl. pose proof (Ascii.nat_ascii_bounded c). lia.
Qed.

Lemma bytes_of_string_length (s : String.string) :
  length (bytes_of_string s) = String.length s.
Proof.
  unfold bytes_of_string. rewrite length_fmap.
  induction s as [|c s IH]; simpl; [reflexivity|]. rewrite IH. reflexivity.
Qed.

(** X3. The layout of [out.ppm], in every arithmetic and for every image
    size: the render loop returns, and the stream is the header followed
    by the three bytes of every framebuffer entry, in order, that is
    [3 * width * height] bytes; every byte of the stream lies between 0
    and 255, the maximum that the header announces.  For the image of
    [main], 640 x 480, the header is the 15 bytes of the lines P6,
    640 480 and 255. *)
Theorem ppm_file_layout (fuel : nat) (tan_half_fov : F) (w h : nat) :
  exists cv,
    render fuel tan_half_fov w h = Some cv /\
    ppm_file w h (framebuffer cv)
    = bytes_of_string (ppm_header w h) ++ sink_bytes (framebuffer cv) /\
    length (sink_bytes (framebuffer cv)) = 3 * (w * h) /\
    length (ppm_file w h (framebuffer cv))
    = String.length (ppm_header w h) + 3 * (w * h) /\
    Forall is_byte (ppm_file w h (framebuffer cv)) /\
    bytes_of_string (ppm_header width height)
    = [80; 54; 10; 54; 52; 48; 32; 52; 56; 48; 10; 50; 53; 53; 10]%Z.
Proof.
  exists (paint tan_half_fov w h (blank w h) (pixels w h)).
  split; [apply render_paint|].
  set (cv := paint tan_half_fov w h (blank w h) (pixels w h)).
  assert (Hlen : length (framebuffer cv) = w * h)
    by (unfold cv; rewrite paint_length; apply blank_length).
  assert (Htake : take (h * w) (framebuffer cv) = framebuffer cv)
    by (apply take_ge; lia).
  unfold ppm_file. rewrite Htake. split; [reflexivity|].
  split; [rewrite sink_bytes_length, Hlen; reflexivity|]. split.
  - rewrite length_app, bytes_of_string_length, sink_bytes_length, Hlen.
    reflexivity.
  - split; [|vm_compute; reflexivity].
    apply Forall_app. split.
    + apply bytes_of_string_are_bytes.
    + apply sink_bytes_are_bytes.
Qed.

End StreamFacts.

Lemma mod_float_idempotent_witness :
  mod_float 3 (dec 5 2 : B32.float32) (fromZ 1) = Some B32.half /\
  forall m, mod_float (S m) B32.half (fromZ 1 : B32.float32) = Some B32.half.
Proof.
  split; [vm_compute; reflexivity|].
  apply (mod_float_idempotent 3 (dec 5 2 : B32.float32) (fromZ 1) B32.half).
  vm_compute. reflexivity.
Defined.

(** *** [mod] in exact arithmetic *)

Section ExactMod.
Import Exact.
Local Open Scope R_scope.

(** *** [mod (f, v)] for any modulus *)

Lemma Int_part_div_shift (f v : R) (z : Z) :
  0 < v -> Int_part ((f + IZR z * v) / v) = (Int_part (f / v) + z)%Z.
Proof.
  intros Hv.
  replace ((f + IZR z * v) / v) with (f / v + IZR z) by (field; lra).
  apply Int_part_shift.
Qed.

Lemma div_bounds (f v : R) :
  0 < v -> IZR (Int_part (f / v)) * v <= f < (IZR (Int_part (f / v)) + 1) * v.
Proof.
  intros Hv. pose proof (Int_part_bounds (f / v)) as [Hlo Hhi].
  assert (f = f / v * v) as E by (field; lra).
  split.
  - rewrite E at 2. apply Rmult_le_compat_r; lra.
  - rewrite E at 1. apply Rmult_lt_compat_r; lra.
Qed.

Lemma mod_float_steps (n : nat) (f v : R) :
  0 < v ->
  mod_float n f v
  = if (mod_cost f v <=? n)%nat then Some (f - IZR (Int_part (f / v)) * v)
    else None.
Proof.
  intros Hv. unfold mod_cost. revert f.
  induction n as [|n IH]; intros f; [reflexivity|].
  pose proof (div_bounds f v Hv) as Hf.
  cbn [mod_float fltb fleb R_Scalar fromZ fadd fsub].
  destruct (Rltb f 0) eqn:Hneg.
  - apply Rltb_true in Hneg.
    assert (Int_part (f / v) < 0)%Z.
    { apply lt_IZR.
      destruct (Rlt_dec (IZR (Int_part (f / v))) 0); [assumption|].
      assert (0 <= IZR (Int_part (f / v)) * v)
        by (apply Rmult_le_pos; lra).
      lra. }
    rewrite IH. replace (f + v) with (f + IZR 1 * v) by lra.
    rewrite Int_part_div_shift by exact Hv.
    replace (S (Z.abs_nat (Int_part (f / v))))
      with (S (S (Z.abs_nat (Int_part (f / v) + 1)))) by lia.
    change (S (S ?a) <=? S n)%nat with (S a <=? n)%nat.
    destruct (_ <=? n)%nat; [|reflexivity].
    f_equal. rewrite plus_IZR. lra.
  - apply Rltb_false in Hneg. destruct (Rleb v f) eqn:Hbig.
    + apply Rleb_true in Hbig.
      assert (0 < Int_part (f / v))%Z.
      { apply lt_IZR.
        destruct (Rlt_dec 0 (IZR (Int_part (f / v)))); [assumption|].
        assert (IZR (Int_part (f / v)) + 1 <= 1) by lra.
        assert ((IZR (Int_part (f / v)) + 1) * v <= 1 * v)
          by (apply Rmult_le_compat_r; lra). lra. }
      rewrite IH. replace (f - v) with (f + IZR (-1) * v) by lra.
      rewrite Int_part_div_shift by exact Hv.
      replace (S (Z.abs_nat (Int_part (f / v))))
        with (S (S (Z.abs_nat (Int_part (f / v) + -1)))) by lia.
      change (S (S ?a) <=? S n)%nat with (S a <=? n)%nat.
      destruct (_ <=? n)%nat; [|reflexivity].
      f_equal. rewrite plus_IZR. lra.
    + apply Rleb_false in Hbig.
      assert (Int_part (f / v) = 0%Z) as ->.
      { symmetry. apply Int_part_spec.
        assert (0 <= f / v)
          by (apply Rmult_le_pos; [lra|left; apply Rinv_0_lt_compat; lra]).
        assert (f / v < 1)
          by (apply Rmult_lt_reg_r with v; [lra|];
              replace (f / v * v) with f by (field; lra); lra).
        simpl. lra. }
      simpl. f_equal. lra.
Qed.

(** X4. [mod (f, v)] in exact arithmetic, for a modulus [0 < v]: with [k]
    the integer for which [f - k v] lies in [[0, v)] (the integer part of
    [f / v]), the call returns [f - k v] after exactly [1 + |k|] calls of
    [mod]: with that much fuel the result is [f - k v], with less the
    call has not returned.  The depth of the recursion grows linearly
    with [|f| / v]. *)
Theorem mod_float_exact (f v : R) (n : nat) :
  0 < v ->
  exists k : Z,
    0 <= f - IZR k * v < v /\
    mod_float n f v
    = (if (S (Z.abs_nat k) <=? n)%nat then Some (f - IZR k * v) else None).
Proof.
  intros Hv. exists (Int_part (f / v)). split.
  - pose proof (div_bounds f v Hv). lra.
  - apply mod_float_steps. exact Hv.
Qed.

Lemma mod_float_exact_witness :
  0 < 1/2 /\
  exists k : Z,
    0 <= -37/10 - IZR k * (1/2) < 1/2 /\
    mod_float 20 (-37/10) (1/2)
    = (if (S (Z.abs_nat k) <=? 20)%nat then Some (-37/10 - IZR k * (1/2))
       else None).
Proof.
  split; [lra|]. apply (mod_float_exact (-37/10) (1/2) 20). lra.
Defined.

(** X5. With a modulus [v <= 0] the call [mod (f, v)] returns for no [f],
    in exact arithmetic: a negative [f] moves further down, and any other
    [f] satisfies [f >= v] and moves further up. *)
Theorem mod_float_nonpositive_modulus (fuel : nat) (f v : R) :
  v <= 0 -> mod_float fuel f v = None.
Proof.
  intros Hv. revert f. induction fuel as [|n IH]; intros f; [reflexivity|].
  cbn [mod_float fltb fleb R_Scalar fromZ].
  destruct (Rltb f 0) eqn:Hneg; [apply IH|].
  apply Rltb_false in Hneg.
  assert (Rleb v f = true) as -> by (apply Rleb_true; lra).
  apply IH.
Qed.

Lemma mod_float_nonpositive_modulus_witness :
  0 <= 0 /\ mod_float 10 (1 : R) 0 = None.
Proof.
  split; [lra|]. apply (mod_float_nonpositive_modulus 10 1 0). lra.
Defined.

End ExactMod.

Section ExactGeometry.
Import Exact.
Local Open Scope R_scope.

(** *** The box distance as a function of the point *)

Lemma Rmax_lipschitz (a b c d : R) :
  Rabs (Rmax a b - Rmax c d) <= Rmax (Rabs (a - c)) (Rabs (b - d)).
Proof.
  unfold Rmax, Rabs.
  repeat destruct Rle_dec; repeat destruct Rcase_abs; lra.
Qed.

Lemma Rabs_lipschitz (a b k : R) :
  Rabs ((Rabs a - k) - (Rabs b - k)) <= Rabs (a - b).
Proof. unfold Rabs. repeat destruct Rcase_abs; lra. Qed.

Lemma box_lipschitz (p p' : Vec3f R) :
  Rabs (box_signed_distance p - box_signed_distance p') <= sup_dist p p'.
Proof.
  rewrite !box_signed_distance_Rmax. unfold sup_dist.
  eapply Rle_trans; [apply Rmax_lipschitz|].
  apply Rmax_lub.
  - eapply Rle_trans; [apply Rmax_lipschitz|].
    eapply Rle_trans; [|apply Rmax_l].
    apply Rmax_lub.
    + eapply Rle_trans; [apply Rabs_lipschitz|apply Rmax_l].
    + eapply Rle_trans; [apply Rabs_lipschitz|apply Rmax_r].
  - eapply Rle_trans; [apply Rabs_lipschitz|apply Rmax_r].
Qed.

(** X6. The box distance changes no faster than the point moves, in exact
    arithmetic: the distances at two points differ by at most the largest
    difference of their coordinates, which is at most their Euclidean
    distance. *)
Theorem box_signed_distance_lipschitz (p p' : Vec3f R) :
  Rabs (box_signed_distance p - box_signed_distance p') <= sup_dist p p' /\
  sup_dist p p' <= norm (vsub p p').
Proof.
  split; [apply box_lipschitz|].
  unfold sup_dist, norm, dot, vsub.
  cbn [vx vy vz fsub fadd fmul fsqrt R_Scalar].
  set (a := vx p - vx p'). set (b := vy p - vy p'). set (c := vz p - vz p').
  assert (Hk : forall k s, 0 <= s -> k * k <= s -> Rabs k <= sqrt s).
  { intros k s Hs Hk. rewrite <- sqrt_Rsqr_abs. apply sqrt_le_1_alt.
    unfold Rsqr. exact Hk. }
  repeat apply Rmax_lub; apply Hk; nra.
Qed.

(** X7. The solid of [box_signed_distance], in exact arithmetic: the value
    is [max (|x| - 3/4, |y| - 3/4, |z| - 1/4)]; it is negative exactly
    inside the box [|x| < 3/4], [|y| < 3/4], [|z| < 1/4] around the
    origin; and it is never below [-1/4]. *)
Theorem box_signed_distance_solid (p : Vec3f R) :
  box_signed_distance p
  = Rmax (Rmax (Rabs (vx p) - 3/4) (Rabs (vy p) - 3/4)) (Rabs (vz p) - 1/4) /\
  (box_signed_distance p < 0 <->
   Rabs (vx p) < 3/4 /\ Rabs (vy p) < 3/4 /\ Rabs (vz p) < 1/4) /\
  - (1/4) <= box_signed_distance p.
Proof.
  rewrite box_signed_distance_Rmax. split; [reflexivity|].
  pose proof (Rabs_pos (vx p)). pose proof (Rabs_pos (vy p)).
  pose proof (Rabs_pos (vz p)).
  unfold Rmax; repeat destruct Rle_dec; split; lra.
Qed.

(** *** The marching loop along the ray *)

Lemma ray_point_0 (p dir : Vec3f R) : ray_point p dir 0 = p.
Proof.
  destruct p as [x y z]. unfold ray_point, vadd, vscale.
  cbn [vx vy vz fadd fmul R_Scalar]. f_equal; lra.
Qed.

Lemma ray_point_step (p dir : Vec3f R) (s t : R) :
  ray_point (vadd p (vscale dir s)) dir t = ray_point p dir (s + t).
Proof.
  unfold ray_point, vadd, vscale.
  cbn [vx vy vz fadd fmul R_Scalar]. f_equal; lra.
Qed.

Lemma step_length (d : R) : 1/100 <= std_max (d * dec 1 10) (dec 1 100).
Proof.
  rewrite std_max_R, !dec_R. eapply Rle_trans; [|apply Rmax_r]. lra.
Qed.

Lemma march_on_ray (sdf : Vec3f R -> option R) (steps : nat)
    (dir p : Vec3f R) (r : TraceResult R) :
  march sdf steps dir p = Some r ->
  exists t, pos r = ray_point p dir t /\
            (INR (length (evals r)) - (if hit r then 1 else 0)) / 100 <= t.
Proof.
  revert p r. induction steps as [|k IH]; intros p r Hr.
  - injection Hr as <-. exists 0. cbn [pos hit evals length INR].
    rewrite ray_point_0. split; [reflexivity|lra].
  - rewrite march_S in Hr.
    destruct (sdf p) as [d|] eqn:Hd; [|discriminate].
    destruct (fltb d (fromZ 0)) eqn:Hneg.
    + injection Hr as <-. exists 0. cbn [pos hit evals length INR].
      rewrite ray_point_0. split; [reflexivity|lra].
    + destruct (march sdf k dir _) as [r'|] eqn:Hk; [|discriminate].
      injection Hr as <-. cbn [pos hit evals].
      destruct (IH _ _ Hk) as (t & Hpos & Ht).
      exists (std_max (d * dec 1 10) (dec 1 100) + t).
      rewrite Hpos, ray_point_step. split; [reflexivity|].
      pose proof (step_length d).
      change (length (d :: evals r')) with (S (length (evals r'))).
      rewrite S_INR. lra.
Qed.

(** X8. The tracers walk along the ray, in exact arithmetic: the position
    handed back is [orig + t * dir] for some [t >= 0], and on a miss
    [t >= 1.28], since each of the 128 steps advances by at least 0.01. *)
Theorem trace_on_ray (fuel : nat) (orig dir : Vec3f R) :
  (exists r t, box_trace orig dir = Some r /\
     pos r = ray_point orig dir t /\ 0 <= t /\
     (hit r = false -> 128/100 <= t)) /\
  (forall r, sphere_trace fuel orig dir = Some r ->
     exists t, pos r = ray_point orig dir t /\ 0 <= t /\
               (hit r = false -> 128/100 <= t)).
Proof.
  assert (Hgen : forall sdf r, march sdf ray_steps dir orig = Some r ->
            exists t, pos r = ray_point orig dir t /\ 0 <= t /\
                      (hit r = false -> 128/100 <= t)).
  { intros sdf r Hr. destruct (march_on_ray _ _ _ _ _ Hr) as (t & Hpos & Ht).
    exists t. split; [exact Hpos|].
    pose proof (march_budget _ _ _ _ _ Hr) as [_ Hiff].
    destruct (hit r) eqn:Hhit.
    - destruct (march_hit _ _ _ _ _ Hr Hhit) as (d & _ & _ & Hlast).
      destruct (evals r) as [|e es]; [discriminate|].
      change (length (e :: es)) with (S (length es)) in Ht.
      rewrite S_INR in Ht. pose proof (pos_INR (length es)).
      split; [lra|discriminate].
    - rewrite (march_miss_length _ _ _ _ _ Hr Hhit) in Ht.
      change (INR ray_steps) with (INR 128) in Ht.
      replace (INR 128) with 128 in Ht by (simpl; lra).
      split; [lra|intros _; lra]. }
  split.
  - destruct (march_total box_signed_distance ray_steps dir orig) as [r Hr].
    destruct (Hgen _ _ Hr) as (t & Ht). exists r, t. split; [exact Hr|exact Ht].
  - intros r Hr. exact (Hgen _ _ Hr).
Qed.

(** *** Penetration *)

Lemma eye_box_distance : box_signed_distance (eye_box : Vec3f R) = 11/4.
Proof.
  rewrite box_signed_distance_Rmax. unfold eye_box.
  cbn [vx vy vz fromZ R_Scalar].
  rewrite !dec_R. unfold Rmax, Rabs.
  repeat destruct Rcase_abs; repeat destruct Rle_dec; lra.
Qed.

Lemma component_le_1 (a b c : R) : a * a + b * b + c * c <= 1 -> Rabs a <= 1.
Proof. intros Hs. unfold Rabs. destruct Rcase_abs; nra. Qed.

Lemma norm_le_1 (a : Vec3f R) : norm a <= 1 -> dot a a <= 1.
Proof.
  intros Hn. pose proof (dot_self_nonneg a) as Hs.
  pose proof (norm_nonneg a) as Hp.
  rewrite <- (sqrt_def (dot a a)) by exact Hs.
  change (sqrt (dot a a)) with (norm a). nra.
Qed.

Lemma box_step_bound (p dir : Vec3f R) (s : R) :
  dot dir dir <= 1 -> 0 <= s ->
  box_signed_distance p - s
  <= box_signed_distance (vadd p (vscale dir s)).
Proof.
  intros Hdir Hs.
  pose proof (box_lipschitz p (vadd p (vscale dir s))) as Hl.
  assert (sup_dist p (vadd p (vscale dir s)) <= s) as Hd.
  { unfold sup_dist, vadd, vscale. cbn [vx vy vz fadd fmul R_Scalar].
    unfold dot in Hdir. cbn [fadd fmul R_Scalar] in Hdir.
    assert (Hk : forall k, Rabs k <= 1 ->
                 forall x, Rabs (x - (x + k * s)) <= s).
    { intros k Hk x. replace (x - (x + k * s)) with (- (k * s)) by lra.
      rewrite Rabs_Ropp, Rabs_mult, (Rabs_pos_eq s) by exact Hs.
      pose proof (Rabs_pos k). nra. }
    repeat apply Rmax_lub; apply Hk.
    - apply (component_le_1 _ (vy dir) (vz dir)). lra.
    - apply (component_le_1 _ (vx dir) (vz dir)). lra.
    - apply (component_le_1 _ (vx dir) (vy dir)). lra. }
  unfold Rabs in Hl. destruct Rcase_abs in Hl; lra.
Qed.

Lemma march_box_evals (steps : nat) (dir p : Vec3f R) (r : TraceResult R) :
  dot dir dir <= 1 -> - (1/100) <= box_signed_distance p ->
  march (fun q => Some (box_signed_distance q)) steps dir p = Some r ->
  Forall (fun d => - (1/100) <= d) (evals r).
Proof.
  intros Hdir. revert p r. induction steps as [|k IH]; intros p r Hp Hr.
  - injection Hr as <-. constructor.
  - rewrite march_S in Hr.
    destruct (fltb (box_signed_distance p) (fromZ 0)) eqn:Hneg.
    + injection Hr as <-. constructor; [exact Hp|constructor].
    + destruct (march _ k dir _) as [r'|] eqn:Hk; [|discriminate].
      injection Hr as <-. cbn [evals]. constructor; [exact Hp|].
      refine (IH _ _ _ Hk).
      apply Rltb_false in Hneg. cbn [fromZ R_Scalar] in Hneg.
      set (d := box_signed_distance p) in *.
      set (s := std_max (fmul d (dec 1 10)) (dec 1 100)).
      assert (Hs : 0 <= s /\ d - s >= - (1/100)).
      { unfold s. rewrite std_max_R, !dec_R. cbn [fmul R_Scalar].
        unfold Rmax. destruct Rle_dec; lra. }
      pose proof (box_step_bound p dir s Hdir (proj1 Hs)) as Hstep.
      fold d in Hstep. lra.
Qed.

(** X9. [box_trace] never steps deep into the box, in exact arithmetic:
    for a direction of length at most one and an origin that is not
    inside, every distance evaluated is at least [-0.01], so the position
    of a hit lies within 0.01 of the surface, [-0.01 <= d < 0]. *)
Theorem box_trace_penetration (orig dir : Vec3f R) :
  norm dir <= 1 -> 0 <= box_signed_distance orig ->
  exists r, box_trace orig dir = Some r /\
            Forall (fun d => - (1/100) <= d) (evals r) /\
            (hit r = true ->
             - (1/100) <= box_signed_distance (pos r) < 0).
Proof.
  intros Hdir Horig. apply norm_le_1 in Hdir.
  destruct (march_total box_signed_distance ray_steps dir orig) as [r Hr].
  exists r. split; [exact Hr|].
  assert (Hall : Forall (fun d => - (1/100) <= d) (evals r))
    by (apply (march_box_evals ray_steps dir orig r Hdir); [lra|exact Hr]).
  split; [exact Hall|]. intros Hhit.
  destruct (march_hit _ _ _ _ _ Hr Hhit) as (d & Hd & Hneg & Hlast).
  injection Hd as <-. apply Rltb_true in Hneg. cbn [fromZ R_Scalar] in Hneg.
  split; [|exact Hneg].
  rewrite Forall_forall in Hall. apply Hall.
  apply last_Some_elem_of in Hlast. exact Hlast.
Qed.

Lemma box_trace_penetration_witness :
  norm (mkVec3f 0 0 (-1) : Vec3f R) <= 1 /\
  0 <= box_signed_distance (eye_box : Vec3f R) /\
  exists r, box_trace eye_box (mkVec3f 0 0 (-1)) = Some r /\
            Forall (fun d => - (1/100) <= d) (evals r) /\
            (hit r = true ->
             - (1/100) <= box_signed_distance (pos r) < 0).
Proof.
  assert (Hn : norm (mkVec3f 0 0 (-1) : Vec3f R) <= 1).
  { unfold norm, dot. cbn [vx vy vz fadd fmul fsqrt R_Scalar].
    replace (0 * 0 + 0 * 0 + -1 * -1) with 1 by lra. rewrite sqrt_1. lra. }
  assert (Hd : 0 <= box_signed_distance (eye_box : Vec3f R))
    by (rewrite eye_box_distance; lra).
  split; [exact Hn|]. split; [exact Hd|].
  exact (box_trace_penetration eye_box (mkVec3f 0 0 (-1)) Hn Hd).
Defined.

End ExactGeometry.

Section ExactScene.
Import Exact.
Local Open Scope R_scope.

(** *** Primary rays *)

Lemma normalize_z_negative (a : Vec3f R) :
  vz a < 0 -> norm (normalize a) = 1 /\ vz (normalize a) < 0.
Proof.
  intros Hz.
  assert (0 < dot a a) as Hd by (unfold dot; cbn [fadd fmul R_Scalar]; nra).
  split; [apply norm_normalize; lra|].
  unfold normalize. cbn [vz fdiv R_Scalar].
  assert (0 < norm a) as Hn by (apply sqrt_lt_R0; exact Hd).
  assert (0 < / norm a) by (apply Rinv_0_lt_compat; exact Hn).
  unfold Rdiv. nra.
Qed.

(** X10. Primary rays, in exact arithmetic: for a positive
    [tan (fov / 2)] and an image of positive height, the direction of
    pixel [(i, j)] has length one and points toward negative z. *)
Theorem pixel_dir_unit (tan_half_fov : R) (w h i j : nat) :
  0 < tan_half_fov -> (0 < h)%nat ->
  norm (pixel_dir tan_half_fov w h i j) = 1 /\
  vz (pixel_dir tan_half_fov w h i j) < 0.
Proof.
  intros Ht Hh. unfold pixel_dir. apply normalize_z_negative.
  cbn [vz fopp fdiv fmul fromZ R_Scalar]. unfold of_nat. cbn [fromZ R_Scalar].
  assert (0 < IZR (Z.of_nat h)) by (apply IZR_lt; lia).
  assert (0 < / (2 * tan_half_fov)) by (apply Rinv_0_lt_compat; lra).
  unfold Rdiv. nra.
Qed.

Lemma pixel_dir_unit_witness :
  0 < 1/2 /\ (0 < height)%nat /\
  norm (pixel_dir (1/2) width height 0 0 : Vec3f R) = 1 /\
  vz (pixel_dir (1/2) width height 0 0 : Vec3f R) < 0.
Proof.
  split; [lra|]. split; [unfold height; lia|].
  apply (pixel_dir_unit (1/2) width height 0 0); [lra|unfold height; lia].
Defined.

(** *** The normal and the shading on the front face *)

Lemma front_face_distance (p : Vec3f R) :
  0 <= vz p -> Rabs (vx p) - 1/2 <= vz p -> Rabs (vy p) - 1/2 <= vz p ->
  box_signed_distance p = vz p - 1/4.
Proof.
  intros Hz Hx Hy. rewrite box_signed_distance_Rmax.
  rewrite (Rabs_pos_eq (vz p)) by exact Hz.
  unfold Rmax. repeat destruct Rle_dec; lra.
Qed.

Lemma normal_front (p : Vec3f R) :
  0 <= vz p -> Rabs (vx p) <= vz p + 2/5 -> Rabs (vy p) <= vz p + 2/5 ->
  distance_field_normal_box p = mkVec3f 0 0 1.
Proof.
  intros Hz Hx Hy. unfold distance_field_normal_box.
  assert (Hshift : forall x, Rabs (x + 1/10) <= Rabs x + 1/10).
  { intros x. unfold Rabs. repeat destruct Rcase_abs; lra. }
  pose proof (Hshift (vx p)). pose proof (Hshift (vy p)).
  rewrite (front_face_distance p) by lra.
  rewrite !front_face_distance;
    unfold vadd; cbn [vx vy vz fadd fromZ R_Scalar]; rewrite ?dec_R;
    rewrite ?Rplus_0_r; try lra.
  cbn [fsub R_Scalar].
  replace (vz p - 1 / 4 - (vz p - 1 / 4)) with 0 by lra.
  replace (vz p + 1 / 10 - 1 / 4 - (vz p - 1 / 4)) with (1/10) by lra.
  unfold normalize, norm, dot. cbn [vx vy vz fadd fmul fdiv fsqrt R_Scalar].
  replace (0 * 0 + 0 * 0 + 1 / 10 * (1 / 10)) with ((1/10) * (1/10)) by lra.
  rewrite sqrt_square by lra. f_equal; field.
Qed.

(** X11. The normal and the shading on the front face, in exact
    arithmetic: at a point with [z >= 0], [|x| <= z + 0.4] and
    [|y| <= z + 0.4] the finite-difference normal is exactly [(0, 0, 1)],
    and the colour is the grey of intensity
    [max (0.4, (10 - z) / |light - p|)]. *)
Theorem shade_box_front_face (p : Vec3f R) :
  0 <= vz p -> Rabs (vx p) <= vz p + 2/5 -> Rabs (vy p) <= vz p + 2/5 ->
  distance_field_normal_box p = mkVec3f 0 0 1 /\
  let I := Rmax (4/10) ((10 - vz p) / norm (vsub light p)) in
  shade_box p = mkVec3f I I I.
Proof.
  intros Hz Hx Hy. pose proof (normal_front p Hz Hx Hy) as Hn.
  split; [exact Hn|]. cbv zeta.
  unfold shade_box. rewrite Hn. unfold light_intensity, ambient.
  rewrite std_max_R, dec_R.
  unfold vscale, white, dot, normalize.
  cbn [vx vy vz fadd fmul fdiv fsub fromZ R_Scalar].
  set (n := norm (vsub light p)).
  change (vz (vsub light p)) with (10 - vz p).
  replace (vx (vsub light p) / n * 0 + vy (vsub light p) / n * 0
           + (10 - vz p) / n * 1)
    with ((10 - vz p) / n) by lra.
  f_equal; lra.
Qed.

Lemma shade_box_front_face_witness :
  0 <= vz front_hit /\
  Rabs (vx front_hit) <= vz front_hit + 2/5 /\
  Rabs (vy front_hit) <= vz front_hit + 2/5 /\
  distance_field_normal_box front_hit = mkVec3f 0 0 1 /\
  let I := Rmax (4/10) ((10 - vz front_hit) / norm (vsub light front_hit)) in
  shade_box front_hit = mkVec3f I I I.
Proof.
  assert (Hz : 0 <= vz front_hit) by (simpl; lra).
  assert (Hx : Rabs (vx front_hit) <= vz front_hit + 2/5)
    by (simpl; unfold Rabs; destruct Rcase_abs; lra).
  assert (Hy : Rabs (vy front_hit) <= vz front_hit + 2/5)
    by (simpl; unfold Rabs; destruct Rcase_abs; lra).
  split; [exact Hz|]. split; [exact Hx|]. split; [exact Hy|].
  exact (shade_box_front_face front_hit Hz Hx Hy).
Defined.

(** *** Both shading functions *)

Lemma shade_grey (l n : Vec3f R) :
  exists I, vscale white (light_intensity (normalize l) (normalize n))
            = mkVec3f I I I /\ 4/10 <= I <= 1.
Proof.
  exists (light_intensity (normalize l) (normalize n)). split.
  - unfold vscale, white. cbn [vx vy vz fmul fromZ R_Scalar]. f_equal; lra.
  - apply light_intensity_range; apply dot_normalize.
Qed.

Lemma shade_box_grey (h : Vec3f R) :
  exists I, shade_box h = mkVec3f I I I /\ 4/10 <= I <= 1.
Proof. unfold shade_box, distance_field_normal_box. apply shade_grey. Qed.

Lemma distance_field_normal_sphere_returns (p : Vec3f R) :
  exists n, returns (fun fuel => distance_field_normal_sphere fuel p)
                    (normalize n).
Proof.
  set (px := vadd p (mkVec3f (dec 1 10) (fromZ 0) (fromZ 0))).
  set (py := vadd p (mkVec3f (fromZ 0) (dec 1 10) (fromZ 0))).
  set (pz := vadd p (mkVec3f (fromZ 0) (fromZ 0) (dec 1 10))).
  destruct (sphere_signed_distance_returns p) as [n0 H0].
  destruct (sphere_signed_distance_returns px) as [n1 H1].
  destruct (sphere_signed_distance_returns py) as [n2 H2].
  destruct (sphere_signed_distance_returns pz) as [n3 H3].
  exists (mkVec3f (fsub (sphere_distance px) (sphere_distance p))
                  (fsub (sphere_distance py) (sphere_distance p))
                  (fsub (sphere_distance pz) (sphere_distance p))).
  exists (n0 + n1 + n2 + n3)%nat. intros fuel Hfuel.
  unfold distance_field_normal_sphere. fold px py pz.
  rewrite H0 by lia. cbn [mbind option_bind].
  rewrite H1 by lia. cbn [mbind option_bind].
  rewrite H2 by lia. cbn [mbind option_bind].
  rewrite H3 by lia. reflexivity.
Qed.

(** X12. Both shading paths, in exact arithmetic, at every point: the
    colour is a grey [(I, I, I)] with [0.4 <= I <= 1]; the sphere path,
    which recurses through [mod], returns.  (Where a vector to normalize
    is zero, its quotient by its length is zero in [R]; the intensity is
    then the ambient 0.4.) *)
Theorem shading_is_grey (h : Vec3f R) :
  (exists I, shade_box h = mkVec3f I I I /\ 4/10 <= I <= 1) /\
  (exists I, returns (fun fuel => shade_sphere fuel h) (mkVec3f I I I) /\
             4/10 <= I <= 1).
Proof.
  split.
  - apply shade_box_grey.
  - destruct (distance_field_normal_sphere_returns h) as (n & k & Hk).
    destruct (shade_grey (vsub light h) n) as (I & HI & Hrange).
    exists I. split; [|exact Hrange]. exists k. intros fuel Hfuel.
    unfold shade_sphere. rewrite Hk by exact Hfuel.
    cbn [mbind option_bind]. f_equal. exact HI.
Qed.

(** *** The repeated sphere *)

(** X13. The repeated sphere, in exact arithmetic:
    [sphere_signed_distance] returns at every point, with
    [-1/4 <= d < 1]; and where [d] is negative, the fractional parts of
    the coordinates satisfy [|x - 1/2| < 1/4], [|y - 1/2| < 1/4] and
    [z < 1/4].  Since [mod] maps z into [[0, 1)] and the centre has
    [z = 0], only the half of each sphere above its centre is solid. *)
Theorem sphere_signed_distance_range (p : Vec3f R) :
  exists d, returns (fun fuel => sphere_signed_distance fuel p) d /\
            - (1/4) <= d < 1 /\
            (d < 0 ->
             Rabs (frac_part (vx p) - 1/2) < 1/4 /\
             Rabs (frac_part (vy p) - 1/2) < 1/4 /\
             frac_part (vz p) < 1/4).
Proof.
  exists (sphere_distance p). split; [apply sphere_signed_distance_returns|].
  unfold sphere_distance, sphere_radius, sphere_center, vfrac, norm, dot, vsub.
  cbn [vx vy vz fadd fsub fmul fsqrt fromZ R_Scalar]. rewrite !dec_R.
  pose proof (frac_part_range (vx p)) as Hx.
  pose proof (frac_part_range (vy p)) as Hy.
  pose proof (frac_part_range (vz p)) as Hz.
  set (a := frac_part (vx p) - 1/2) in *.
  set (b := frac_part (vy p) - 1/2) in *.
  set (c := frac_part (vz p) - 0) in *.
  set (s := a * a + b * b + c * c).
  assert (Hs : 0 <= s) by (unfold s; nra).
  pose proof (sqrt_pos s) as Hq. pose proof (sqrt_def s Hs) as Hd.
  assert (Hup : s < 3/2) by (unfold s, a, b, c; nra).
  split; [split; [lra|]|].
  - assert (sqrt s < 5/4); [|lra].
    destruct (Rlt_dec (sqrt s) (5/4)); [assumption|nra].
  - intros Hneg. assert (s < 1/16) as Hlt by nra.
    assert (c < 1/4) by (unfold s in Hlt; unfold c in *; nra).
    unfold c in *.
    repeat split;
      [unfold Rabs; destruct Rcase_abs; unfold s in Hlt; nra ..|lra].
Qed.

(** *** The sink *)

Lemma Int_part_mono (x y : R) : x <= y -> (Int_part x <= Int_part y)%Z.
Proof.
  intros Hxy. pose proof (Int_part_bounds x). pose proof (Int_part_bounds y).
  assert (Int_part x < Int_part y + 1)%Z; [|lia].
  apply lt_IZR. rewrite plus_IZR. lra.
Qed.

Lemma Rtrunc_mono (x y : R) : x <= y -> (Rtrunc x <= Rtrunc y)%Z.
Proof.
  intros Hxy. unfold Rtrunc.
  destruct (Rle_dec 0 x), (Rle_dec 0 y); try lra.
  - apply Int_part_mono. exact Hxy.
  - assert (0 <= Int_part y)%Z by (apply (Int_part_mono 0 y) in r as Hy;
      replace (Int_part 0) with 0%Z in Hy
        by (apply Int_part_spec; simpl; lra); exact Hy).
    assert (0 <= Int_part (- x))%Z by (assert (0 <= - x) as Hx by lra;
      apply (Int_part_mono 0 (- x)) in Hx as Hy;
      replace (Int_part 0) with 0%Z in Hy
        by (apply Int_part_spec; simpl; lra); exact Hy).
    lia.
  - assert (Int_part (- y) <= Int_part (- x))%Z
      by (apply Int_part_mono; lra). lia.
Qed.

(** X14. The quantization of the sink is monotone, in exact arithmetic,
    where the cast to [int] is defined: for components [c <= c'] with
    [255 * c] and [255 * c'] in the range of [int], the byte of [c] is at
    most the byte of [c']. *)
Theorem sink_byte_monotone (c c' : R) :
  in_int_range (255 * c) -> in_int_range (255 * c') -> c <= c' ->
  (sink_byte c <= sink_byte c')%Z.
Proof.
  intros _ _ Hc. rewrite !sink_byte_R.
  assert (Rtrunc (255 * c) <= Rtrunc (255 * c'))%Z
    by (apply Rtrunc_mono; lra).
  lia.
Qed.

Lemma sink_byte_monotone_witness :
  in_int_range (255 * (1/4)) /\ in_int_range (255 * (1/2)) /\ 1/4 <= 1/2 /\
  (sink_byte (1/4 : R) <= sink_byte (1/2 : R))%Z.
Proof.
  assert (H1 : in_int_range (255 * (1/4))) by (unfold in_int_range; lra).
  assert (H2 : in_int_range (255 * (1/2))) by (unfold in_int_range; lra).
  assert (H3 : 1/4 <= 1/2) by lra.
  split; [exact H1|]. split; [exact H2|]. split; [exact H3|].
  exact (sink_byte_monotone (1/4) (1/2) H1 H2 H3).
Defined.

(** X15. The ends of the quantization, in exact arithmetic, where the cast
    to [int] is defined: for a component [c] with [255 * c] in the range
    of [int], the byte is 0 exactly when [c < 1/255] (negative components
    included) and 255 exactly when [c >= 1]. *)
Theorem sink_byte_endpoints (c : R) :
  in_int_range (255 * c) ->
  (sink_byte c = 0%Z <-> c < 1/255) /\ (sink_byte c = 255%Z <-> 1 <= c).
Proof.
  intros _.
  rewrite sink_byte_R. pose proof (Int_part_bounds (255 * c)) as Hb.
  split; split.
  - intros H0. destruct (Rlt_dec c (1/255)); [assumption|exfalso].
    assert (1 <= 255 * c) as H1 by lra.
    rewrite Rtrunc_nonneg in H0 by lra.
    apply (Int_part_mono 1) in H1.
    replace (Int_part 1) with 1%Z in H1 by (apply Int_part_spec; simpl; lra).
    lia.
  - intros Hc. destruct (Rle_dec 0 c).
    + rewrite Rtrunc_nonneg by lra.
      assert (Int_part (255 * c) < 1)%Z by (apply lt_IZR; lra).
      assert (-1 < Int_part (255 * c))%Z by (apply lt_IZR; lra). lia.
    + assert (255 * c < 0) as Hn by lra. apply Rtrunc_neg in Hn. lia.
  - intros H255. destruct (Rle_dec 1 c); [assumption|exfalso].
    destruct (Rle_dec 0 c).
    + rewrite Rtrunc_nonneg in H255 by lra.
      assert (Int_part (255 * c) < 255)%Z by (apply lt_IZR; lra). lia.
    + assert (255 * c < 0) as Hn by lra. apply Rtrunc_neg in Hn. lia.
  - intros Hc. rewrite Rtrunc_nonneg by lra.
    assert (254 < Int_part (255 * c))%Z by (apply lt_IZR; lra). lia.
Qed.

Lemma sink_byte_endpoints_witness :
  in_int_range (255 * 1) /\
  (sink_byte (1 : R) = 0%Z <-> 1 < 1/255) /\
  (sink_byte (1 : R) = 255%Z <-> 1 <= 1).
Proof.
  assert (H1 : in_int_range (255 * 1)) by (unfold in_int_range; lra).
  split; [exact H1|]. exact (sink_byte_endpoints 1 H1).
Defined.

End ExactScene.

Section ExactCamera.
Import Exact.
Local Open Scope R_scope.

(** X16. In the image of [main], in exact arithmetic, for every pixel,
    every image size and every value of [tan (fov / 2)]: [box_trace] from
    the box camera never evaluates a distance below [-0.01], so the
    position shaded on a hit lies within 0.01 of the surface. *)
Theorem render_hits_near_surface (tan_half_fov : R) (w h i j : nat) :
  exists b,
    box_trace eye_box (pixel_dir tan_half_fov w h i j) = Some b /\
    Forall (fun d => - (1/100) <= d) (evals b) /\
    (hit b = true -> - (1/100) <= box_signed_distance (pos b) < 0).
Proof.
  destruct (march_total box_signed_distance ray_steps
              (pixel_dir tan_half_fov w h i j) eye_box) as [r Hr].
  exists r. split; [exact Hr|].
  assert (Hall : Forall (fun d => - (1/100) <= d) (evals r)).
  { apply (march_box_evals ray_steps (pixel_dir tan_half_fov w h i j)
             eye_box r).
    - unfold pixel_dir. apply dot_normalize.
    - rewrite eye_box_distance. lra.
    - exact Hr. }
  split; [exact Hall|]. intros Hhit.
  destruct (march_hit _ _ _ _ _ Hr Hhit) as (d & Hd & Hneg & Hlast).
  injection Hd as <-. apply Rltb_true in Hneg. cbn [fromZ R_Scalar] in Hneg.
  split; [|exact Hneg].
  rewrite Forall_forall in Hall. apply Hall.
  apply last_Some_elem_of in Hlast. exact Hlast.
Qed.

End ExactCamera.

Section ExactCone.
Import Exact.
Local Open Scope R_scope.

(** *** Rays that reach the front face

    A ray from the box camera [(0.5, 0.5, 3)] whose direction [(a, b, c)]
    points down the view axis, [12 |a| <= -c] and [12 |b| <= -c]: until it
    has entered the box by 0.01, the largest component of [q] is the one of
    the z axis, so the distance at the parameter [t] is [11/4 + c t]. *)

Section Cone.
Variables a b c : R.
Hypothesis Hc : 1/2 <= - c <= 1.
Hypothesis Ha : 12 * Rabs a <= - c.
Hypothesis Hb : 12 * Rabs b <= - c.

Lemma cone_point (t : R) :
  camera_ray a b c t = mkVec3f (1/2 + a * t) (1/2 + b * t) (3 + c * t).
Proof.
  unfold camera_ray, ray_point, vadd, vscale, eye_box.
  cbn [vx vy vz fadd fmul fromZ R_Scalar]. rewrite !dec_R. reflexivity.
Qed.

Lemma cone_step (t s : R) :
  vadd (camera_ray a b c t) (vscale (mkVec3f a b c) s)
  = camera_ray a b c (t + s).
Proof.
  unfold camera_ray, ray_point, vadd, vscale.
  cbn [vx vy vz fadd fmul R_Scalar]. f_equal; lra.
Qed.

Lemma cone_distance (t : R) :
  0 <= t -> - (1/100) <= 11/4 + c * t ->
  box_signed_distance (camera_ray a b c t) = 11/4 + c * t.
Proof.
  intros Ht Hd. rewrite box_signed_distance_Rmax, cone_point. cbn [vx vy vz].
  assert (Hat : - (23/100) <= a * t <= 23/100).
  { assert (Rabs a * t <= 23/100) by nra.
    unfold Rabs in *. destruct (Rcase_abs a); nra. }
  assert (Hbt : - (23/100) <= b * t <= 23/100).
  { assert (Rabs b * t <= 23/100) by nra.
    unfold Rabs in *. destruct (Rcase_abs b); nra. }
  set (x := a * t) in *. set (y := b * t) in *. set (z := c * t) in *.
  unfold Rmax, Rabs. repeat destruct Rcase_abs; repeat destruct Rle_dec; lra.
Qed.

(** The last hundredths: the distance decreases by at least 0.005 per
    step. *)
Lemma cone_march_near (k steps : nat) (t : R) :
  0 <= t -> - (1/100) <= 11/4 + c * t -> 11/4 + c * t < INR k / 200 ->
  (k <= 20)%nat -> (k < steps)%nat ->
  exists r, march (fun q => Some (box_signed_distance q)) steps
                  (mkVec3f a b c) (camera_ray a b c t) = Some r /\
            hit r = true /\ (length (evals r) <= S k)%nat /\
            24/100 <= vz (pos r) < 25/100.
Proof.
  revert steps t. induction k as [|k IH]; intros steps t Ht Hlo Hhi Hk Hsteps;
    (destruct steps as [|n]; [lia|]); rewrite march_S;
    pose proof (cone_distance t Ht Hlo) as Hd; rewrite Hd;
    cbn [fltb fromZ R_Scalar].
  - simpl in Hhi.
    assert (Rltb (11/4 + c * t) 0 = true) as -> by (apply Rltb_true; lra).
    eexists. split; [reflexivity|]. cbn [hit pos evals length].
    rewrite cone_point. cbn [vz]. split; [reflexivity|]. split; [lia|lra].
  - destruct (Rltb (11/4 + c * t) 0) eqn:Hneg.
    + apply Rltb_true in Hneg.
      eexists. split; [reflexivity|]. cbn [hit pos evals length].
      rewrite cone_point. cbn [vz]. split; [reflexivity|]. split; [lia|lra].
    + apply Rltb_false in Hneg.
      assert (INR k <= 19) as Hk19.
      { replace 19 with (INR 19) by (simpl; lra). apply le_INR. lia. }
      rewrite S_INR in Hhi.
      assert (std_max (fmul (11/4 + c * t) (dec 1 10)) (dec 1 100) = 1/100)
        as ->.
      { rewrite std_max_R, !dec_R. cbn [fmul R_Scalar].
        apply Rmax_right. lra. }
      rewrite cone_step.
      destruct (IH n (t + 1/100)) as (r & -> & Hhit & Hlen & Hz);
        [lra|lra|lra|lia|lia|].
      eexists. split; [reflexivity|]. cbn [hit pos evals length].
      split; [exact Hhit|]. split; [lia|exact Hz].
Qed.

(** Farther away the distance shrinks by the factor 19/20 per step. *)
Lemma cone_march_far (m steps : nat) (t : R) :
  0 <= t -> - (1/100) <= 11/4 + c * t ->
  11/4 + c * t < 1/10 * (20/19) ^ m ->
  (20 + m < steps)%nat ->
  exists r, march (fun q => Some (box_signed_distance q)) steps
                  (mkVec3f a b c) (camera_ray a b c t) = Some r /\
            hit r = true /\ (length (evals r) <= 21 + m)%nat /\
            24/100 <= vz (pos r) < 25/100.
Proof.
  revert steps t. induction m as [|m IH]; intros steps t Ht Hlo Hhi Hsteps.
  - apply (cone_march_near 20 steps t Ht Hlo); [simpl in *; lra|lia|lia].
  - destruct steps as [|n]; [lia|]. rewrite march_S.
    pose proof (cone_distance t Ht Hlo) as Hd. rewrite Hd.
    cbn [fltb fromZ R_Scalar].
    destruct (Rltb (11/4 + c * t) 0) eqn:Hneg.
    + apply Rltb_true in Hneg.
      eexists. split; [reflexivity|]. cbn [hit pos evals length].
      rewrite cone_point. cbn [vz]. split; [reflexivity|]. split; [lia|lra].
    + apply Rltb_false in Hneg. rewrite cone_step.
      set (d := 11/4 + c * t) in *.
      set (s := std_max (fmul d (dec 1 10)) (dec 1 100)).
      assert (Hs : 1/100 <= s /\ d / 10 <= s /\ (s = 1/100 \/ s = d / 10)).
      { unfold s. rewrite std_max_R, !dec_R. cbn [fmul R_Scalar].
        unfold Rmax. destruct Rle_dec; lra. }
      assert (Hp : 1 <= (20/19) ^ m) by (apply pow_R1_Rle; lra).
      cbn [pow] in Hhi.
      destruct (IH n (t + s)) as (r & -> & Hhit & Hlen & Hz).
      * lra.
      * replace (11/4 + c * (t + s)) with (d + c * s) by (unfold d; lra).
        destruct Hs as (_ & _ & [-> | ->]); nra.
      * replace (11/4 + c * (t + s)) with (d + c * s) by (unfold d; lra).
        assert (d + c * s <= 19/20 * d) by nra. nra.
      * lia.
      * eexists. split; [reflexivity|]. cbn [hit pos evals length].
        split; [exact Hhit|]. split; [lia|exact Hz].
Qed.

Lemma pow_20_19 : 55/2 < (20/19) ^ 67.
Proof.
  assert (H2 : 1108/1000 <= (20/19) ^ 2) by (simpl; lra).
  assert (H4 : 1227/1000 <= (20/19) ^ 4).
  { change 4%nat with (2 * 2)%nat. rewrite pow_mult. simpl. nra. }
  assert (H8 : 1505/1000 <= (20/19) ^ 8).
  { change 8%nat with (4 * 2)%nat. rewrite pow_mult. simpl. nra. }
  assert (H16 : 2265/1000 <= (20/19) ^ 16).
  { change 16%nat with (8 * 2)%nat. rewrite pow_mult. simpl. nra. }
  assert (H32 : 5130/1000 <= (20/19) ^ 32).
  { change 32%nat with (16 * 2)%nat. rewrite pow_mult. simpl. nra. }
  assert (H64 : 26316/1000 <= (20/19) ^ 64).
  { change 64%nat with (32 * 2)%nat. rewrite pow_mult. simpl. nra. }
  change 67%nat with (64 + (2 + 1))%nat. rewrite !pow_add, pow_1. nra.
Qed.

Lemma cone_hit :
  exists r, box_trace eye_box (mkVec3f a b c) = Some r /\
            hit r = true /\ (length (evals r) <= 88)%nat /\
            24/100 <= vz (pos r) < 25/100.
Proof.
  unfold box_trace.
  replace eye_box with (camera_ray a b c 0).
  - apply (cone_march_far 67 ray_steps 0).
    + lra.
    + lra.
    + pose proof pow_20_19. lra.
    + unfold ray_steps. lia.
  - rewrite cone_point. unfold eye_box. rewrite !dec_R.
    cbn [fromZ R_Scalar]. f_equal; lra.
Qed.

End Cone.
End ExactCone.

Section ExactCentre.
Import Exact.
Local Open Scope R_scope.

(** X17. Rays down the view axis hit, in exact arithmetic: from the box
    camera [(0.5, 0.5, 3)], every direction [(a, b, c)] with
    [1/2 <= -c <= 1], [12 |a| <= -c] and [12 |b| <= -c] is a hit after at
    most 88 evaluations, at a point with [0.24 <= z < 0.25], just behind
    the front face. *)
Theorem box_trace_hits_front_face (a b c : R) :
  1/2 <= - c <= 1 -> 12 * Rabs a <= - c -> 12 * Rabs b <= - c ->
  exists r, box_trace eye_box (mkVec3f a b c) = Some r /\
            hit r = true /\ (length (evals r) <= 88)%nat /\
            24/100 <= vz (pos r) < 25/100.
Proof. intros Hc Ha Hb. exact (cone_hit a b c Hc Ha Hb). Qed.

Lemma box_trace_hits_front_face_witness :
  1/2 <= - (-1) <= 1 /\ 12 * Rabs 0 <= - (-1) /\
  exists r, box_trace eye_box (mkVec3f 0 0 (-1) : Vec3f R) = Some r /\
            hit r = true /\ (length (evals r) <= 88)%nat /\
            24/100 <= vz (pos r) < 25/100.
Proof.
  assert (Hc : 1/2 <= - (-1) <= 1) by lra.
  assert (Ha : 12 * Rabs 0 <= - (-1)) by (rewrite Rabs_R0; lra).
  split; [exact Hc|]. split; [exact Ha|].
  exact (box_trace_hits_front_face 0 0 (-1) Hc Ha Ha).
Defined.

Lemma normalize_cone (v : Vec3f R) :
  vz v < 0 -> 12 * Rabs (vx v) <= - vz v -> 12 * Rabs (vy v) <= - vz v ->
  1/2 <= - vz (normalize v) <= 1 /\
  12 * Rabs (vx (normalize v)) <= - vz (normalize v) /\
  12 * Rabs (vy (normalize v)) <= - vz (normalize v).
Proof.
  intros Hz Hx Hy. destruct v as [x y z]. cbn [vx vy vz] in *.
  unfold normalize. cbn [vx vy vz fdiv R_Scalar].
  set (n := norm (mkVec3f x y z)).
  assert (Hxx : x * x <= z * z / 144).
  { unfold Rabs in Hx. destruct (Rcase_abs x); nra. }
  assert (Hyy : y * y <= z * z / 144).
  { unfold Rabs in Hy. destruct (Rcase_abs y); nra. }
  assert (Hd : dot (mkVec3f x y z) (mkVec3f x y z) = x * x + y * y + z * z)
    by reflexivity.
  assert (Hs : 0 < dot (mkVec3f x y z) (mkVec3f x y z)) by (rewrite Hd; nra).
  assert (Hn : 0 < n) by (apply sqrt_lt_R0; exact Hs).
  assert (Hnn : n * n = x * x + y * y + z * z)
    by (rewrite <- Hd; apply sqrt_def; lra).
  assert (Hlo : - z <= n) by nra.
  assert (Hhi : n <= 2 * - z) by nra.
  assert (Hi : 0 < / n) by (apply Rinv_0_lt_compat; exact Hn).
  assert (Hni : n * / n = 1) by (apply Rinv_r; lra).
  unfold Rdiv. rewrite !Rabs_mult, (Rabs_pos_eq (/ n)) by lra.
  repeat split; nra.
Qed.

(** X18. The centre of the image shows the box, in exact arithmetic: for
    a positive [tan (fov / 2)], every pixel [(i, j)] with
    [12 |i + 1/2 - width / 2|] and [12 |j + 1/2 - height / 2|] at most
    [height / (2 tan (fov / 2))] is a hit behind the front face and gets
    the shaded colour, not the background. *)
Theorem render_centre_is_shaded (fuel : nat) (tan_half_fov : R)
    (w h i j : nat) :
  0 < tan_half_fov -> (0 < h)%nat ->
  12 * Rabs (INR i + 1/2 - INR w / 2) <= INR h / (2 * tan_half_fov) ->
  12 * Rabs (INR j + 1/2 - INR h / 2) <= INR h / (2 * tan_half_fov) ->
  exists b,
    box_trace eye_box (pixel_dir tan_half_fov w h i j) = Some b /\
    hit b = true /\ 24/100 <= vz (pos b) < 25/100 /\
    pixel_color fuel tan_half_fov w h i j = Some (shade_box (pos b)).
Proof.
  intros Ht Hh Hi Hj.
  assert (Hnat : forall n, of_nat n = INR n :> R)
    by (intros n; unfold of_nat; cbn [fromZ R_Scalar]; symmetry;
        apply INR_IZR_INZ).
  assert (0 < INR h) by (apply lt_0_INR; exact Hh).
  assert (Hq : 0 < INR h / (2 * tan_half_fov))
    by (apply Rdiv_lt_0_compat; lra).
  set (v := mkVec3f (fsub (fadd (of_nat i) (dec 1 2))
                          (fdiv (of_nat w) (fromZ 2)))
                    (fadd (fopp (fadd (of_nat j) (dec 1 2)))
                          (fdiv (of_nat h) (fromZ 2)))
                    (fdiv (fopp (of_nat h)) (fmul (fromZ 2) tan_half_fov))
            : Vec3f R).
  assert (Hz : vz v = - (INR h / (2 * tan_half_fov))).
  { unfold v. cbn [vz fdiv fopp fmul fromZ R_Scalar]. rewrite Hnat.
    unfold Rdiv. lra. }
  assert (Hx : vx v = INR i + 1/2 - INR w / 2).
  { unfold v. cbn [vx fsub fadd fdiv fromZ R_Scalar]. rewrite !Hnat, dec_R.
    reflexivity. }
  assert (Hy : vy v = - (INR j + 1/2 - INR h / 2)).
  { unfold v. cbn [vy fsub fadd fopp fdiv fromZ R_Scalar].
    rewrite !Hnat, dec_R. lra. }
  destruct (normalize_cone v) as (Hc & Ha & Hb).
  { rewrite Hz. lra. }
  { rewrite Hx, Hz. lra. }
  { rewrite Hy, Hz, Rabs_Ropp. lra. }
  change (pixel_dir tan_half_fov w h i j) with (normalize v).
  destruct (cone_hit _ _ _ Hc Ha Hb) as (r & Hr & Hhit & _ & Hpos).
  assert (E : mkVec3f (vx (normalize v)) (vy (normalize v)) (vz (normalize v))
              = normalize v) by reflexivity.
  rewrite E in Hr.
  exists r. split; [exact Hr|]. split; [exact Hhit|]. split; [exact Hpos|].
  destruct (pixel_color_box fuel tan_half_fov w h i j) as (b' & Hb' & Hcol).
  change (pixel_dir tan_half_fov w h i j) with (normalize v) in Hb'.
  rewrite Hr in Hb'. injection Hb' as <-. rewrite Hhit in Hcol. exact Hcol.
Qed.

Lemma render_centre_is_shaded_witness :
  0 < 1/2 /\ (0 < height)%nat /\
  12 * Rabs (INR 320 + 1/2 - INR width / 2) <= INR height / (2 * (1/2)) /\
  12 * Rabs (INR 240 + 1/2 - INR height / 2) <= INR height / (2 * (1/2)) /\
  exists b,
    box_trace eye_box (pixel_dir (1/2) width height 320 240) = Some b /\
    hit b = true /\ 24/100 <= vz (pos b) < 25/100 /\
    pixel_color 0 (1/2) width height 320 240 = Some (shade_box (pos b)).
Proof.
  assert (Hw : INR width = 640)
    by (unfold width; rewrite INR_IZR_INZ; reflexivity).
  assert (Hh : INR height = 480)
    by (unfold height; rewrite INR_IZR_INZ; reflexivity).
  assert (H320 : INR 320 = 320) by (rewrite INR_IZR_INZ; reflexivity).
  assert (H240 : INR 240 = 240) by (rewrite INR_IZR_INZ; reflexivity).
  assert (Ht : 0 < 1/2) by lra.
  assert (H0 : (0 < height)%nat) by (unfold height; lia).
  assert (Hi : 12 * Rabs (INR 320 + 1/2 - INR width / 2)
               <= INR height / (2 * (1/2))).
  { rewrite Hw, Hh, H320. unfold Rabs. destruct Rcase_abs; lra. }
  assert (Hj : 12 * Rabs (INR 240 + 1/2 - INR height / 2)
               <= INR height / (2 * (1/2))).
  { rewrite Hh, H240. unfold Rabs. destruct Rcase_abs; lra. }
  split; [exact Ht|]. split; [exact H0|]. split; [exact Hi|].
  split; [exact Hj|].
  exact (render_centre_is_shaded 0 (1/2) width height 320 240 Ht H0 Hi Hj).
Defined.

End ExactCentre.

Section ExactOutput.
Import Exact.
Local Open Scope R_scope.

(** *** The bytes of a pixel *)

Lemma sink_byte_value (c : R) (b : Z) :
  (0 <= b <= 255)%Z -> IZR b <= 255 * c < IZR b + 1 -> sink_byte c = b.
Proof.
  intros Hb Hc. rewrite sink_byte_R, Rtrunc_nonneg.
  - rewrite <- (Int_part_spec (255 * c) b) by lra. lia.
  - assert (0 <= IZR b) by (apply IZR_le; lia). lra.
Qed.

Lemma sink_bytes_background :
  sink_bytes [background : Vec3f R] = [51; 178; 204]%Z.
Proof.
  unfold sink_bytes, background. cbn [flat_map vget vx vy vz app].
  rewrite !dec_R.
  rewrite (sink_byte_value (2/10) 51), (sink_byte_value (7/10) 178),
    (sink_byte_value (8/10) 204) by (lia || lra).
  reflexivity.
Qed.

Lemma sink_bytes_grey (I : R) :
  4/10 <= I ->
  exists b, (102 <= b <= 255)%Z /\
            sink_bytes [mkVec3f I I I] = [b; b; b].
Proof.
  intros HI. exists (sink_byte I). split; [|reflexivity].
  pose proof (sink_byte_is_byte I) as [_ Hhi]. split; [|exact Hhi].
  rewrite <- (sink_byte_value (4/10) 102) by (lia || lra).
  rewrite !sink_byte_R.
  assert (Rtrunc (255 * (4/10)) <= Rtrunc (255 * I))%Z
    by (apply Rtrunc_mono; lra).
  lia.
Qed.

(** X19. The bytes of the image, in exact arithmetic, for every image
    size: the three bytes written for a pixel are either 51, 178, 204 (the
    background) or three equal bytes between 102 and 255 (a shaded
    grey). *)
Theorem rendered_bytes (fuel : nat) (tan_half_fov : R) (w h : nat) :
  exists cv,
    render fuel tan_half_fov w h = Some cv /\
    forall i j, (i < w)%nat -> (j < h)%nat ->
      exists c, framebuffer cv !! (i + j * w)%nat = Some c /\
                (sink_bytes [c] = [51; 178; 204]%Z \/
                 exists b, (102 <= b <= 255)%Z /\ sink_bytes [c] = [b; b; b]).
Proof.
  exists (paint tan_half_fov w h (blank w h) (pixels w h)).
  split; [apply render_paint|]. intros i j Hi Hj.
  exists (box_pixel tan_half_fov w h (i, j)). split.
  - change (i + j * w)%nat with (pixel_index w (i, j)).
    apply paint_permutation_lookup; simpl; auto.
  - unfold box_pixel. destruct (box_trace _ _) as [b|];
      [destruct (hit b)|]; try (left; apply sink_bytes_background).
    right. destruct (shade_box_grey (pos b)) as (I & -> & HI & _).
    apply sink_bytes_grey. exact HI.
Qed.

End ExactOutput.

Section ExactMiss.
Import Exact.
Local Open Scope R_scope.

(** *** Hits are points of the ray inside the box *)

Lemma box_hit_inside (orig dir : Vec3f R) (r : TraceResult R) :
  box_trace orig dir = Some r -> hit r = true ->
  exists t, 0 <= t /\ pos r = ray_point orig dir t /\
            Rabs (vx (pos r)) < 3/4 /\ Rabs (vy (pos r)) < 3/4 /\
            Rabs (vz (pos r)) < 1/4.
Proof.
  intros Hr Hhit. unfold box_trace in Hr.
  destruct (march_on_ray _ _ _ _ _ Hr) as (t & Hpos & Ht).
  destruct (march_hit _ _ _ _ _ Hr Hhit) as (d & Hd & Hneg & Hlast).
  injection Hd as <-. apply Rltb_true in Hneg. cbn [fromZ R_Scalar] in Hneg.
  exists t. split; [|split; [exact Hpos|]].
  - rewrite Hhit in Ht. destruct (evals r) as [|e es]; [discriminate|].
    change (length (e :: es)) with (S (length es)) in Ht.
    rewrite S_INR in Ht. pose proof (pos_INR (length es)). lra.
  - rewrite box_signed_distance_Rmax in Hneg. revert Hneg.
    unfold Rmax. repeat destruct Rle_dec; lra.
Qed.

(** X20. A hit is sound, in exact arithmetic: the position that
    [box_trace] hands back on a hit is a point [orig + t * dir], [t >= 0],
    of the ray, and it lies inside the box [|x| < 3/4], [|y| < 3/4],
    [|z| < 1/4]; a ray that never enters this box is a miss. *)
Theorem box_trace_hit_sound (orig dir : Vec3f R) :
  exists r,
    box_trace orig dir = Some r /\
    (hit r = true ->
     exists t, 0 <= t /\ pos r = ray_point orig dir t /\
               Rabs (vx (pos r)) < 3/4 /\ Rabs (vy (pos r)) < 3/4 /\
               Rabs (vz (pos r)) < 1/4).
Proof.
  destruct (march_total box_signed_distance ray_steps dir orig) as [r Hr].
  exists r. split; [exact Hr|]. intros Hhit.
  exact (box_hit_inside orig dir r Hr Hhit).
Qed.

(** X21. Where the image is background, in exact arithmetic.  With
    [dir_x = i + 1/2 - width / 2], [dir_y = - (j + 1/2) + height / 2] and
    [depth = height / (2 tan (fov / 2))], a pixel with
    [depth <= 11 dir_x], [5 depth <= - 11 dir_x], [depth <= 11 dir_y] or
    [5 depth <= - 11 dir_y] gets the background colour: its ray reaches
    the plane [z = 1/4] beyond [x = 3/4], [x = -3/4], [y = 3/4] or
    [y = -3/4].  The two bounds of an axis differ because the camera
    [(0.5, 0.5, 3)] does not face the centre of the box that the distance
    describes. *)
Theorem render_outside_is_background (fuel : nat) (tan_half_fov : R)
    (w h i j : nat) :
  0 < tan_half_fov -> (0 < h)%nat ->
  let dir_x := INR i + 1/2 - INR w / 2 in
  let dir_y := - (INR j + 1/2) + INR h / 2 in
  let depth := INR h / (2 * tan_half_fov) in
  depth <= 11 * dir_x \/ 5 * depth <= 11 * - dir_x \/
  depth <= 11 * dir_y \/ 5 * depth <= 11 * - dir_y ->
  pixel_color fuel tan_half_fov w h i j = Some background.
Proof.
  intros Ht Hh dir_x dir_y depth Hout.
  assert (Hnat : forall n, of_nat n = INR n :> R)
    by (intros n; unfold of_nat; cbn [fromZ R_Scalar]; symmetry;
        apply INR_IZR_INZ).
  assert (0 < INR h) by (apply lt_0_INR; exact Hh).
  assert (Hq : 0 < depth) by (apply Rdiv_lt_0_compat; lra).
  destruct (pixel_color_box fuel tan_half_fov w h i j) as (b & Hb & Hcol).
  rewrite Hcol. destruct (hit b) eqn:Hhit; [exfalso|reflexivity].
  destruct (box_hit_inside _ _ _ Hb Hhit) as (t & Ht0 & Hpos & Hx & Hy & Hz).
  rewrite Hpos in Hx, Hy, Hz. clear Hpos Hcol Hb.
  unfold pixel_dir in Hx, Hy, Hz.
  set (v := mkVec3f (fsub (fadd (of_nat i) (dec 1 2))
                          (fdiv (of_nat w) (fromZ 2)))
                    (fadd (fopp (fadd (of_nat j) (dec 1 2)))
                          (fdiv (of_nat h) (fromZ 2)))
                    (fdiv (fopp (of_nat h)) (fmul (fromZ 2) tan_half_fov))
            : Vec3f R) in *.
  assert (Ez : vz v = - depth).
  { unfold v, depth. cbn [vz fdiv fopp fmul fromZ R_Scalar]. rewrite Hnat.
    unfold Rdiv. lra. }
  assert (Ex : vx v = dir_x).
  { unfold v, dir_x. cbn [vx fsub fadd fdiv fromZ R_Scalar].
    rewrite !Hnat, dec_R. reflexivity. }
  assert (Ey : vy v = dir_y).
  { unfold v, dir_y. cbn [vy fsub fadd fopp fdiv fromZ R_Scalar].
    rewrite !Hnat, dec_R. reflexivity. }
  assert (Hs : 0 < dot v v).
  { unfold dot. cbn [fadd fmul R_Scalar]. rewrite Ez. nra. }
  assert (Hn : 0 < norm v) by (apply sqrt_lt_R0; exact Hs).
  assert (Hin : 0 < / norm v) by (apply Rinv_0_lt_compat; exact Hn).
  unfold ray_point, vadd, vscale, normalize, eye_box in Hx, Hy, Hz.
  cbn [vx vy vz fadd fmul fdiv fromZ R_Scalar] in Hx, Hy, Hz.
  rewrite dec_R in Hx, Hy. rewrite Ex in Hx. rewrite Ey in Hy.
  rewrite Ez in Hz.
  set (k := / norm v * t) in *.
  assert (Hk : 0 <= k) by (unfold k; nra).
  replace (dir_x / norm v * t) with (dir_x * k) in Hx
    by (unfold k, Rdiv; ring).
  replace (dir_y / norm v * t) with (dir_y * k) in Hy
    by (unfold k, Rdiv; ring).
  replace (- depth / norm v * t) with (- depth * k) in Hz
    by (unfold k, Rdiv; ring).
  apply Rabs_def2 in Hx, Hy, Hz.
  destruct Hout as [Ho|[Ho|[Ho|Ho]]]; nra.
Qed.

Lemma render_outside_is_background_witness :
  0 < 1/2 /\ (0 < height)%nat /\
  (let dir_x := INR 400 + 1/2 - INR width / 2 in
   let dir_y := - (INR 240 + 1/2) + INR height / 2 in
   let depth := INR height / (2 * (1/2)) in
   depth <= 11 * dir_x \/ 5 * depth <= 11 * - dir_x \/
   depth <= 11 * dir_y \/ 5 * depth <= 11 * - dir_y) /\
  pixel_color 0 (1/2) width height 400 240 = Some (background : Vec3f R).
Proof.
  assert (Hw : INR width = 640)
    by (unfold width; rewrite INR_IZR_INZ; reflexivity).
  assert (Hh : INR height = 480)
    by (unfold height; rewrite INR_IZR_INZ; reflexivity).
  assert (H400 : INR 400 = 400) by (rewrite INR_IZR_INZ; reflexivity).
  assert (Ht : 0 < 1/2) by lra.
  assert (H0 : (0 < height)%nat) by (unfold height; lia).
  assert (Hi : let dir_x := INR 400 + 1/2 - INR width / 2 in
               let dir_y := - (INR 240 + 1/2) + INR height / 2 in
               let depth := INR height / (2 * (1/2)) in
               depth <= 11 * dir_x \/ 5 * depth <= 11 * - dir_x \/
               depth <= 11 * dir_y \/ 5 * depth <= 11 * - dir_y)
    by (cbv zeta; left; rewrite Hw, Hh, H400; lra).
  split; [exact Ht|]. split; [exact H0|]. split; [exact Hi|].
  exact (render_outside_is_background 0 (1/2) width height 400 240 Ht H0 Hi).
Defined.

End ExactMiss.

(** *** binary32 *)

Section Binary32Program.
Import Exact B32.

(** On binary32 too the value returned by [box_signed_distance] is
    [maxComp], at every point whose coordinates are not NaN. *)
Lemma box_signed_distance_b32 (p : Vec3f float32) :
  usable (vx p) -> usable (vy p) -> usable (vz p) ->
  box_signed_distance p = maxcomp (box_offset p).
Proof.
  intros Hx Hy Hz.
  destruct (box_offset_okq p Hx Hy Hz) as (Hqx & Hqy & Hqz).
  unfold box_signed_distance. fold (box_offset p).
  set (q := box_offset p) in *.
  unfold truthy, norm, dot, vmax, of_bool.
  cbn [vx vy vz fadd fmul fsqrt fltb feqb fromZ B32_Scalar].
  change (of_Z 0) with zero.
  replace (of_Z 1) with one by (symmetry; apply of_Z_1).
  pose proof (square_vmax (vx q) Hqx) as Sx.
  pose proof (square_vmax (vy q) Hqy) as Sy.
  pose proof (square_vmax (vz q) Hqz) as Sz.
  cbv zeta in Sx, Sy, Sz.
  match goal with
  | |- context [SFsqrt _ _ (SFadd _ _ (SFadd _ _ ?a ?b) ?c)] =>
      change (SFmul prec emax (if SFltb zero (vx q) then vx q else zero)
                (if SFltb zero (vx q) then vx q else zero)) with a in Sx;
      change (SFmul prec emax (if SFltb zero (vy q) then vy q else zero)
                (if SFltb zero (vy q) then vy q else zero)) with b in Sy;
      change (SFmul prec emax (if SFltb zero (vz q) then vz q else zero)
                (if SFltb zero (vz q) then vz q else zero)) with c in Sz;
      set (X := a) in *; set (Y := b) in *; set (Z' := c) in *
  end.
  set (S1 := SFadd prec emax X Y).
  set (S2 := SFadd prec emax S1 Z').
  assert (HX : nnf X) by (unfold nnf; tauto).
  assert (HY : nnf Y) by (unfold nnf; tauto).
  assert (HZ : nnf Z') by (unfold nnf; tauto).
  assert (HS2 : (S2 = zero /\ SFltb zero (vx q) = false /\
                 SFltb zero (vy q) = false /\ SFltb zero (vz q) = false)
                \/ posf S2).
  { destruct (add_nnf X Y HX HY) as [(EX & EY & E1)|[H1 P1]].
    - destruct (add_nnf S1 Z' (or_introl E1) HZ) as [(_ & EZ & E2)|[_ P2]];
        [left|right; exact P2].
      split; [exact E2|].
      destruct Sx as [[Lx _]|[_ Px]]; [|destruct (posf_not_zero X Px EX)].
      destruct Sy as [[Ly _]|[_ Py]]; [|destruct (posf_not_zero Y Py EY)].
      destruct Sz as [[Lz _]|[_ Pz]]; [|destruct (posf_not_zero Z' Pz EZ)].
      auto.
    - destruct (add_nnf S1 Z' (or_intror P1) HZ) as [(ES1 & _)|[_ P2]];
        [destruct (posf_not_zero S1 P1 ES1)|right; exact P2]. }
  assert (Hone : posf one) by (simpl; lia).
  destruct HS2 as [(E2 & Lx & Ly & Lz)|P2].
  - (* no component is positive *)
    rewrite E2. change (SFsqrt prec emax zero) with zero.
    destruct (SFltb (maxcomp q) zero) eqn:Hneg.
    + reflexivity.
    + change (SFeqb (SFadd prec emax zero zero) zero) with true. cbn [negb].
      symmetry.
      destruct (maxcomp_cases q) as [E|[E|E]]; rewrite E in *;
        apply okq_zero; assumption.
  - (* the sum of the squares is positive: the condition is not zero *)
    pose proof (sqrt_posf S2 P2) as PN.
    match goal with
    | |- context [SFeqb ?c zero] => assert (PC : posf c)
    end.
    { destruct (SFltb (maxcomp q) zero).
      - destruct (add_nnf _ one (or_intror PN) (or_intror Hone))
          as [(E & _)|[_ PC]]; [destruct (posf_not_zero _ PN E)|exact PC].
      - destruct (add_nnf _ zero (or_intror PN) (or_introl eq_refl))
          as [(E & _)|[_ PC]]; [destruct (posf_not_zero _ PN E)|exact PC]. }
    rewrite (eqb_zero_posf _ PC). reflexivity.
Qed.

Lemma okq_not_nan (x : float32) : okq x -> x <> S754_nan.
Proof. intros Hx ->. exact Hx. Qed.

(** X22. On binary32, at every point whose coordinates are numbers (finite
    or infinite, not NaN), [box_signed_distance] returns
    [maxcomp (abs p - box_center - box_size)], and the result is not
    NaN. *)
Theorem box_signed_distance_maxcomp_binary32 (p : Vec3f float32) :
  usable (vx p) -> usable (vy p) -> usable (vz p) ->
  box_signed_distance p = maxcomp (box_offset p) /\
  box_signed_distance p <> S754_nan.
Proof.
  intros Hx Hy Hz. pose proof (box_signed_distance_b32 p Hx Hy Hz) as E.
  split; [exact E|]. rewrite E.
  destruct (box_offset_okq p Hx Hy Hz) as (Hqx & Hqy & Hqz).
  destruct (maxcomp_cases (box_offset p)) as [->|[->| ->]];
    apply okq_not_nan; assumption.
Qed.

Lemma usable_half : usable half.
Proof. split; [reflexivity|discriminate]. Qed.

Lemma usable_one : usable one.
Proof. split; [reflexivity|discriminate]. Qed.

Lemma usable_infinity : usable (S754_infinity true).
Proof. split; [reflexivity|discriminate]. Qed.

Lemma box_signed_distance_maxcomp_binary32_witness :
  usable half /\ usable one /\ usable (S754_infinity true) /\
  box_signed_distance (mkVec3f half one (S754_infinity true))
  = maxcomp (box_offset (mkVec3f half one (S754_infinity true))) /\
  box_signed_distance (mkVec3f half one (S754_infinity true)) <> S754_nan.
Proof.
  split; [exact usable_half|]. split; [exact usable_one|].
  split; [exact usable_infinity|].
  exact (box_signed_distance_maxcomp_binary32
           (mkVec3f half one (S754_infinity true))
           usable_half usable_one usable_infinity).
Defined.

(** *** Mirror images *)

Lemma box_signed_distance_vabs {F : Type} `{Scalar F} (p p' : Vec3f F) :
  vabs p = vabs p' -> box_signed_distance p = box_signed_distance p'.
Proof. intros E. unfold box_signed_distance. rewrite E. reflexivity. Qed.

(** X23. [box_signed_distance] is even in each coordinate: changing the
    sign of any of the coordinates of [p] does not change the result, in
    exact arithmetic and on binary32 (for all floats). *)
Theorem box_signed_distance_even (sx sy sz : bool) :
  (forall p : Vec3f R,
      box_signed_distance (mirror sx sy sz p) = box_signed_distance p) /\
  (forall p : Vec3f float32,
      box_signed_distance (mirror sx sy sz p) = box_signed_distance p).
Proof.
  split; intros p; apply box_signed_distance_vabs; unfold vabs, mirror, flip;
    cbn [vx vy vz fabs fopp R_Scalar B32_Scalar].
  - destruct sx, sy, sz; rewrite ?Rabs_Ropp; reflexivity.
  - assert (E : forall x, SFabs (SFopp x) = SFabs x)
      by (intros [s|s| |s m e]; reflexivity).
    destruct sx, sy, sz; rewrite ?E; reflexivity.
Qed.

(** *** The ambient floor *)

(** X24. The ambient floor holds whatever the two vectors are:
    [light_intensity] is at least 0.4 in exact arithmetic; on binary32
    it is at least [0.4f] and never NaN, even when the normal is NaN,
    because [std::max (0.4f, x)] returns its first argument unless
    [0.4f < x]. *)
Theorem light_intensity_floor :
  (forall l n : Vec3f R, (4/10 <= light_intensity l n)%R) /\
  (forall l n : Vec3f float32,
      fleb ambient (light_intensity l n) = true /\
      light_intensity l n <> S754_nan).
Proof.
  split; intros l n.
  - unfold light_intensity, ambient. rewrite std_max_R, dec_R. apply Rmax_l.
  - unfold light_intensity, std_max. cbn [fltb fleb B32_Scalar].
    match goal with
    | |- context [if ?c then _ else _] => destruct c eqn:Hlt
    end.
    + split; [apply SFltb_SFleb; exact Hlt|].
      apply (SFltb_not_nan ambient). exact Hlt.
    + split; [vm_compute; reflexivity|]. vm_compute. discriminate.
Qed.

(** *** A ray from a point whose x coordinate is NaN *)

Lemma box_signed_distance_nan_x (p : Vec3f float32) :
  vx p = S754_nan ->
  box_signed_distance p = S754_nan \/ box_signed_distance p = zero.
Proof.
  intros Hx. unfold box_signed_distance.
  set (q := vsub (vsub (vabs p) box_center) box_size).
  assert (Hq : vx q = S754_nan).
  { unfold q, vsub, vabs. cbn [vx fsub fabs B32_Scalar]. rewrite Hx.
    reflexivity. }
  assert (Hm : maxcomp q = S754_nan).
  { unfold maxcomp. cbn [fltb B32_Scalar]. rewrite Hq.
    assert (E : forall y, SFltb S754_nan y = false)
      by (intros [s|s| |s m e]; reflexivity).
    rewrite !E. reflexivity. }
  rewrite Hm. destruct (truthy _); [left|right]; reflexivity.
Qed.

Lemma march_nan_x (steps : nat) (dir p : Vec3f float32) :
  vx p = S754_nan ->
  exists r, march (fun q => Some (box_signed_distance q)) steps dir p
            = Some r /\
            hit r = false /\ vx (pos r) = S754_nan /\ length (evals r) = steps.
Proof.
  revert p. induction steps as [|k IH]; intros p Hx.
  - exists (mkTrace false p []). auto.
  - rewrite march_S.
    assert (fltb (box_signed_distance p) (fromZ 0) = false) as ->
      by (destruct (box_signed_distance_nan_x p Hx) as [-> | ->]; reflexivity).
    match goal with
    | |- context [march _ k dir ?p'] =>
        destruct (IH p') as (r & -> & Hhit & Hpos & Hlen)
    end.
    + unfold vadd. cbn [vx fadd B32_Scalar]. rewrite Hx. reflexivity.
    + eexists. split; [reflexivity|]. cbn [hit pos evals length]. auto.
Qed.

(** X25. On binary32 a ray whose origin has a NaN x coordinate is a miss:
    [box_trace] evaluates the distance 128 times, never finds it
    negative, and hands back a position whose x coordinate is NaN. *)
Theorem box_trace_nan_origin (y z : float32) (dir : Vec3f float32) :
  exists r, box_trace (mkVec3f S754_nan y z) dir = Some r /\
            hit r = false /\ vx (pos r) = S754_nan /\
            length (evals r) = 128.
Proof.
  unfold box_trace. apply march_nan_x. reflexivity.
Qed.

End Binary32Program.

Section Binary32Helpers.
Import Exact B32.

(** X26. [maxcomp] returns one of the three components.  In exact
    arithmetic no component exceeds it.  On binary32 the result is NaN
    exactly when the x component is: a NaN in y or z loses every
    comparison and is skipped. *)
Theorem maxcomp_is_largest :
  (forall q : Vec3f R,
      (maxcomp q = vx q \/ maxcomp q = vy q \/ maxcomp q = vz q) /\
      (vx q <= maxcomp q /\ vy q <= maxcomp q /\ vz q <= maxcomp q)%R) /\
  (forall q : Vec3f float32,
      (maxcomp q = vx q \/ maxcomp q = vy q \/ maxcomp q = vz q) /\
      (maxcomp q = S754_nan <-> vx q = S754_nan)).
Proof.
  split; intros q.
  - rewrite maxcomp_Rmax. unfold Rmax.
    repeat destruct Rle_dec; split; auto; lra.
  - split; [apply maxcomp_cases|].
    unfold maxcomp. cbn [fltb B32_Scalar]. split.
    + intros Hn.
      destruct (SFltb (vx q) (vy q)) eqn:Hxy.
      * destruct (SFltb (vy q) (vz q)) eqn:Hyz.
        -- destruct (SFltb_not_nan _ _ Hyz Hn).
        -- destruct (SFltb_not_nan _ _ Hxy Hn).
      * destruct (SFltb (vx q) (vz q)) eqn:Hxz.
        -- destruct (SFltb_not_nan _ _ Hxz Hn).
        -- exact Hn.
    + intros ->.
      assert (E : forall y, SFltb S754_nan y = false)
        by (intros [s|s| |s m e]; reflexivity).
      rewrite !E. reflexivity.
Qed.

(** X27. [max (p, v)] is the componentwise maximum in exact arithmetic;
    on binary32 it replaces NaN components by [v]: when [v] is not NaN,
    no component of the result is. *)
Theorem vmax_filters_nan :
  (forall (p : Vec3f R) (v : R),
      vmax p v = mkVec3f (Rmax (vx p) v) (Rmax (vy p) v) (Rmax (vz p) v)) /\
  (forall (p : Vec3f float32) (v : float32),
      v <> S754_nan ->
      vx (vmax p v) <> S754_nan /\ vy (vmax p v) <> S754_nan /\
      vz (vmax p v) <> S754_nan).
Proof.
  split.
  - intros p v. unfold vmax. cbn [fltb R_Scalar].
    assert (E : forall x, (if Rltb v x then x else v) = Rmax x v).
    { intros x. unfold Rmax.
      destruct (Rltb v x) eqn:Hlt;
        [apply Rltb_true in Hlt|apply Rltb_false in Hlt];
        destruct Rle_dec; lra. }
    rewrite !E. reflexivity.
  - intros p v Hv. unfold vmax. cbn [vx vy vz fltb B32_Scalar].
    assert (E : forall x, (if SFltb v x then x else v) <> S754_nan).
    { intros x. destruct (SFltb v x) eqn:Hlt; [|exact Hv].
      apply (SFltb_not_nan v). exact Hlt. }
    repeat split; apply E.
Qed.

(** On binary32 [mod (f, 1)] returns a float of [[0, 1)] for every finite
    [f] of magnitude at most [2^24]. *)
Lemma mod_float_range_b32 (f : float32) :
  finite32 f = true -> SFleb (SFabs f) c24 = true ->
  exists r, returns (fun fuel => mod_float fuel f (fromZ 1)) r /\
            finite32 r = true /\
            SFleb zero r = true /\ SFltb r one = true.
Proof.
  intros Hf Hle. pose proof (leb_c24 f Hf Hle) as Hv.
  change (fromZ 1 : float32) with (of_Z 1). rewrite of_Z_1.
  assert (H149 : (0 < 2 ^ 149)%Z) by (apply Z.pow_pos_nonneg; lia).
  assert (exists n r, mod_float n f one = Some r /\
                      finite32 r = true /\ (0 <= val r < 2 ^ 149)%Z)
    as (n & r & Hr & Hfr & Hvr).
  { destruct (Z.lt_ge_cases (val f) 0) as [Hneg|Hpos].
    - destruct (mod_float_neg (Z.to_nat (2 ^ 24)) f Hf) as (r & Hr);
        [|lia|eauto].
      rewrite Z2Nat.id by (apply Z.pow_nonneg; lia).
      change (2 ^ 24 * 2 ^ 149)%Z with (2 ^ 173)%Z. lia.
    - destruct (mod_float_nonneg (Z.to_nat (2 ^ 24)) f Hf) as (r & Hr);
        [|lia|eauto].
      rewrite Z2Nat.id by (apply Z.pow_nonneg; lia).
      change (2 ^ 173)%Z with (2 ^ 24 * 2 ^ 149)%Z in Hv. lia. }
  exists r. split; [|split; [exact Hfr|split]].
  - exists n. intros fuel Hfuel. eapply mod_float_fuel_mono; eassumption.
  - apply leb_zero; [exact Hfr|lia].
  - apply ltb_one; assumption.
Qed.

(** X28. On binary32, at every point whose coordinates are finite and at
    most [2^24] in magnitude, [mod (p, 1)] returns a vector whose
    components are finite floats of [[0, 1)], and
    [sphere_signed_distance] returns the distance computed from it. *)
Theorem mod_vec_binary32_range (p : Vec3f float32) :
  finite32 (vx p) = true -> SFleb (SFabs (vx p)) c24 = true ->
  finite32 (vy p) = true -> SFleb (SFabs (vy p)) c24 = true ->
  finite32 (vz p) = true -> SFleb (SFabs (vz p)) c24 = true ->
  exists m,
    returns (fun fuel => mod_vec fuel p (fromZ 1)) m /\
    returns (fun fuel => sphere_signed_distance fuel p)
            (fsub (norm (vsub m sphere_center)) sphere_radius) /\
    Forall (fun c => finite32 c = true /\ SFleb zero c = true /\
                     SFltb c one = true) [vx m; vy m; vz m].
Proof.
  intros Hx Hx' Hy Hy' Hz Hz'.
  destruct (mod_float_range_b32 _ Hx Hx') as (x & (nx & Hnx) & Rx).
  destruct (mod_float_range_b32 _ Hy Hy') as (y & (ny & Hny) & Ry).
  destruct (mod_float_range_b32 _ Hz Hz') as (z & (nz & Hnz) & Rz).
  exists (mkVec3f x y z). split; [|split].
  - exists (nx + ny + nz)%nat. intros fuel Hfuel. unfold mod_vec.
    rewrite Hnx, Hny, Hnz by lia. reflexivity.
  - exists (nx + ny + nz)%nat. intros fuel Hfuel.
    unfold sphere_signed_distance, mod_vec.
    rewrite Hnx, Hny, Hnz by lia. reflexivity.
  - cbn [vx vy vz]. repeat constructor; tauto.
Qed.

Lemma mod_vec_binary32_range_witness :
  let p : Vec3f float32 := mkVec3f (dec (-37) 10) (dec 5 2) c24 in
  finite32 (vx p) = true /\ SFleb (SFabs (vx p)) c24 = true /\
  finite32 (vy p) = true /\ SFleb (SFabs (vy p)) c24 = true /\
  finite32 (vz p) = true /\ SFleb (SFabs (vz p)) c24 = true /\
  exists m,
    returns (fun fuel => mod_vec fuel p (fromZ 1)) m /\
    returns (fun fuel => sphere_signed_distance fuel p)
            (fsub (norm (vsub m sphere_center)) sphere_radius) /\
    Forall (fun c => finite32 c = true /\ SFleb zero c = true /\
                     SFltb c one = true) [vx m; vy m; vz m].
Proof.
  cbv zeta. repeat (split; [vm_compute; reflexivity|]).
  apply (mod_vec_binary32_range (mkVec3f (dec (-37) 10) (dec 5 2) c24));
    vm_compute; reflexivity.
Defined.

End Binary32Helpers.

